(** * GeminiLiveService: the streaming response protocol adapter

    A shallow embedding of the WebSocket service of the device inspection
    front end (class [GeminiLiveService] with its module-level singleton),
    and the properties of its reconnect policy, turn buffer, report
    extraction and subscriber registries.

    Layout: JavaScript strings and the two platform functions the report
    extractor leans on (regular-expression [match], [JSON.parse]); the
    service object with its three handler arrays kept in a store of array
    objects; the methods and socket callbacks as state transformers over a
    world that also records what the service did to its environment
    (timers, outbound frames, deliveries to subscribers, console lines);
    then the theorems.

    Left out of the model: the promise that [connect] returns; the text
    that [JSON.stringify] produces (frames and error lines are kept as
    the values they are built from); the arguments of a console call
    after the first. A subscriber callback is taken to return normally
    and to call nothing of the service but registrations and unregister
    capabilities. *)

From Stdlib Require Import NArith ZArith List Ascii String Lia Bool.
From stdpp Require Import base option numbers list.

Local Open Scope N_scope.

(** ** JavaScript strings

    A JavaScript string is a sequence of 16-bit code units; a code unit is
    an [N] and a string a [list N]. *)

(** A literal of the source, written with a Rocq string of ASCII
    characters. *)
Definition lit (s : string) : list N :=
  List.map N_of_ascii (list_ascii_of_string s).

Definition QUOTE : N := 34.
Definition NEWLINE : N := 10.

(** [\s] of a regular expression without the [u] flag, which is also the
    set that [String.prototype.trim] strips: WhiteSpace and LineTerminator
    of ECMAScript. *)
Definition is_space (c : N) : bool :=
  (9 <=? c) && (c <=? 13)
  || (c =? 32) || (c =? 160) || (c =? 5760)
  || (8192 <=? c) && (c <=? 8202)
  || (c =? 8232) || (c =? 8233) || (c =? 8239) || (c =? 8287)
  || (c =? 12288) || (c =? 65279).

(** [[\s\S]]: any code unit. *)
Definition any_char (c : N) : bool := is_space c || negb (is_space c).

Fixpoint trimStart (s : list N) : list N :=
  match s with
  | c :: s' => if is_space c then trimStart s' else s
  | [] => []
  end.

Definition trimEnd (s : list N) : list N := rev (trimStart (rev s)).

(** [String.prototype.trim]. *)
Definition trim (s : list N) : list N := trimEnd (trimStart s).

(** ** Regular expressions

    The fragment of the ECMAScript pattern language the source uses, with
    its backtracking semantics: alternatives are tried in priority order
    (a greedy quantifier tries the longest repetition first, a lazy one
    the shortest) and the first overall success wins. The matcher is
    written in continuation-passing style: [k] is the rest of the
    pattern, called on what remains of the subject and on the capture. *)

Inductive regex : Type :=
| RLit (s : list N)            (* a run of literal characters *)
| RSeq (r1 r2 : regex)         (* r1 r2 *)
| ROpt (r : regex)             (* (?:r)?   greedy *)
| RStar (p : N -> bool)        (* c*       greedy, c a character class *)
| RStarLazy (p : N -> bool)    (* c*?      lazy *)
| RGroup (r : regex).          (* ( r )    capturing group 1 *)

Fixpoint strip_prefix (p s : list N) : option (list N) :=
  match p, s with
  | [], _ => Some s
  | a :: p', b :: s' => if a =? b then strip_prefix p' s' else None
  | _ :: _, [] => None
  end.

Definition or_else {A} (x y : option A) : option A :=
  match x with Some a => Some a | None => y end.

Section Matcher.
Context {A : Type}.

(** What the matcher threads: the capture of group 1 so far. *)
Abbreviation cont := (list N -> option (list N) -> option A).

Fixpoint star_greedy (p : N -> bool) (k : list N -> option A)
    (s : list N) : option A :=
  match s with
  | c :: s' =>
      if p c then or_else (star_greedy p k s') (k s) else k s
  | [] => k s
  end.

Fixpoint star_lazy (p : N -> bool) (k : list N -> option A)
    (s : list N) : option A :=
  or_else (k s)
    match s with
    | c :: s' => if p c then star_lazy p k s' else None
    | [] => None
    end.

Fixpoint exec (r : regex) (s : list N) (cap : option (list N))
    (k : cont) : option A :=
  match r with
  | RLit l =>
      match strip_prefix l s with
      | Some s' => k s' cap
      | None => None
      end
  | RSeq r1 r2 => exec r1 s cap (fun s1 cap1 => exec r2 s1 cap1 k)
  | ROpt r1 => or_else (exec r1 s cap k) (k s cap)
  | RStar p => star_greedy p (fun s1 => k s1 cap) s
  | RStarLazy p => star_lazy p (fun s1 => k s1 cap) s
  | RGroup r1 =>
      exec r1 s cap
        (fun s1 _ => k s1 (Some (take (length s - length s1) s)))
  end.
End Matcher.

(** The result of a successful match: the matched text (index 0 of the
    match array) and capture group 1 ([None] when the group took no part
    in the match). *)
Record match_result : Type := MatchResult {
  matched : list N;
  group1 : option (list N)
}.

Definition match_at (r : regex) (s : list N) : option match_result :=
  exec r s None
    (fun rest cap => Some (MatchResult (take (length s - length rest) s) cap)).

(** [String.prototype.match] with a pattern without the [g] flag: the
    leftmost position at which the pattern matches. *)
Fixpoint js_match (r : regex) (s : list N) : option match_result :=
  or_else (match_at r s)
    match s with
    | _ :: s' => js_match r s'
    | [] => None
    end.

Definition FENCE : list N := lit "```".
Definition LBRACE : N := 123.
Definition RBRACE : N := 125.

(** [/```(?:json)?\s*([\s\S]*?)```/] *)
Definition codeBlock_re : regex :=
  RSeq (RLit FENCE)
    (RSeq (ROpt (RLit (lit "json")))
       (RSeq (RStar is_space)
          (RSeq (RGroup (RStarLazy any_char)) (RLit FENCE)))).

(** [/\{[\s\S]*\}/] *)
Definition jsonObject_re : regex :=
  RSeq (RLit [LBRACE]) (RSeq (RStar any_char) (RLit [RBRACE])).


(** ** JSON values and [JSON.parse]

    A number keeps the decimal the text wrote, [(-1)^negative * mantissa *
    10^exponent]; the JavaScript value is the double nearest to it. An
    object is the list of its own properties in creation order, without
    duplicate keys (JavaScript enumerates keys that look like array
    indices first; nothing here depends on the order). *)

Record number : Type := Number {
  negative : bool;
  mantissa : N;
  exponent : Z
}.

#[warnings="-register-all"]
Inductive json : Type :=
| JNull
| JBool (b : bool)
| JNum (n : number)
| JStr (s : list N)
| JArr (items : list json)
| JObj (props : list (list N * json)).

Definition ch (a : ascii) : N := N_of_ascii a.

Definition str_eqb (a b : list N) : bool := bool_decide (a = b).

(** Reading and defining an own property. Defining a key that exists
    replaces its value and keeps its place, as [CreateDataProperty] and
    assignment both do. *)
Fixpoint obj_get (k : list N) (props : list (list N * json)) : option json :=
  match props with
  | (k', v) :: rest => if str_eqb k k' then Some v else obj_get k rest
  | [] => None
  end.

Fixpoint obj_set (k : list N) (v : json) (props : list (list N * json))
    : list (list N * json) :=
  match props with
  | (k', v') :: rest =>
      if str_eqb k k' then (k', v) :: rest else (k', v') :: obj_set k v rest
  | [] => [(k, v)]
  end.

(** The members of an object literal are defined from left to right, so
    a repeated key keeps its first place and its last value. *)
Definition define_all (members : list (list N * json)) : list (list N * json) :=
  fold_left (fun props m => obj_set (fst m) (snd m) props) members [].

(** JSON whitespace: tab, line feed, carriage return, space. *)
Definition is_json_ws (c : N) : bool :=
  (c =? 9) || (c =? 10) || (c =? 13) || (c =? 32).

Fixpoint skip_ws (s : list N) : list N :=
  match s with
  | c :: s' => if is_json_ws c then skip_ws s' else s
  | [] => []
  end.

Definition is_digit (c : N) : bool := (ch "0" <=? c) && (c <=? ch "9").

Fixpoint span_digits (s : list N) : list N * list N :=
  match s with
  | c :: s' =>
      if is_digit c
      then let '(ds, rest) := span_digits s' in (c :: ds, rest)
      else ([], s)
  | [] => ([], [])
  end.

Definition digits_value (ds : list N) : N :=
  fold_left (fun acc c => 10 * acc + (c - ch "0")) ds 0.

Definition hex_value (c : N) : option N :=
  if is_digit c then Some (c - ch "0")
  else if (ch "a" <=? c) && (c <=? ch "f") then Some (c - ch "a" + 10)
  else if (ch "A" <=? c) && (c <=? ch "F") then Some (c - ch "A" + 10)
  else None.

(** The characters of a string literal after its opening quote, up to and
    including the closing quote. *)
Fixpoint parse_chars (s : list N) : option (list N * list N) :=
  match s with
  | [] => None
  | c :: r =>
      if c =? QUOTE then Some ([], r)
      else if c =? ch "\" then
        match r with
        | [] => None
        | e :: r1 =>
            if e =? ch "u" then
              match r1 with
              | h1 :: h2 :: h3 :: h4 :: r2 =>
                  match hex_value h1, hex_value h2, hex_value h3, hex_value h4 with
                  | Some a, Some b, Some c', Some d =>
                      match parse_chars r2 with
                      | Some (cs, rest) =>
                          Some (((a * 16 + b) * 16 + c') * 16 + d :: cs, rest)
                      | None => None
                      end
                  | _, _, _, _ => None
                  end
              | _ => None
              end
            else
              let unescaped :=
                if e =? QUOTE then Some QUOTE
                else if e =? ch "\" then Some (ch "\")
                else if e =? ch "/" then Some (ch "/")
                else if e =? ch "b" then Some 8
                else if e =? ch "f" then Some 12
                else if e =? ch "n" then Some 10
                else if e =? ch "r" then Some 13
                else if e =? ch "t" then Some 9
                else None in
              match unescaped with
              | Some u =>
                  match parse_chars r1 with
                  | Some (cs, rest) => Some (u :: cs, rest)
                  | None => None
                  end
              | None => None
              end
        end
      else if c <? 32 then None
      else
        match parse_chars r with
        | Some (cs, rest) => Some (c :: cs, rest)
        | None => None
        end
  end.

(** A number: an optional minus sign; an integer part that is either a
    single zero or starts with a digit from 1 to 9; an optional fraction
    (a dot and at least one digit); an optional exponent (e or E, an
    optional sign, at least one digit). *)
Definition parse_number (s : list N) : option (number * list N) :=
  let '(neg, s1) :=
    match s with
    | c :: r => if c =? ch "-" then (true, r) else (false, s)
    | [] => (false, s)
    end in
  let int_part :=
    match s1 with
    | c :: r =>
        if c =? ch "0" then Some ([c], r)
        else if is_digit c then Some (span_digits s1)
        else None
    | [] => None
    end in
  match int_part with
  | None => None
  | Some (ints, s2) =>
      let frac_part :=
        match s2 with
        | c :: r =>
            if c =? ch "." then
              match span_digits r with
              | ([], _) => None
              | (fs, r') => Some (fs, r')
              end
            else Some ([], s2)
        | [] => Some ([], s2)
        end in
      match frac_part with
      | None => None
      | Some (fracs, s3) =>
          let exp_part :=
            match s3 with
            | c :: r =>
                if (c =? ch "e") || (c =? ch "E") then
                  let '(eneg, r1) :=
                    match r with
                    | sg :: r' =>
                        if sg =? ch "-" then (true, r')
                        else if sg =? ch "+" then (false, r')
                        else (false, r)
                    | [] => (false, r)
                    end in
                  match span_digits r1 with
                  | ([], _) => None
                  | (es, r2) =>
                      let e := Z.of_N (digits_value es) in
                      Some (if eneg then (- e)%Z else e, r2)
                  end
                else Some (0%Z, s3)
            | [] => Some (0%Z, s3)
            end in
          match exp_part with
          | None => None
          | Some (e, s4) =>
              Some (Number neg (digits_value (ints ++ fracs))
                      (e - Z.of_nat (length fracs))%Z, s4)
          end
      end
  end.

(** The value grammar. [fuel] bounds the depth of the recursion;
    [JSON_parse] gives it more than any text can use. *)
Fixpoint parse_value (fuel : nat) (s : list N) : option (json * list N) :=
  match fuel with
  | O => None
  | S fuel' =>
      match skip_ws s with
      | [] => None
      | c :: r =>
          if c =? ch "{" then
            match skip_ws r with
            | c' :: r' =>
                if c' =? ch "}" then Some (JObj [], r')
                else
                  match parse_members fuel' r with
                  | Some (ps, rest) => Some (JObj (define_all ps), rest)
                  | None => None
                  end
            | [] => None
            end
          else if c =? ch "[" then
            match skip_ws r with
            | c' :: r' =>
                if c' =? ch "]" then Some (JArr [], r')
                else
                  match parse_elements fuel' r with
                  | Some (vs, rest) => Some (JArr vs, rest)
                  | None => None
                  end
            | [] => None
            end
          else if c =? QUOTE then
            match parse_chars r with
            | Some (cs, rest) => Some (JStr cs, rest)
            | None => None
            end
          else
            match strip_prefix (lit "null") (c :: r),
                  strip_prefix (lit "true") (c :: r),
                  strip_prefix (lit "false") (c :: r) with
            | Some rest, _, _ => Some (JNull, rest)
            | _, Some rest, _ => Some (JBool true, rest)
            | _, _, Some rest => Some (JBool false, rest)
            | None, None, None =>
                match parse_number (c :: r) with
                | Some (n, rest) => Some (JNum n, rest)
                | None => None
                end
            end
      end
  end

(** One or more values separated by commas, then the closing bracket. *)
with parse_elements (fuel : nat) (s : list N) : option (list json * list N) :=
  match fuel with
  | O => None
  | S fuel' =>
      match parse_value fuel' s with
      | None => None
      | Some (v, r) =>
          match skip_ws r with
          | c :: r' =>
              if c =? ch "," then
                match parse_elements fuel' r' with
                | Some (vs, rest) => Some (v :: vs, rest)
                | None => None
                end
              else if c =? ch "]" then Some ([v], r')
              else None
          | [] => None
          end
      end
  end

(** One or more [key : value] members separated by commas, then the
    closing brace, in the order of the text. *)
with parse_members (fuel : nat) (s : list N)
    : option (list (list N * json) * list N) :=
  match fuel with
  | O => None
  | S fuel' =>
      match skip_ws s with
      | q :: r0 =>
          if q =? QUOTE then
            match parse_chars r0 with
            | None => None
            | Some (key, r1) =>
                match skip_ws r1 with
                | colon :: r2 =>
                    if colon =? ch ":" then
                      match parse_value fuel' r2 with
                      | None => None
                      | Some (v, r3) =>
                          match skip_ws r3 with
                          | c :: r4 =>
                              if c =? ch "," then
                                match parse_members fuel' r4 with
                                | Some (ps, rest) =>
                                    Some ((key, v) :: ps, rest)
                                | None => None
                                end
                              else if c =? ch "}" then Some ([(key, v)], r4)
                              else None
                          | [] => None
                          end
                      end
                    else None
                | [] => None
                end
            end
          else None
      | [] => None
      end
  end.

(** [JSON.parse]: one value, with nothing but whitespace after it;
    [None] stands for the SyntaxError it throws otherwise. *)
Definition JSON_parse (text : list N) : option json :=
  match parse_value (2 * length text + 2) text with
  | Some (v, rest) =>
      match skip_ws rest with
      | [] => Some v
      | _ :: _ => None
      end
  | None => None
  end.


(** ** JavaScript values read back from JSON *)

(** Whether the double nearest to the decimal is zero: the decimal is
    zero, or it is at most [2^-1075], half of the smallest positive
    double, and rounds down (to even at the tie). *)
Definition rounds_to_zero (n : number) : bool :=
  (mantissa n =? 0) ||
  match exponent n with
  | Zneg e => mantissa n * 2 ^ 1075 <=? 10 ^ Npos e
  | _ => false
  end.

(** ToBoolean; [None] is [undefined]. *)
Definition truthy (v : option json) : bool :=
  match v with
  | None => false
  | Some JNull => false
  | Some (JBool b) => b
  | Some (JNum n) => negb (rounds_to_zero n)
  | Some (JStr s) => match s with [] => false | _ :: _ => true end
  | Some (JArr _) => true
  | Some (JObj _) => true
  end.

(** [v.k] for a value that is neither [null] nor [undefined] and a name
    [k] that no built-in prototype defines (every name the source reads is
    such a name): the own property of an object, [undefined] on anything
    else. *)
Definition prop (v : json) (k : string) : option json :=
  match v with
  | JObj ps => obj_get (lit k) ps
  | _ => None
  end.

(** ** The clock

    [new Date()] reads the clock; the model takes the UTC fields of the
    reading. [toISOString] prints them as [YYYY-MM-DDTHH:mm:ss.sssZ], with
    six digits and a sign for a year past 9999. *)

Record Date : Type := {
  year : N; month : N; day : N;
  hours : N; minutes : N; seconds : N; milliseconds : N
}.

Definition digit (n : N) : N := ch "0" + n mod 10.

Definition pad2 (n : N) : list N := [digit (n / 10); digit n].
Definition pad3 (n : N) : list N := digit (n / 100) :: pad2 n.
Definition pad4 (n : N) : list N := digit (n / 1000) :: pad3 n.

Definition toISOString (d : Date) : list N :=
  (if year d <=? 9999 then pad4 (year d)
   else ch "+" :: digit (year d / 100000) :: digit (year d / 10000) :: pad4 (year d))
  ++ ch "-" :: pad2 (month d) ++ ch "-" :: pad2 (day d)
  ++ ch "T" :: pad2 (hours d) ++ ch ":" :: pad2 (minutes d)
  ++ ch ":" :: pad2 (seconds d) ++ ch "." :: pad3 (milliseconds d) ++ [ch "Z"].

Local Close Scope N_scope.

(** ** The service object *)

Inductive ConnectionStatus : Type :=
| disconnected | connecting | connected | error.

(** An optional string property of an object literal: left out, present
    with the value [undefined], or present with a string. *)
Inductive optional : Type :=
| Absent
| Undefined
| Given (s : list N).

Record GeminiLiveConfig : Type := {
  apiKey : list N;
  model : optional;
  systemInstruction : optional
}.

Definition quoted (s : string) : list N := QUOTE :: lit s ++ [QUOTE].

Fixpoint join_lines (ls : list (list N)) : list N :=
  match ls with
  | [] => []
  | [l] => l
  | l :: rest => l ++ NEWLINE :: join_lines rest
  end.

Definition DEVICE_INSPECTION_PROMPT : list N :=
  join_lines [
    lit "You are an expert device quality inspector specializing in mobile phone condition assessment.";
    lit "Analyze the device shown in the video frame and provide a detailed inspection report.";
    [];
    lit "For each frame, evaluate:";
    [];
    lit "1. **Screen Condition**";
    lit "   - Cracks, chips, or fractures";
    lit "   - Scratches (light, deep, or gouges)";
    lit "   - Dead pixels or display anomalies";
    lit "   - Screen burn-in or discoloration";
    [];
    lit "2. **Body/Housing Condition**";
    lit "   - Dents, dings, or deformations";
    lit "   - Scratches on back panel and frame";
    lit "   - Paint/coating wear or peeling";
    lit "   - Corner and edge damage";
    [];
    lit "3. **Functional Components**";
    lit "   - Camera lens condition (scratches, cracks, debris)";
    lit "   - Button condition and alignment";
    lit "   - Port condition (charging port, headphone jack)";
    lit "   - Speaker/microphone grille condition";
    [];
    lit "4. **Overall Assessment**";
    lit "   - Device model identification (if visible)";
    lit "   - Estimated condition grade (1-10 scale)";
    lit "   - Category: Excellent (9-10), Good (7-8), Fair (5-6), Poor (3-4), Damaged (1-2)";
    [];
    lit "Return your findings as a JSON object with this structure:";
    lit "{";
    lit "  " ++ quoted "device_type" ++ lit ": " ++ quoted "string - identified device model or 'Unknown'" ++ lit ",";
    lit "  " ++ quoted "condition_score" ++ lit ": number (1-10),";
    lit "  " ++ quoted "overall_condition" ++ lit ": " ++ quoted "Excellent|Good|Fair|Poor|Damaged" ++ lit ",";
    lit "  " ++ quoted "defects" ++ lit ": [";
    lit "    {";
    lit "      " ++ quoted "type" ++ lit ": " ++ quoted "Screen Crack|Scratch|Dent|etc." ++ lit ",";
    lit "      " ++ quoted "location" ++ lit ": " ++ quoted "where on device" ++ lit ",";
    lit "      " ++ quoted "severity" ++ lit ": " ++ quoted "Minor|Moderate|Severe" ++ lit ",";
    lit "      " ++ quoted "description" ++ lit ": " ++ quoted "detailed description" ++ lit ",";
    lit "      " ++ quoted "dimensions_mm" ++ lit ": " ++ quoted "estimated size if applicable";
    lit "    }";
    lit "  ],";
    lit "  " ++ quoted "recommendations" ++ lit ": [" ++ quoted "array of repair/action recommendations" ++ lit "],";
    lit "  " ++ quoted "timestamp" ++ lit ": " ++ quoted "ISO timestamp";
    lit "}";
    [];
    lit "If no device is clearly visible, respond with:";
    lit "{";
    lit "  " ++ quoted "device_type" ++ lit ": " ++ quoted "Not Detected" ++ lit ",";
    lit "  " ++ quoted "condition_score" ++ lit ": 0,";
    lit "  " ++ quoted "overall_condition" ++ lit ": " ++ quoted "Unknown" ++ lit ",";
    lit "  " ++ quoted "defects" ++ lit ": [],";
    lit "  " ++ quoted "recommendations" ++ lit ": [" ++ quoted "Please position the device clearly in front of the camera" ++ lit "],";
    lit "  " ++ quoted "timestamp" ++ lit ": " ++ quoted "ISO timestamp";
    lit "}";
    [];
    lit "Be thorough but concise. Focus on actual visible defects, not speculative issues."
  ].

(** The three kinds of subscription. *)
Inductive Signal : Type :=
| MessageSignal | StatusSignal | DefectSignal.

#[global] Instance Signal_eq_dec : EqDecision Signal.
Proof. solve_decision. Defined.

(** References to array objects are indices into the store of arrays of
    the world; a socket reference is an index into its list of sockets. *)
Record Service : Type := {
  ws : option nat;
  config : GeminiLiveConfig;
  messageHandlers : nat;
  statusHandlers : nat;
  defectHandlers : nat;
  reconnectAttempts : N;
  currentStatus : ConnectionStatus;
  accumulatedResponse : list N
}.

(** [private maxReconnectAttempts = 3], never assigned again. *)
Definition maxReconnectAttempts : N := 3.

(** ** The world around the service *)

Inductive ReadyState : Type :=
| CONNECTING | OPEN | CLOSING | CLOSED.

(** What a subscriber callback is called with. A raw-text subscriber gets
    a fragment of the model's text or the line built from an API error,
    [`Error: ${err.message || JSON.stringify(err)}`], kept here as the
    error value it is built from. *)
Inductive Payload : Type :=
| PStatus (status : ConnectionStatus)
| PChunk (text : list N)
| PApiError (err : json)
| PReport (report : json).

(** The frames handed to [WebSocket.send], before [JSON.stringify]. *)
Inductive Outbound : Type :=
| SetupMessage (model systemInstruction : optional)
| RealtimeInput (mimeType data : list N)
| ClientContentImage (mimeType data prompt : list N)
| ClientContentText (text : list N).

Inductive Level : Type := LOG | WARN | ERROR.

Record World : Type := {
  this : Service;
  arrays : list (list nat);            (* the store of handler arrays *)
  sockets : list ReadyState;           (* every socket the service made *)
  timers : list N;                     (* setTimeout(() => this.connect(), ms) *)
  outbox : list (nat * Outbound);      (* socket and frame of each send *)
  delivered : list (nat * Payload);    (* every call of a subscriber callback *)
  console : list (Level * string)      (* level and first argument *)
}.

(** A JavaScript exception and the state it leaves behind. *)
Inductive JsError : Type := TypeError | SyntaxError.

Inductive completion : Type :=
| Normal (w : World)
| Throw (e : JsError) (w : World).

Definition bind (c : completion) (f : World -> completion) : completion :=
  match c with
  | Normal w => f w
  | Throw e w => Throw e w
  end.

(** [try { c } catch (error) { handler }] *)
Definition try_catch (c : completion) (handler : World -> World) : World :=
  match c with
  | Normal w => w
  | Throw _ w => handler w
  end.

(** Field updates. *)
Definition set_ws (x : option nat) (s : Service) : Service :=
  {| ws := x; config := config s;
     messageHandlers := messageHandlers s; statusHandlers := statusHandlers s;
     defectHandlers := defectHandlers s;
     reconnectAttempts := reconnectAttempts s;
     currentStatus := currentStatus s;
     accumulatedResponse := accumulatedResponse s |}.

Definition set_reconnectAttempts (x : N) (s : Service) : Service :=
  {| ws := ws s; config := config s;
     messageHandlers := messageHandlers s; statusHandlers := statusHandlers s;
     defectHandlers := defectHandlers s;
     reconnectAttempts := x;
     currentStatus := currentStatus s;
     accumulatedResponse := accumulatedResponse s |}.

Definition set_currentStatus (x : ConnectionStatus) (s : Service) : Service :=
  {| ws := ws s; config := config s;
     messageHandlers := messageHandlers s; statusHandlers := statusHandlers s;
     defectHandlers := defectHandlers s;
     reconnectAttempts := reconnectAttempts s;
     currentStatus := x;
     accumulatedResponse := accumulatedResponse s |}.

Definition set_accumulatedResponse (x : list N) (s : Service) : Service :=
  {| ws := ws s; config := config s;
     messageHandlers := messageHandlers s; statusHandlers := statusHandlers s;
     defectHandlers := defectHandlers s;
     reconnectAttempts := reconnectAttempts s;
     currentStatus := currentStatus s;
     accumulatedResponse := x |}.

Definition handlers_ref (k : Signal) (s : Service) : nat :=
  match k with
  | MessageSignal => messageHandlers s
  | StatusSignal => statusHandlers s
  | DefectSignal => defectHandlers s
  end.

Definition set_handlers_ref (k : Signal) (r : nat) (s : Service) : Service :=
  {| ws := ws s; config := config s;
     messageHandlers :=
       match k with MessageSignal => r | _ => messageHandlers s end;
     statusHandlers :=
       match k with StatusSignal => r | _ => statusHandlers s end;
     defectHandlers :=
       match k with DefectSignal => r | _ => defectHandlers s end;
     reconnectAttempts := reconnectAttempts s;
     currentStatus := currentStatus s;
     accumulatedResponse := accumulatedResponse s |}.

Definition with_this (f : Service -> Service) (w : World) : World :=
  {| this := f (this w); arrays := arrays w; sockets := sockets w;
     timers := timers w; outbox := outbox w; delivered := delivered w;
     console := console w |}.

Definition with_arrays (f : list (list nat) -> list (list nat)) (w : World)
    : World :=
  {| this := this w; arrays := f (arrays w); sockets := sockets w;
     timers := timers w; outbox := outbox w; delivered := delivered w;
     console := console w |}.

Definition with_sockets (f : list ReadyState -> list ReadyState) (w : World)
    : World :=
  {| this := this w; arrays := arrays w; sockets := f (sockets w);
     timers := timers w; outbox := outbox w; delivered := delivered w;
     console := console w |}.

(** [setTimeout(() => this.connect(), ms)] *)
Definition setTimeout (ms : N) (w : World) : World :=
  {| this := this w; arrays := arrays w; sockets := sockets w;
     timers := timers w ++ [ms]; outbox := outbox w; delivered := delivered w;
     console := console w |}.

(** [socket.send(JSON.stringify(frame))] *)
Definition send (socket : nat) (frame : Outbound) (w : World) : World :=
  {| this := this w; arrays := arrays w; sockets := sockets w;
     timers := timers w; outbox := outbox w ++ [(socket, frame)];
     delivered := delivered w; console := console w |}.

(** The call [handler(payload)] itself, before what the callback does. *)
Definition call (handler : nat) (payload : Payload) (w : World) : World :=
  {| this := this w; arrays := arrays w; sockets := sockets w;
     timers := timers w; outbox := outbox w;
     delivered := delivered w ++ [(handler, payload)];
     console := console w |}.

Definition console_out (level : Level) (line : string) (w : World) : World :=
  {| this := this w; arrays := arrays w; sockets := sockets w;
     timers := timers w; outbox := outbox w; delivered := delivered w;
     console := console w ++ [(level, line)] |}.

(** The array a handler field points at ([[]] for a dangling reference,
    which no method creates). *)
Definition handlers (k : Signal) (w : World) : list nat :=
  default [] (arrays w !! handlers_ref k (this w)).

(** [this.ws?.readyState === WebSocket.OPEN] *)
Definition ws_open (w : World) : option nat :=
  match ws (this w) with
  | Some socket =>
      match sockets w !! socket with
      | Some OPEN => Some socket
      | _ => None
      end
  | None => None
  end.

(** ** Subscriptions

    A subscriber callback is a function value, compared by identity
    ([h !== handler]); the model names it by a number. What a callback
    does to the service when it is called is to subscribe callbacks and to
    invoke unregister capabilities; it calls no other method of the
    service and does not throw. *)

Inductive Cmd : Type :=
| CSubscribe (k : Signal) (h : nat)
| CUnsubscribe (k : Signal) (h : nat).

(** [this.<k>Handlers.push(handler)]: the array object is updated in
    place. *)
Definition subscribe (k : Signal) (handler : nat) (w : World) : World :=
  with_arrays (alter (fun a => a ++ [handler]) (handlers_ref k (this w))) w.

(** The capability that [on<k>] returns:
    [this.<k>Handlers = this.<k>Handlers.filter((h) => h !== handler)].
    [filter] makes a new array object and the field is pointed at it. *)
Definition unsubscribe (k : Signal) (handler : nat) (w : World) : World :=
  let kept := filter (fun h => h <> handler) (handlers k w) in
  with_this (set_handlers_ref k (length (arrays w)))
    (with_arrays (fun a => a ++ [kept]) w).

Definition run_cmd (w : World) (c : Cmd) : World :=
  match c with
  | CSubscribe k h => subscribe k h w
  | CUnsubscribe k h => unsubscribe k h w
  end.

Section Callbacks.
(** What each callback does when it is called with a payload. *)
Variable callback : nat -> Payload -> list Cmd.

(** One step of [Array.prototype.forEach]: index [i] of the array
    object [array] as it is now. *)
Definition visit (array : nat) (payload : Payload) (w : World) (i : nat)
    : World :=
  match arrays w !! array ≫= (fun a => a !! i) with
  | Some h => foldl run_cmd (call h payload w) (callback h payload)
  | None => w
  end.

(** [this.<k>Handlers.forEach((handler) => handler(payload))]: the
    field is read once, the length of the array is read once, and the
    indices below it are visited in order. *)
Definition forEach (k : Signal) (payload : Payload) (w : World) : World :=
  let array := handlers_ref k (this w) in
  foldl (visit array payload) w (seq 0 (length (handlers k w))).

Definition setStatus (status : ConnectionStatus) (w : World) : World :=
  forEach StatusSignal (PStatus status)
    (with_this (set_currentStatus status) w).

(** The three registration methods push the handler; what each returns is
    the capability [unsubscribe] of its kind for that handler. *)
Definition onMessage (handler : nat) (w : World) : World :=
  subscribe MessageSignal handler w.

Definition onStatusChange (handler : nat) (w : World) : World :=
  subscribe StatusSignal handler w.

Definition onDefectReport (handler : nat) (w : World) : World :=
  subscribe DefectSignal handler w.

(** *** The socket callbacks that [connect] installs *)

Definition sendSetupMessage (w : World) : World :=
  match ws_open w with
  | None => w
  | Some socket =>
      console_out LOG "Setup message sent"
        (send socket
           (SetupMessage (model (config (this w)))
              (systemInstruction (config (this w)))) w)
  end.

Definition onopen (w : World) : World :=
  let w := console_out LOG "WebSocket connected to Gemini Live API" w in
  let w := with_this (set_reconnectAttempts 0%N) w in
  let w := sendSetupMessage w in
  setStatus connected w.

Definition onerror (w : World) : World :=
  setStatus error (console_out ERROR "WebSocket error:" w).

Definition onclose (w : World) : World :=
  let w := console_out LOG "WebSocket closed:" w in
  let w := setStatus disconnected w in
  if (reconnectAttempts (this w) <? maxReconnectAttempts)%N then
    let w :=
      with_this (set_reconnectAttempts (reconnectAttempts (this w) + 1)%N) w in
    setTimeout (2000 * reconnectAttempts (this w))%N w
  else w.

(** *** [connect]

    [new WebSocket(url)] may throw; [ctor_throws] says whether it does.
    The promise that [connect] returns is not part of the model. *)
Definition connect (ctor_throws : bool) (w : World) : World :=
  match ws_open w with
  | Some _ => w
  | None =>
      let w := setStatus connecting w in
      if ctor_throws then setStatus error w
      else
        with_this (set_ws (Some (length (sockets w))))
          (with_sockets (fun l => l ++ [CONNECTING]) w)
  end.

(** *** Outbound requests; [mimeType] defaults to ["image/jpeg"]. *)

Definition mime (mimeType : option (list N)) : list N :=
  default (lit "image/jpeg") mimeType.

Definition sendVideoFrame (base64ImageData : list N)
    (mimeType : option (list N)) (w : World) : World :=
  match ws_open w with
  | None => console_out WARN "WebSocket not connected" w
  | Some socket =>
      console_out LOG "Sent video frame via realtimeInput"
        (send socket (RealtimeInput (mime mimeType) base64ImageData) w)
  end.

Definition sendImageWithPrompt (base64ImageData prompt : list N)
    (mimeType : option (list N)) (w : World) : World :=
  match ws_open w with
  | None => console_out WARN "WebSocket not connected" w
  | Some socket =>
      let w := with_this (set_accumulatedResponse []) w in
      console_out LOG "Sent image with prompt via clientContent"
        (send socket
           (ClientContentImage (mime mimeType) base64ImageData prompt) w)
  end.

Definition sendTextPrompt (text : list N) (w : World) : World :=
  match ws_open w with
  | None => console_out WARN "WebSocket not connected" w
  | Some socket =>
      console_out LOG "Sent text prompt"
        (send socket (ClientContentText text) w)
  end.

(** *** [parseDefectReport] *)

(** [cleanText]: the trimmed content of the first fenced block, or the
    whole text. [None] is the TypeError of [codeBlockMatch[1].trim()]
    for a match without group 1, which this pattern never produces. *)
Definition cleanText (text : list N) : option (list N) :=
  match js_match codeBlock_re text with
  | Some m => trim <$> group1 m
  | None => Some text
  end.

(** [if (!report.timestamp) report.timestamp = new Date().toISOString()].
    Reading a property of [null] and, in the strict code of a class
    body, assigning one on a primitive are TypeErrors ([None]). An
    array would take the property; the model leaves it as it is. *)
Definition fill_timestamp (now : Date) (report : json) : option json :=
  match report with
  | JObj ps =>
      if truthy (obj_get (lit "timestamp") ps) then Some report
      else Some (JObj (obj_set (lit "timestamp") (JStr (toISOString now)) ps))
  | JArr _ => Some report
  | JNull => None
  | JBool _ | JNum _ | JStr _ => None
  end.

Definition parseDefectReport_try (now : Date) (text : list N) (w : World)
    : completion :=
  let w := console_out LOG "Parsing complete response:" w in
  match cleanText text with
  | None => Throw TypeError w
  | Some clean =>
      match js_match jsonObject_re clean with
      | Some jsonMatch =>
          match JSON_parse (matched jsonMatch) with
          | None => Throw SyntaxError w
          | Some parsed =>
              match fill_timestamp now parsed with
              | None => Throw TypeError w
              | Some report =>
                  let w := console_out LOG "Successfully parsed report:" w in
                  Normal (forEach DefectSignal (PReport report) w)
              end
          end
      | None => Normal (console_out LOG "No JSON object found in response" w)
      end
  end.

Definition parseDefectReport (now : Date) (text : list N) (w : World)
    : World :=
  try_catch (parseDefectReport_try now text w)
    (console_out ERROR "Failed to parse JSON:").

(** *** [handleMessage] *)

(** The body of [for (const part of modelTurn.parts)] over the items of
    an array. A [null] part has no properties to read, and a truthy
    [part.text] that is not a string has no [substring]: both throw
    before the part changes anything. *)
Fixpoint for_parts (parts : list json) (w : World) : completion :=
  match parts with
  | [] => Normal w
  | part :: rest =>
      match part with
      | JNull => Throw TypeError w
      | _ =>
          let text := prop part "text" in
          if truthy text then
            match text with
            | Some (JStr fragment) =>
                let w := console_out LOG "Received text chunk:" w in
                let w :=
                  with_this
                    (set_accumulatedResponse
                       (accumulatedResponse (this w) ++ fragment)) w in
                for_parts rest (forEach MessageSignal (PChunk fragment) w)
            | _ => Throw TypeError w
            end
          else for_parts rest w
      end
  end.

(** [if (modelTurn?.parts) { for ... }]. A string iterates as strings of
    its characters, which have no [text]; any other truthy value that is
    not an array is not iterable. *)
Definition handle_modelTurn (modelTurn : option json) (w : World)
    : completion :=
  let parts :=
    match modelTurn with
    | None | Some JNull => None
    | Some turn => prop turn "parts"
    end in
  if truthy parts then
    match parts with
    | Some (JArr items) => for_parts items w
    | Some (JStr _) => Normal w
    | _ => Throw TypeError w
    end
  else Normal w.

Definition handle_serverContent (now : Date) (serverContent : json)
    (w : World) : completion :=
  let modelTurn := prop serverContent "modelTurn" in
  let turnComplete := prop serverContent "turnComplete" in
  bind (handle_modelTurn modelTurn w) (fun w =>
    if truthy turnComplete then
      let w :=
        console_out LOG "Model turn complete, parsing accumulated response" w in
      let w := parseDefectReport now (accumulatedResponse (this w)) w in
      Normal (with_this (set_accumulatedResponse []) w)
    else Normal w).

Definition handleMessage_try (now : Date) (data : list N) (w : World)
    : completion :=
  match JSON_parse data with
  | None => Throw SyntaxError w
  | Some message =>
      let w := console_out LOG "Received message:" w in
      match message with
      | JNull => Throw TypeError w
      | _ =>
          if truthy (prop message "setupComplete") then
            Normal (console_out LOG "Gemini Live API setup complete" w)
          else
            bind
              match prop message "serverContent" with
              | Some serverContent =>
                  if truthy (Some serverContent)
                  then handle_serverContent now serverContent w
                  else Normal w
              | None => Normal w
              end
              (fun w =>
                 let w :=
                   if truthy (prop message "toolCall")
                   then console_out LOG "Tool call received:" w else w in
                 match prop message "error" with
                 | Some err =>
                     if truthy (Some err) then
                       Normal
                         (forEach MessageSignal (PApiError err)
                            (console_out ERROR "API Error:" w))
                     else Normal w
                 | None => Normal w
                 end)
      end
  end.

Definition handleMessage (now : Date) (data : list N) (w : World) : World :=
  try_catch (handleMessage_try now data w)
    (console_out ERROR "Error parsing message:").

(** *** [disconnect] *)

(** [socket.close()]: a socket that is connecting or open starts
    closing; the close event comes later, from the environment. *)
Definition close (socket : nat) (w : World) : World :=
  with_sockets
    (alter (fun st => match st with
                      | CONNECTING | OPEN => CLOSING
                      | CLOSING | CLOSED => st
                      end) socket) w.

Definition disconnect (w : World) : World :=
  let w :=
    match ws (this w) with
    | Some socket => with_this (set_ws None) (close socket w)
    | None => w
    end in
  setStatus disconnected w.

Definition getStatus (w : World) : ConnectionStatus := currentStatus (this w).

(** ** Events

    What happens to a service: calls of its public methods (a timer
    that fires is a call of [connect]), calls of the capabilities it
    handed out, and the events of the sockets it made. The readyState
    of a socket changes before its callback runs; [SocketMessage] is the
    moment [handleMessage] runs on the text of a frame. The order of events
    is not constrained: a browser delivers some of these orders, and a
    property of every run is a property of those. *)

Inductive Event : Type :=
| Connect (ctor_throws : bool)
| Disconnect
| SendVideoFrame (base64ImageData : list N) (mimeType : option (list N))
| SendImageWithPrompt (base64ImageData prompt : list N)
    (mimeType : option (list N))
| SendTextPrompt (text : list N)
| OnMessage (handler : nat)
| OnStatusChange (handler : nat)
| OnDefectReport (handler : nat)
| Unregister (k : Signal) (handler : nat)
| SocketOpen (socket : nat)
| SocketMessage (socket : nat) (data : list N) (now : Date)
| SocketError (socket : nat)
| SocketClose (socket : nat).

Definition step (w : World) (e : Event) : World :=
  match e with
  | Connect ctor_throws => connect ctor_throws w
  | Disconnect => disconnect w
  | SendVideoFrame d m => sendVideoFrame d m w
  | SendImageWithPrompt d p m => sendImageWithPrompt d p m w
  | SendTextPrompt t => sendTextPrompt t w
  | OnMessage h => onMessage h w
  | OnStatusChange h => onStatusChange h w
  | OnDefectReport h => onDefectReport h w
  | Unregister k h => unsubscribe k h w
  | SocketOpen socket => onopen (with_sockets (<[socket := OPEN]>) w)
  | SocketMessage _ data now => handleMessage now data w
  | SocketError _ => onerror w
  | SocketClose socket => onclose (with_sockets (<[socket := CLOSED]>) w)
  end.

Definition run (w : World) (events : list Event) : World :=
  foldl step w events.
End Callbacks.

(** ** Construction and the module-level singleton *)

(** [new GeminiLiveService(config)]: the defaults, overridden by every
    property that [config] has (also by one whose value is undefined). *)
Definition spread (default : list N) (o : optional) : optional :=
  match o with
  | Absent => Given default
  | Undefined | Given _ => o
  end.

Definition new_GeminiLiveService (config : GeminiLiveConfig) : World :=
  {| this :=
       {| ws := None;
          config :=
            {| apiKey := apiKey config;
               model := spread (lit "gemini-2.0-flash-exp") (model config);
               systemInstruction :=
                 spread DEVICE_INSPECTION_PROMPT (systemInstruction config) |};
          messageHandlers := 0; statusHandlers := 1; defectHandlers := 2;
          reconnectAttempts := 0%N;
          currentStatus := disconnected;
          accumulatedResponse := [] |};
     arrays := [[]; []; []];
     sockets := []; timers := []; outbox := []; delivered := [];
     console := [] |}.

(** The module: every service object made so far, each with its world,
    and the variable [serviceInstance]. *)
Record ModuleState : Type := {
  instances : list World;
  serviceInstance : option nat
}.

Definition getGeminiLiveService (config : GeminiLiveConfig) (m : ModuleState)
    : nat * ModuleState :=
  match serviceInstance m with
  | Some instance => (instance, m)
  | None =>
      let instance := length (instances m) in
      (instance,
       {| instances := instances m ++ [new_GeminiLiveService config];
          serviceInstance := Some instance |})
  end.

Definition resetGeminiLiveService (callback : nat -> Payload -> list Cmd)
    (m : ModuleState) : ModuleState :=
  match serviceInstance m with
  | Some instance =>
      {| instances := alter (disconnect callback) instance (instances m);
         serviceInstance := None |}
  | None => m
  end.

(** What a program does with the module: the two exported functions, and
    anything that happens to a service object it holds. *)
Inductive Action : Type :=
| Get (config : GeminiLiveConfig)
| Reset
| On (instance : nat) (e : Event).

Definition act (callback : nat -> Payload -> list Cmd) (m : ModuleState)
    (a : Action) : ModuleState :=
  match a with
  | Get config => snd (getGeminiLiveService config m)
  | Reset => resetGeminiLiveService callback m
  | On instance e =>
      {| instances :=
           alter (fun w => step callback w e) instance (instances m);
         serviceInstance := serviceInstance m |}
  end.

(** ** The components that use the service

    Each of the two inspector components makes its service in an effect,
    [new GeminiLiveService({ apiKey })], registers one callback of each
    kind there, and returns a cleanup that invokes the three unregister
    capabilities and then calls [disconnect]. The callbacks set component
    state and resolve a promise; none of them calls the service, so
    [quiet] below is what they do to it. *)

Definition inspector_config (key : list N) : GeminiLiveConfig :=
  {| apiKey := key; model := Absent; systemInstruction := Absent |}.

(** The registrations of the effect, for the callbacks [hM] (raw text),
    [hS] (status) and [hD] (reports), and the cleanup it returns. *)
Definition inspector_effect (hM hS hD : nat) : list Event :=
  [OnMessage hM; OnStatusChange hS; OnDefectReport hD].

Definition inspector_cleanup (hM hS hD : nat) : list Event :=
  [Unregister MessageSignal hM; Unregister StatusSignal hS;
   Unregister DefectSignal hD; Disconnect].

(** ** Vocabulary of the statements *)

(** *** What the environment saw *)

(** Everything of a world but the handler arrays, the three fields that
    point at them, and the record of deliveries. *)
Definition frame (w : World) :=
  (ws (this w), config (this w), reconnectAttempts (this w),
   currentStatus (this w), accumulatedResponse (this w),
   sockets w, timers w, outbox w, console w).

(** The kind of subscriber a payload is for. *)
Definition signal_of (p : Payload) : Signal :=
  match p with
  | PStatus _ => StatusSignal
  | PChunk _ | PApiError _ => MessageSignal
  | PReport _ => DefectSignal
  end.

(** The calls that callback [h] received as a subscriber of kind [k]. *)
Definition received (k : Signal) (h : nat) (w : World) : list (nat * Payload) :=
  filter (fun c => c.1 = h /\ signal_of c.2 = k) (delivered w).

Definition is_open (e : Event) : Prop :=
  match e with SocketOpen _ => True | _ => False end.

Definition is_close (e : Event) : Prop :=
  match e with SocketClose _ => True | _ => False end.

#[global] Instance is_open_dec e : Decision (is_open e).
Proof. destruct e; simpl; apply _. Defined.

#[global] Instance is_close_dec e : Decision (is_close e).
Proof. destruct e; simpl; apply _. Defined.

(** The number of socket closures among the events. *)
Definition closures (events : list Event) : nat :=
  length (filter is_close events).

(** The event registers callback [h] as a subscriber of kind [k]. *)
Definition registers (k : Signal) (h : nat) (e : Event) : Prop :=
  match e with
  | OnMessage h' => k = MessageSignal /\ h' = h
  | OnStatusChange h' => k = StatusSignal /\ h' = h
  | OnDefectReport h' => k = DefectSignal /\ h' = h
  | _ => False
  end.

(** Everything of a world but the console. *)
Definition but_console (w : World) :=
  (this w, arrays w, sockets w, timers w, outbox w, delivered w).

Definition is_setup (f : Outbound) : Prop :=
  match f with SetupMessage _ _ => True | _ => False end.

(** The frame that a request method hands to an open socket. *)
Definition request_frame (e : Event) : option Outbound :=
  match e with
  | SendVideoFrame d m => Some (RealtimeInput (mime m) d)
  | SendImageWithPrompt d p m => Some (ClientContentImage (mime m) d p)
  | SendTextPrompt t => Some (ClientContentText t)
  | _ => None
  end.

(** What [close()] does to the state of a socket. *)
Definition to_closing (st : ReadyState) : ReadyState :=
  match st with
  | CONNECTING | OPEN => CLOSING
  | CLOSING | CLOSED => st
  end.

(** The event registers or unregisters a callback. *)
Definition registry_event (e : Event) : Prop :=
  match e with
  | OnMessage _ | OnStatusChange _ | OnDefectReport _ | Unregister _ _ => True
  | _ => False
  end.

(** *** The footprint of the methods *)

(** The statements the methods are made of, as the unit of what an event
    can do to a world. *)
Inductive Op : Type :=
| OpWs (x : option nat)
| OpAttempts (n : N)
| OpStatus (status : ConnectionStatus)
| OpBuffer (x : list N)
| OpSockets (f : list ReadyState -> list ReadyState)
| OpTimer (ms : N)
| OpSend (socket : nat) (frame : Outbound)
| OpConsole (level : Level) (line : string)
| OpForEach (k : Signal) (p : Payload)
| OpSubscribe (k : Signal) (h : nat)
| OpUnsubscribe (k : Signal) (h : nat).

Definition apply_op (callback : nat -> Payload -> list Cmd) (w : World)
    (o : Op) : World :=
  match o with
  | OpWs x => with_this (set_ws x) w
  | OpAttempts n => with_this (set_reconnectAttempts n) w
  | OpStatus status => with_this (set_currentStatus status) w
  | OpBuffer x => with_this (set_accumulatedResponse x) w
  | OpSockets f => with_sockets f w
  | OpTimer ms => setTimeout ms w
  | OpSend socket fr => send socket fr w
  | OpConsole level line => console_out level line w
  | OpForEach k p => forEach callback k p w
  | OpSubscribe k h => subscribe k h w
  | OpUnsubscribe k h => unsubscribe k h w
  end.

(** Which statements the handling of an event may execute. *)
Definition transport_event (e : Event) : Prop :=
  match e with
  | Connect _ | Disconnect | SocketOpen _ | SocketError _ | SocketClose _ => True
  | _ => False
  end.

Definition permitted (e : Event) (o : Op) : Prop :=
  match o with
  | OpConsole _ _ => True
  | OpWs _ | OpSockets _ =>
      match e with
      | Connect _ | Disconnect | SocketOpen _ | SocketClose _ => True
      | _ => False
      end
  | OpStatus _ => transport_event e
  | OpAttempts n =>
      match e with
      | SocketOpen _ => n = 0%N
      | SocketClose _ => True
      | _ => False
      end
  | OpTimer _ => match e with SocketClose _ => True | _ => False end
  | OpBuffer _ =>
      match e with
      | SendImageWithPrompt _ _ _ | SocketMessage _ _ _ => True
      | _ => False
      end
  | OpSend _ _ =>
      match e with
      | SendVideoFrame _ _ | SendImageWithPrompt _ _ _ | SendTextPrompt _
      | SocketOpen _ => True
      | _ => False
      end
  | OpForEach k p =>
      signal_of p = k /\
      match p with
      | PStatus _ => transport_event e
      | PChunk _ | PApiError _ | PReport _ =>
          match e with SocketMessage _ _ _ => True | _ => False end
      end
  | OpSubscribe k h =>
      match e with
      | OnMessage h' => k = MessageSignal /\ h = h'
      | OnStatusChange h' => k = StatusSignal /\ h = h'
      | OnDefectReport h' => k = DefectSignal /\ h = h'
      | _ => False
      end
  | OpUnsubscribe k h =>
      match e with
      | Unregister k' h' => k = k' /\ h = h'
      | _ => False
      end
  end.

(** [w'] comes from [w] by statements that all satisfy [P]. *)
Definition made_of (callback : nat -> Payload -> list Cmd) (P : Op -> Prop)
    (w w' : World) : Prop :=
  exists ops, Forall P ops /\ w' = foldl (apply_op callback) w ops.

Definition made_of_c (callback : nat -> Payload -> list Cmd) (P : Op -> Prop)
    (w : World) (c : completion) : Prop :=
  match c with
  | Normal w' => made_of callback P w w'
  | Throw _ w' => made_of callback P w w'
  end.

(** *** The registries *)

(** The array object at [array] still starts with [snapshot]. *)
Definition starts_with (array : nat) (snapshot : list nat) (w : World) : Prop :=
  exists later, arrays w !! array = Some (snapshot ++ later).

(** The three handler fields point at three different arrays of the
    store. *)
Definition well_formed (w : World) : Prop :=
  (forall k, handlers_ref k (this w) < length (arrays w)) /\
  (forall k k', handlers_ref k (this w) = handlers_ref k' (this w) -> k = k').

(** Some callback, when called, subscribes [h] to [k]. *)
Definition resubscribed (callback : nat -> Payload -> list Cmd) (k : Signal)
    (h : nat) : Prop :=
  exists h' p, CSubscribe k h ∈ callback h' p.

(** Callback [h] is not in the array of kind [k] of a well-formed world,
    and [calls] is what it has received so far. *)
Definition absent (k : Signal) (h : nat) (calls : list (nat * Payload))
    (w : World) : Prop :=
  well_formed w /\ (h ∉ handlers k w) /\ received k h w = calls.

(** *** What holds along a run *)

(** The attempt counter is within the ceiling and every reconnect was
    scheduled with one of the three delays. *)
Definition bounded (w : World) : Prop :=
  (reconnectAttempts (this w) <= maxReconnectAttempts)%N /\
  Forall (fun ms => ms ∈ [2000; 4000; 6000]%N) (timers w).

(** Every socket that is open, and every socket a frame went to, has had
    its open event among [events]. *)
Definition opened (events : list Event) (w : World) : Prop :=
  (forall s, sockets w !! s = Some OPEN -> SocketOpen s ∈ events) /\
  (forall s f, (s, f) ∈ outbox w -> SocketOpen s ∈ events).

(** Every frame of the list that is no setup message has a setup message
    to the same socket before it. *)
Definition in_order (l : list (nat * Outbound)) : Prop :=
  forall i s f, l !! i = Some (s, f) -> ~ is_setup f ->
    exists j m ins, j < i /\ l !! j = Some (s, SetupMessage m ins).

(** The socket the service would send on has been sent a setup message,
    and the frames sent so far are in order. *)
Definition handshaken (w : World) : Prop :=
  (forall s, ws_open w = Some s ->
     exists m ins, (s, SetupMessage m ins) ∈ outbox w) /\
  in_order (outbox w).

(** The service has the configuration [c], and every setup message it
    sent carries the model and the instruction of [c]. *)
Definition configured (c : GeminiLiveConfig) (w : World) : Prop :=
  config (this w) = c /\
  forall s m ins, (s, SetupMessage m ins) ∈ outbox w ->
    m = model c /\ ins = systemInstruction c.

(** A well-formed world without a subscriber of any kind. *)
Definition deaf (w : World) : Prop :=
  well_formed w /\ forall k, handlers k w = [].

(** *** Patterns and texts *)

(** Whether every match of a pattern sets group 1. *)
Fixpoint captures (r : regex) : bool :=
  match r with
  | RGroup _ => true
  | RSeq r1 r2 => captures r1 || captures r2
  | RLit _ | ROpt _ | RStar _ | RStarLazy _ => false
  end.

(** The text has no opening brace with a closing brace after it. *)
Definition no_braces (text : list N) : Prop :=
  forall pre mid post, text <> pre ++ LBRACE :: mid ++ RBRACE :: post.

Definition BACKTICK : N := 96%N.

(** *** The Defect Report shape, in the words of the specification

    A device type label, a condition score that is an integer from 0 to
    10, a condition category from the fixed set or the Unknown sentinel,
    a sequence of Defect records, a sequence of free-text
    recommendations, and a timestamp that may be left out. The source
    has no function for it. *)

Definition integer_value (n : number) : option Z :=
  let m := Z.of_N (mantissa n) in
  let signed := if negative n then (- m)%Z else m in
  match exponent n with
  | Zneg e =>
      if (m mod 10 ^ Zpos e =? 0)%Z then Some (signed / 10 ^ Zpos e)%Z else None
  | e => Some (signed * 10 ^ e)%Z
  end.

Definition is_string (v : option json) : bool :=
  match v with Some (JStr _) => true | _ => false end.

Definition is_one_of (names : list string) (v : option json) : bool :=
  match v with
  | Some (JStr s) => existsb (fun name => str_eqb s (lit name)) names
  | _ => false
  end.

Definition is_score (v : option json) : bool :=
  match v with
  | Some (JNum n) =>
      match integer_value n with
      | Some z => (0 <=? z)%Z && (z <=? 10)%Z
      | None => false
      end
  | _ => false
  end.

Definition Defect_shape (v : json) : bool :=
  match v with
  | JObj ps =>
      is_string (obj_get (lit "type") ps)
      && is_string (obj_get (lit "location") ps)
      && is_one_of ["Minor"; "Moderate"; "Severe"]%string
           (obj_get (lit "severity") ps)
      && is_string (obj_get (lit "description") ps)
      && match obj_get (lit "dimensions_mm") ps with
         | None => true
         | Some d => is_string (Some d)
         end
  | _ => false
  end.

Definition DefectReport_shape (v : json) : bool :=
  match v with
  | JObj ps =>
      is_string (obj_get (lit "device_type") ps)
      && is_score (obj_get (lit "condition_score") ps)
      && is_one_of
           ["Damaged"; "Poor"; "Fair"; "Good"; "Excellent"; "Unknown"]%string
           (obj_get (lit "overall_condition") ps)
      && match obj_get (lit "defects") ps with
         | Some (JArr ds) => forallb Defect_shape ds
         | _ => false
         end
      && match obj_get (lit "recommendations") ps with
         | Some (JArr rs) => forallb (fun r => is_string (Some r)) rs
         | _ => false
         end
      && match obj_get (lit "timestamp") ps with
         | None => true
         | Some t => is_string (Some t)
         end
  | _ => false
  end.

(** *** Content frames

    A part that carries a text fragment, and a decoded frame whose
    [serverContent.modelTurn.parts] carries the given fragments, with
    its turn-complete flag, and which is no setup acknowledgement, tool
    call or error. *)
Definition text_part (fragment : list N) (part : json) : Prop :=
  exists ps, part = JObj ps /\ obj_get (lit "text") ps = Some (JStr fragment).

Definition content_frame (message : json) (fragments : list (list N))
    (complete : bool) : Prop :=
  exists serverContent modelTurn parts,
    truthy (prop message "setupComplete") = false /\
    prop message "serverContent" = Some serverContent /\
    prop serverContent "modelTurn" = Some modelTurn /\
    prop modelTurn "parts" = Some (JArr parts) /\
    Forall2 text_part fragments parts /\
    truthy (prop serverContent "turnComplete") = complete /\
    truthy (prop message "toolCall") = false /\
    truthy (prop message "error") = false.

(** The event is the arrival of a content frame with these fragments
    that does not complete the turn. *)
Definition carries (e : Event) (fragments : list (list N)) : Prop :=
  exists socket data now message,
    e = SocketMessage socket data now /\
    JSON_parse data = Some message /\
    content_frame message fragments false.

(** *** Other frames *)

(** The decoded frame is one that [handleMessage] does nothing with but
    write to the console: no object, a setup acknowledgement, or an
    object with neither server content nor an error. *)
Definition inert (message : option json) : bool :=
  match message with
  | Some (JObj ps) =>
      truthy (obj_get (lit "setupComplete") ps)
      || negb (truthy (obj_get (lit "serverContent") ps))
         && negb (truthy (obj_get (lit "error") ps))
  | _ => true
  end.


(** [modelTurn?.parts] of a server content. *)
Definition parts_of (serverContent : json) : option json :=
  match prop serverContent "modelTurn" with
  | None | Some JNull => None
  | Some turn => prop turn "parts"
  end.

(** A decoded frame that signals the end of the turn and carries no
    parts and no error. *)
Definition turn_end (message : json) : Prop :=
  exists serverContent,
    truthy (prop message "setupComplete") = false /\
    prop message "serverContent" = Some serverContent /\
    truthy (parts_of serverContent) = false /\
    truthy (prop serverContent "turnComplete") = true /\
    truthy (prop message "error") = false.

(** A part at which the loop over the parts throws: [null], or a part
    whose [text] is truthy and no string. *)
Definition bad_part (part : json) : Prop :=
  part = JNull \/
  exists v, prop part "text" = Some v /\ truthy (Some v) = true /\
            forall s, v <> JStr s.

(** Whether the text of a frame decodes to a message whose server
    content signals the end of the turn. *)
Definition completes_turn (data : list N) : bool :=
  match JSON_parse data with
  | Some message =>
      match prop message "serverContent" with
      | Some serverContent => truthy (prop serverContent "turnComplete")
      | None => false
      end
  | None => false
  end.

(** *** The singleton *)

(** The module holds the instance [r], whose configuration is [c]. *)
Definition holds (m : ModuleState) (r : nat) (c : GeminiLiveConfig) : Prop :=
  serviceInstance m = Some r /\
  exists w, instances m !! r = Some w /\ config (this w) = c.

(** *** Concrete inputs *)

(** Callbacks that do nothing to the service. *)
Definition quiet : nat -> Payload -> list Cmd := fun _ _ => [].

Definition demo_config : GeminiLiveConfig :=
  {| apiKey := lit "key"; model := Absent; systemInstruction := Absent |}.

(** A connected service with one subscriber of each kind: 3 for raw
    text, 5 for status, 7 for reports. *)
Definition demo_history : list Event :=
  [OnMessage 3; OnStatusChange 5; OnDefectReport 7; Connect false; SocketOpen 0].

Definition demo_world : World :=
  run quiet (new_GeminiLiveService demo_config) demo_history.

Definition demo_date : Date :=
  {| year := 2025; month := 1; day := 31;
     hours := 9; minutes := 5; seconds := 7; milliseconds := 42 |}.

(** The fenced report of the specification's example. *)
Definition iphone_report_text : list N :=
  FENCE ++ lit "json" ++ [NEWLINE]
  ++ lit "{" ++ quoted "device_type" ++ lit ":" ++ quoted "iPhone 12"
  ++ lit "," ++ quoted "condition_score" ++ lit ":8"
  ++ lit "," ++ quoted "overall_condition" ++ lit ":" ++ quoted "Good"
  ++ lit "," ++ quoted "defects" ++ lit ":[]"
  ++ lit "," ++ quoted "recommendations" ++ lit ":[]"
  ++ lit "," ++ quoted "timestamp" ++ lit ":" ++ [QUOTE; QUOTE]
  ++ lit "}" ++ [NEWLINE] ++ FENCE.

Definition iphone_candidate : list N :=
  lit "{" ++ quoted "device_type" ++ lit ":" ++ quoted "iPhone 12"
  ++ lit "," ++ quoted "condition_score" ++ lit ":8"
  ++ lit "," ++ quoted "overall_condition" ++ lit ":" ++ quoted "Good"
  ++ lit "," ++ quoted "defects" ++ lit ":[]"
  ++ lit "," ++ quoted "recommendations" ++ lit ":[]"
  ++ lit "," ++ quoted "timestamp" ++ lit ":" ++ [QUOTE; QUOTE]
  ++ lit "}".

Definition iphone_parsed : json :=
  JObj
    [(lit "device_type", JStr (lit "iPhone 12"));
     (lit "condition_score", JNum (Number false 8 0));
     (lit "overall_condition", JStr (lit "Good"));
     (lit "defects", JArr []);
     (lit "recommendations", JArr []);
     (lit "timestamp", JStr [])].

Definition iphone_report (now : Date) : json :=
  JObj
    [(lit "device_type", JStr (lit "iPhone 12"));
     (lit "condition_score", JNum (Number false 8 0));
     (lit "overall_condition", JStr (lit "Good"));
     (lit "defects", JArr []);
     (lit "recommendations", JArr []);
     (lit "timestamp", JStr (toISOString now))].

(** An object that parses but is no Defect Report: three required
    fields are missing, the score is 11 and the category is not in the
    set. *)
Definition misshapen_text : list N :=
  lit "{" ++ quoted "condition_score" ++ lit ":11,"
  ++ quoted "overall_condition" ++ lit ":" ++ quoted "Mint" ++ lit "}".

Definition misshapen_parsed : json :=
  JObj
    [(lit "condition_score", JNum (Number false 11 0));
     (lit "overall_condition", JStr (lit "Mint"))].

Definition misshapen (now : Date) : json :=
  JObj
    [(lit "condition_score", JNum (Number false 11 0));
     (lit "overall_condition", JStr (lit "Mint"));
     (lit "timestamp", JStr (toISOString now))].

Definition prose_text : list N := lit "Sorry, I can't see a device.".

(** A fenced object with a trailing comma. *)
Definition trailing_comma_text : list N :=
  FENCE ++ lit "json" ++ [NEWLINE]
  ++ lit "{" ++ quoted "device_type" ++ lit ":" ++ quoted "iPhone 12"
  ++ lit ",}" ++ [NEWLINE] ++ FENCE.

Definition trailing_comma_candidate : list N :=
  lit "{" ++ quoted "device_type" ++ lit ":" ++ quoted "iPhone 12" ++ lit ",}".

(** A content frame that carries the one fragment ["partial"] and does
    not complete the turn. *)
Definition partial_frame : list N :=
  lit "{" ++ quoted "serverContent" ++ lit ":{" ++ quoted "modelTurn"
  ++ lit ":{" ++ quoted "parts" ++ lit ":[{" ++ quoted "text" ++ lit ":"
  ++ quoted "partial" ++ lit "}]}}}".

(** A content frame whose only fragment is the empty string. *)
Definition empty_fragment_frame : list N :=
  lit "{" ++ quoted "serverContent" ++ lit ":{" ++ quoted "modelTurn"
  ++ lit ":{" ++ quoted "parts" ++ lit ":[{" ++ quoted "text" ++ lit ":"
  ++ [QUOTE; QUOTE] ++ lit "}]}}}".

Definition frame_of (fragment : list N) : json :=
  JObj
    [(lit "serverContent",
      JObj
        [(lit "modelTurn",
          JObj [(lit "parts", JArr [JObj [(lit "text", JStr fragment)]])])])].

(** Callback 5 invokes the capability of status subscriber 6 whenever it
    is called; no other callback does anything. *)
Definition remover : nat -> Payload -> list Cmd :=
  fun h _ => if decide (h = 5) then [CUnsubscribe StatusSignal 6] else [].

(** A service with the status subscribers 5 and 6, in this order. *)
Definition two_subscribers : World :=
  run remover (new_GeminiLiveService demo_config)
    [OnStatusChange 5; OnStatusChange 6].

(** The module before the first call of the accessor. *)
Definition fresh_module : ModuleState :=
  {| instances := []; serviceInstance := None |}.

Definition other_config : GeminiLiveConfig :=
  {| apiKey := lit "other key";
     model := Given (lit "gemini-2.5-pro");
     systemInstruction := Given (lit "Describe the picture.") |}.

(** A connected service that has sent one video frame. *)
Definition streaming_history : list Event :=
  demo_history ++ [SendVideoFrame (lit "AAAA") None].

(** The setup message of a service made without a model and an
    instruction of its own. *)
Definition default_setup : Outbound :=
  SetupMessage (Given (lit "gemini-2.0-flash-exp"))
    (Given DEVICE_INSPECTION_PROMPT).

(** A setup acknowledgement that also carries server content. *)
Definition acknowledgement_frame : list N :=
  lit "{" ++ quoted "setupComplete" ++ lit ":{}," ++ quoted "serverContent"
  ++ lit ":{" ++ quoted "turnComplete" ++ lit ":true}}".

(** A frame that only signals the end of the turn. *)
Definition turn_end_frame : list N :=
  lit "{" ++ quoted "serverContent" ++ lit ":{" ++ quoted "turnComplete"
  ++ lit ":true}}".

(** A content frame with the one fragment [text], for a text without a
    character that JSON escapes. *)
Definition fragment_frame (text : string) : list N :=
  lit "{" ++ quoted "serverContent" ++ lit ":{" ++ quoted "modelTurn"
  ++ lit ":{" ++ quoted "parts" ++ lit ":[{" ++ quoted "text" ++ lit ":"
  ++ quoted text ++ lit "}]}}}".



(** A frame that completes the turn, with a [null] between two parts. *)
Definition broken_frame : list N :=
  lit "{" ++ quoted "serverContent" ++ lit ":{" ++ quoted "modelTurn"
  ++ lit ":{" ++ quoted "parts" ++ lit ":[{" ++ quoted "text" ++ lit ":"
  ++ quoted "a" ++ lit "},null,{" ++ quoted "text" ++ lit ":" ++ quoted "b"
  ++ lit "}]}," ++ quoted "turnComplete" ++ lit ":true}}".

Definition broken_content : json :=
  JObj
    [(lit "modelTurn",
      JObj [(lit "parts",
             JArr [JObj [(lit "text", JStr (lit "a"))]; JNull;
                   JObj [(lit "text", JStr (lit "b"))]])]);
     (lit "turnComplete", JBool true)].

(** What the example report holds between its braces. *)
Definition iphone_members : list N :=
  quoted "device_type" ++ lit ":" ++ quoted "iPhone 12"
  ++ lit "," ++ quoted "condition_score" ++ lit ":8"
  ++ lit "," ++ quoted "overall_condition" ++ lit ":" ++ quoted "Good"
  ++ lit "," ++ quoted "defects" ++ lit ":[]"
  ++ lit "," ++ quoted "recommendations" ++ lit ":[]"
  ++ lit "," ++ quoted "timestamp" ++ lit ":" ++ [QUOTE; QUOTE].

(** * Properties *)

(** ** The platform functions on small inputs *)

(** The fence pattern is lazy: the block ends at the first closing fence.
    The language tag and the whitespace after it stay out of the group. *)
Example codeBlock_first_fence :
  group1 <$> js_match codeBlock_re (lit "a ```json  {x} ``` {y} ``` b")
  = Some (Some (lit "{x} ")).
Proof. vm_compute. reflexivity. Qed.

(** An opening fence with no closing fence after it is no block. *)
Example codeBlock_unclosed : js_match codeBlock_re (lit "```json {x}") = None.
Proof. vm_compute. reflexivity. Qed.

(** The object pattern is greedy: from the first opening brace to the last
    closing brace. *)
Example jsonObject_greedy :
  matched <$> js_match jsonObject_re (lit "see {a} and {b} here } ok")
  = Some (lit "{a} and {b} here }").
Proof. vm_compute. reflexivity. Qed.

Example jsonObject_needs_both :
  js_match jsonObject_re (lit "} before {") = None.
Proof. vm_compute. reflexivity. Qed.

Example trim_both_ends : trim (lit "  a b  ") = lit "a b".
Proof. vm_compute. reflexivity. Qed.

Example parse_nested :
  JSON_parse (lit "{" ++ quoted "a" ++ lit ": [1, -2.50e3, true, null, {}]}")
  = Some (JObj [(lit "a",
                 JArr [JNum (Number false 1 0); JNum (Number true 250 1);
                       JBool true; JNull; JObj []])]).
Proof. vm_compute. reflexivity. Qed.

(** A repeated key keeps its first place and takes its last value. *)
Example parse_repeated_key :
  JSON_parse (lit "{" ++ quoted "a" ++ lit ":1," ++ quoted "b" ++ lit ":2,"
              ++ quoted "a" ++ lit ":3}")
  = Some (JObj [(lit "a", JNum (Number false 3 0));
                (lit "b", JNum (Number false 2 0))]).
Proof. vm_compute. reflexivity. Qed.

Example parse_rejects :
  JSON_parse (lit "[1,]") = None /\ JSON_parse (lit "01") = None /\
  JSON_parse (lit "{a:1}") = None /\ JSON_parse (lit "{} x") = None.
Proof. vm_compute. repeat split. Qed.

Example toISOString_format :
  toISOString demo_date = lit "2025-01-31T09:05:07.042Z".
Proof. vm_compute. reflexivity. Qed.

(** ** The fan-out *)

Section FanOut.
Variable callback : nat -> Payload -> list Cmd.

Lemma run_cmd_frame w c :
  frame (run_cmd w c) = frame w /\ delivered (run_cmd w c) = delivered w.
Proof. destruct c as [[] h|[] h]; done. Qed.

Lemma run_cmds_frame cs w :
  frame (foldl run_cmd w cs) = frame w /\
  delivered (foldl run_cmd w cs) = delivered w.
Proof.
  revert w; induction cs as [|c cs IH]; intros w; simpl; [done|].
  destruct (IH (run_cmd w c)) as [-> ->]. apply run_cmd_frame.
Qed.

Lemma visit_frame a p w i : frame (visit callback a p w i) = frame w.
Proof.
  unfold visit. destruct (_ ≫= _) as [h|]; [|done].
  by destruct (run_cmds_frame (callback h p) (call h p w)) as [-> _].
Qed.

Lemma forEach_frame k p w : frame (forEach callback k p w) = frame w.
Proof.
  unfold forEach. generalize (seq 0 (length (handlers k w))).
  generalize (handlers_ref k (this w)). intros a l.
  revert w; induction l as [|i l IH]; intros w; simpl; [done|].
  by rewrite IH, visit_frame.
Qed.

(** A callback cannot change what the array under iteration starts
    with: [push] appends and [filter] builds another array. *)
Lemma run_cmd_starts_with a snap w c :
  starts_with a snap w -> starts_with a snap (run_cmd w c).
Proof.
  intros [later Ha]. destruct c as [k h|k h]; simpl.
  - unfold subscribe, starts_with; simpl.
    destruct (decide (handlers_ref k (this w) = a)) as [->|Hne].
    + exists (later ++ [h]).
      rewrite list_lookup_alter, decide_True, Ha by done.
      by rewrite (assoc_L (++)).
    + exists later. by rewrite list_lookup_alter_ne.
  - unfold unsubscribe, starts_with; simpl.
    exists later. by rewrite (lookup_app_l_Some _ _ _ _ Ha).
Qed.

Lemma run_cmds_starts_with a snap cs w :
  starts_with a snap w -> starts_with a snap (foldl run_cmd w cs).
Proof.
  revert w; induction cs as [|c cs IH]; intros w H; simpl; [done|].
  by apply IH, run_cmd_starts_with.
Qed.

Lemma visit_snapshot a p snap w i h :
  starts_with a snap w -> snap !! i = Some h ->
  starts_with a snap (visit callback a p w i) /\
  delivered (visit callback a p w i) = delivered w ++ [(h, p)].
Proof.
  intros Hs Hi. pose proof Hs as [later Ha]. unfold visit.
  rewrite Ha; simpl. rewrite (lookup_app_l_Some _ _ _ _ Hi). split.
  - apply run_cmds_starts_with. by exists later.
  - by destruct (run_cmds_frame (callback h p) (call h p w)) as [_ ->].
Qed.

Lemma pass_snapshot a p snap n : forall i w,
  starts_with a snap w -> i + n = length snap ->
  delivered (foldl (visit callback a p) w (seq i n))
  = delivered w ++ map (fun h => (h, p)) (drop i snap).
Proof.
  induction n as [|n IH]; intros i w Hs Hlen; simpl.
  - rewrite drop_ge by lia. by rewrite app_nil_r.
  - destruct (lookup_lt_is_Some_2 snap i) as [h Hi]; [lia|].
    destruct (visit_snapshot a p snap w i h Hs Hi) as [Hs' Hd].
    rewrite (IH (S i) _ Hs') by lia. rewrite Hd, <- (assoc_L (++)).
    f_equal. by rewrite (drop_S _ _ _ Hi).
Qed.

(** A pass calls exactly the callbacks that the array held when the
    pass began, in the order of the array, whatever they do. *)
Lemma forEach_delivered k p w :
  delivered (forEach callback k p w)
  = delivered w ++ map (fun h => (h, p)) (handlers k w).
Proof.
  unfold forEach, handlers.
  destruct (arrays w !! handlers_ref k (this w)) as [snap|] eqn:Ha; simpl.
  - rewrite (pass_snapshot _ p snap (length snap) 0 w); [done| |done].
    exists []. by rewrite app_nil_r.
  - by rewrite app_nil_r.
Qed.
End FanOut.

Section Frames.
Variable callback : nat -> Payload -> list Cmd.

Lemma frame_fields w w' :
  frame w = frame w' ->
  ws (this w) = ws (this w') /\ config (this w) = config (this w') /\
  reconnectAttempts (this w) = reconnectAttempts (this w') /\
  currentStatus (this w) = currentStatus (this w') /\
  accumulatedResponse (this w) = accumulatedResponse (this w') /\
  sockets w = sockets w' /\ timers w = timers w' /\
  outbox w = outbox w' /\ console w = console w'.
Proof. unfold frame. intros [= -> -> -> -> -> -> -> -> ->]. done. Qed.

Lemma forEach_ws k p w : ws (this (forEach callback k p w)) = ws (this w).
Proof. by destruct (frame_fields _ _ (forEach_frame callback k p w)) as (?&?&?&?&?&?&?&?&?). Qed.

Lemma forEach_config k p w : config (this (forEach callback k p w)) = config (this w).
Proof. by destruct (frame_fields _ _ (forEach_frame callback k p w)) as (?&?&?&?&?&?&?&?&?). Qed.

Lemma forEach_reconnectAttempts k p w : reconnectAttempts (this (forEach callback k p w)) = reconnectAttempts (this w).
Proof. by destruct (frame_fields _ _ (forEach_frame callback k p w)) as (?&?&?&?&?&?&?&?&?). Qed.

Lemma forEach_currentStatus k p w : currentStatus (this (forEach callback k p w)) = currentStatus (this w).
Proof. by destruct (frame_fields _ _ (forEach_frame callback k p w)) as (?&?&?&?&?&?&?&?&?). Qed.

Lemma forEach_accumulatedResponse k p w : accumulatedResponse (this (forEach callback k p w)) = accumulatedResponse (this w).
Proof. by destruct (frame_fields _ _ (forEach_frame callback k p w)) as (?&?&?&?&?&?&?&?&?). Qed.

Lemma forEach_sockets k p w : sockets (forEach callback k p w) = sockets w.
Proof. by destruct (frame_fields _ _ (forEach_frame callback k p w)) as (?&?&?&?&?&?&?&?&?). Qed.

Lemma forEach_timers k p w : timers (forEach callback k p w) = timers w.
Proof. by destruct (frame_fields _ _ (forEach_frame callback k p w)) as (?&?&?&?&?&?&?&?&?). Qed.

Lemma forEach_outbox k p w : outbox (forEach callback k p w) = outbox w.
Proof. by destruct (frame_fields _ _ (forEach_frame callback k p w)) as (?&?&?&?&?&?&?&?&?). Qed.

Lemma forEach_console k p w : console (forEach callback k p w) = console w.
Proof. by destruct (frame_fields _ _ (forEach_frame callback k p w)) as (?&?&?&?&?&?&?&?&?). Qed.

Lemma forEach_ws_open k p w : ws_open (forEach callback k p w) = ws_open w.
Proof. unfold ws_open. by rewrite forEach_ws, forEach_sockets. Qed.
End Frames.

Create Rewrite HintDb fanout.

#[local] Hint Rewrite forEach_ws forEach_config forEach_reconnectAttempts
  forEach_currentStatus forEach_accumulatedResponse forEach_sockets
  forEach_timers forEach_outbox forEach_console forEach_ws_open
  forEach_delivered : fanout.

(** ** The footprint of an event *)

Section Footprint.
Variable callback : nat -> Payload -> list Cmd.
Implicit Types (P : Op -> Prop) (w : World).

Lemma made_of_refl P w : made_of callback P w w.
Proof. by exists []. Qed.

Lemma made_of_op P w w' o :
  made_of callback P w w' -> P o ->
  made_of callback P w (apply_op callback w' o).
Proof.
  intros (ops & HP & ->) Ho. exists (ops ++ [o]). split.
  - apply Forall_app; auto.
  - by rewrite foldl_app.
Qed.

Lemma made_of_bind P w c f :
  made_of_c callback P w c ->
  (forall w', made_of callback P w w' -> made_of_c callback P w (f w')) ->
  made_of_c callback P w (bind c f).
Proof. destruct c; simpl; auto. Qed.

Lemma made_of_try_catch P w c level line :
  made_of_c callback P w c -> P (OpConsole level line) ->
  made_of callback P w (try_catch c (console_out level line)).
Proof.
  destruct c as [w'|e w']; simpl; [done|]. intros H HP.
  by apply (made_of_op P w w' (OpConsole level line)).
Qed.

Ltac footprint_step :=
  match goal with
  | |- made_of _ _ ?w ?w => apply made_of_refl
  | H : made_of _ _ ?w ?x |- made_of _ _ ?w ?x => exact H
  | |- made_of _ _ _ (console_out ?l ?s ?x) =>
      apply (made_of_op _ _ x (OpConsole l s))
  | |- made_of _ _ _ (with_this (set_ws ?v) ?x) =>
      apply (made_of_op _ _ x (OpWs v))
  | |- made_of _ _ _ (with_this (set_reconnectAttempts ?v) ?x) =>
      apply (made_of_op _ _ x (OpAttempts v))
  | |- made_of _ _ _ (with_this (set_currentStatus ?v) ?x) =>
      apply (made_of_op _ _ x (OpStatus v))
  | |- made_of _ _ _ (with_this (set_accumulatedResponse ?v) ?x) =>
      apply (made_of_op _ _ x (OpBuffer v))
  | |- made_of _ _ _ (with_sockets ?f ?x) =>
      apply (made_of_op _ _ x (OpSockets f))
  | |- made_of _ _ _ (setTimeout ?ms ?x) =>
      apply (made_of_op _ _ x (OpTimer ms))
  | |- made_of _ _ _ (send ?k ?fr ?x) =>
      apply (made_of_op _ _ x (OpSend k fr))
  | |- made_of _ _ _ (forEach _ ?k ?p ?x) =>
      apply (made_of_op _ _ x (OpForEach k p))
  | |- made_of _ _ _ (subscribe ?k ?h ?x) =>
      apply (made_of_op _ _ x (OpSubscribe k h))
  | |- made_of _ _ _ (unsubscribe ?k ?h ?x) =>
      apply (made_of_op _ _ x (OpUnsubscribe k h))
  | |- made_of _ _ _ (match ?c with _ => _ end) => destruct c eqn:?
  | |- made_of_c _ _ _ (match ?c with _ => _ end) => destruct c eqn:?
  | |- made_of_c _ _ _ (Normal _) => simpl
  | |- made_of_c _ _ _ (Throw _ _) => simpl
  end.

Ltac footprint := repeat (first [footprint_step | done | split]); simpl; auto.

Lemma parseDefectReport_made_of socket data now now' text w0 w :
  made_of callback (permitted (SocketMessage socket data now)) w0 w ->
  made_of callback (permitted (SocketMessage socket data now)) w0
    (parseDefectReport callback now' text w).
Proof.
  intros H. unfold parseDefectReport, parseDefectReport_try.
  apply made_of_try_catch; [|done]. footprint.
Qed.

Lemma for_parts_made_of socket data now parts : forall w0 w,
  made_of callback (permitted (SocketMessage socket data now)) w0 w ->
  made_of_c callback (permitted (SocketMessage socket data now)) w0
    (for_parts callback parts w).
Proof.
  induction parts as [|part rest IH]; intros w0 w H; simpl; [done|].
  destruct part; try done;
    (destruct (truthy _); [|by apply IH]);
    (destruct (prop _ _) as [[]|]; try done); apply IH; footprint.
Qed.

Lemma handle_serverContent_made_of socket data now now' sc w0 w :
  made_of callback (permitted (SocketMessage socket data now)) w0 w ->
  made_of_c callback (permitted (SocketMessage socket data now)) w0
    (handle_serverContent callback now' sc w).
Proof.
  intros H. unfold handle_serverContent. apply made_of_bind.
  - unfold handle_modelTurn. destruct (truthy _); [|done].
    destruct (match prop sc "modelTurn" with
              | Some JNull | None => None
              | Some turn => prop turn "parts"
              end) as [[]|]; try done.
    by apply for_parts_made_of.
  - intros w' Hw'. destruct (truthy _); [|done]. simpl.
    footprint. apply parseDefectReport_made_of. footprint.
Qed.

Lemma handleMessage_made_of socket data now now' data' w :
  made_of callback (permitted (SocketMessage socket data now)) w
    (handleMessage callback now' data' w).
Proof.
  unfold handleMessage, handleMessage_try.
  apply made_of_try_catch; [|done].
  destruct (JSON_parse data') as [message|]; [|apply made_of_refl].
  assert (made_of_c callback (permitted (SocketMessage socket data now)) w
    (if truthy (prop message "setupComplete")
     then Normal (console_out LOG "Gemini Live API setup complete"
                    (console_out LOG "Received message:" w))
     else
       bind
         match prop message "serverContent" with
         | Some serverContent =>
             if truthy (Some serverContent)
             then handle_serverContent callback now' serverContent
                    (console_out LOG "Received message:" w)
             else Normal (console_out LOG "Received message:" w)
         | None => Normal (console_out LOG "Received message:" w)
         end
         (fun w =>
            let w :=
              if truthy (prop message "toolCall")
              then console_out LOG "Tool call received:" w else w in
            match prop message "error" with
            | Some err =>
                if truthy (Some err) then
                  Normal
                    (forEach callback MessageSignal (PApiError err)
                       (console_out ERROR "API Error:" w))
                else Normal w
            | None => Normal w
            end))) as Hbody.
  { destruct (truthy (prop message "setupComplete")); [footprint|].
    apply made_of_bind.
    - destruct (prop message "serverContent") as [sc|]; [|footprint].
      destruct (truthy (Some sc)); [|footprint].
      apply handle_serverContent_made_of. footprint.
    - intros w' Hw'. cbv zeta.
      destruct (truthy (prop message "toolCall"));
        (destruct (prop message "error") as [err|];
         [destruct (truthy (Some err))|]); footprint. }
  destruct message; exact Hbody.
Qed.

(** Every event runs statements that the table permits for it. *)
Lemma step_made_of w e :
  made_of callback (permitted e) w (step callback w e).
Proof.
  destruct e; simpl;
    try (unfold connect, disconnect, sendVideoFrame, sendImageWithPrompt,
           sendTextPrompt, onopen, onerror, onclose, sendSetupMessage,
           setStatus, close, onMessage, onStatusChange, onDefectReport;
         cbv zeta; footprint).
  apply handleMessage_made_of.
Qed.
End Footprint.

(** ** The registries *)

Section Registries.
Variable callback : nat -> Payload -> list Cmd.

Lemma made_of_invariant (P : Op -> Prop) (Q : World -> Prop) w w' :
  (forall w o, P o -> Q w -> Q (apply_op callback w o)) ->
  made_of callback P w w' -> Q w -> Q w'.
Proof.
  intros Hstep (ops & HP & ->). revert w.
  induction HP as [|o ops Ho _ IH]; intros w Hw; simpl; [done|].
  apply IH, Hstep; auto.
Qed.

Lemma run_cmds_invariant (Q : World -> Prop) (allowed : Cmd -> Prop) :
  (forall w c, allowed c -> Q w -> Q (run_cmd w c)) ->
  forall cs w, Forall allowed cs -> Q w -> Q (foldl run_cmd w cs).
Proof.
  intros Hcmd cs. induction cs as [|c cs IH]; intros w Hcs Hw; simpl; [done|].
  apply Forall_cons in Hcs as [Hc Hcs]. apply IH; auto.
Qed.

Lemma visit_invariant (Q : World -> Prop) :
  (forall w h p, Q w -> Q (call h p w)) ->
  (forall w h p c, c ∈ callback h p -> Q w -> Q (run_cmd w c)) ->
  forall a p w i, Q w -> Q (visit callback a p w i).
Proof.
  intros Hcall Hcmd a p w i Hw. unfold visit.
  destruct (_ ≫= _) as [h|]; [|done].
  apply (run_cmds_invariant Q (fun c => c ∈ callback h p)).
  - intros w' c. apply Hcmd.
  - by apply Forall_forall.
  - by apply Hcall.
Qed.

Lemma pass_invariant (Q : World -> Prop) :
  (forall w h p, Q w -> Q (call h p w)) ->
  (forall w h p c, c ∈ callback h p -> Q w -> Q (run_cmd w c)) ->
  forall a p l w, Q w -> Q (foldl (visit callback a p) w l).
Proof.
  intros Hcall Hcmd a p l.
  induction l as [|i l IH]; intros w Hw; simpl; [done|].
  by apply IH, visit_invariant.
Qed.

Lemma forEach_invariant (Q : World -> Prop) :
  (forall w h p, Q w -> Q (call h p w)) ->
  (forall w h p c, c ∈ callback h p -> Q w -> Q (run_cmd w c)) ->
  forall k p w, Q w -> Q (forEach callback k p w).
Proof. intros Hcall Hcmd k p w. by apply pass_invariant. Qed.

Lemma handlers_ref_set k' k r s :
  handlers_ref k' (set_handlers_ref k r s)
  = if decide (k' = k) then r else handlers_ref k' s.
Proof. by destruct k, k'. Qed.

Lemma handlers_subscribe k k' h w :
  well_formed w ->
  handlers k (subscribe k' h w)
  = if decide (k = k') then handlers k w ++ [h] else handlers k w.
Proof.
  intros [Hin Hdiff]. unfold handlers, subscribe; simpl.
  destruct (decide (k = k')) as [->|Hne].
  - rewrite list_lookup_alter, decide_True by done.
    destruct (lookup_lt_is_Some_2 (arrays w) _ (Hin k')) as [a ->]. done.
  - rewrite list_lookup_alter_ne; [done|]. intros E. by apply Hdiff in E.
Qed.

Lemma handlers_unsubscribe_same k h w :
  handlers k (unsubscribe k h w) = filter (fun h' => h' <> h) (handlers k w).
Proof.
  unfold handlers at 1, unsubscribe; simpl.
  rewrite handlers_ref_set, decide_True by done.
  by rewrite lookup_app_r, Nat.sub_diag by done.
Qed.

Lemma handlers_unsubscribe k k' h w :
  well_formed w ->
  handlers k (unsubscribe k' h w)
  = if decide (k = k')
    then filter (fun h' => h' <> h) (handlers k w) else handlers k w.
Proof.
  intros [Hin Hdiff]. destruct (decide (k = k')) as [->|Hne].
  - apply handlers_unsubscribe_same.
  - unfold handlers, unsubscribe; simpl.
    rewrite handlers_ref_set, decide_False by done.
    by rewrite lookup_app_l by apply Hin.
Qed.

Lemma well_formed_run_cmd w c : well_formed w -> well_formed (run_cmd w c).
Proof.
  intros [Hin Hdiff]. destruct c as [k h|k h]; simpl.
  - split; simpl; [|done]. intros k'. rewrite length_alter. apply Hin.
  - split; simpl.
    + intros k'. rewrite length_app, handlers_ref_set. simpl.
      case_decide; [lia|]. specialize (Hin k'). lia.
    + intros k1 k2. rewrite !handlers_ref_set.
      repeat case_decide; subst; try done.
      * intros E. specialize (Hin k2). lia.
      * intros E. specialize (Hin k1). lia.
      * apply Hdiff.
Qed.

Lemma well_formed_forEach k p w :
  well_formed w -> well_formed (forEach callback k p w).
Proof.
  apply (forEach_invariant well_formed); [done|].
  intros; by apply well_formed_run_cmd.
Qed.

Lemma well_formed_apply_op w o :
  well_formed w -> well_formed (apply_op callback w o).
Proof.
  destruct o; simpl; try done.
  - apply well_formed_forEach.
  - apply (well_formed_run_cmd w (CSubscribe k h)).
  - apply (well_formed_run_cmd w (CUnsubscribe k h)).
Qed.

Lemma well_formed_step w e : well_formed w -> well_formed (step callback w e).
Proof.
  apply (made_of_invariant (permitted e)); [|apply step_made_of].
  intros; by apply well_formed_apply_op.
Qed.

Lemma well_formed_run events : forall w,
  well_formed w -> well_formed (run callback w events).
Proof.
  unfold run. induction events as [|e events IH]; intros w Hw; simpl; [done|].
  by apply IH, well_formed_step.
Qed.

Lemma well_formed_new config : well_formed (new_GeminiLiveService config).
Proof.
  split.
  - intros []; simpl; lia.
  - intros [] []; simpl; done.
Qed.

Lemma filter_none {A} (P : A -> Prop) `{forall x, Decision (P x)} (l : list A) :
  Forall (fun x => ~ P x) l -> filter P l = [].
Proof.
  induction 1 as [|x l Hx _ IH]; [done|].
  by rewrite filter_cons, decide_False.
Qed.

Lemma absent_run_cmd k h calls w c :
  c <> CSubscribe k h -> absent k h calls w -> absent k h calls (run_cmd w c).
Proof.
  intros Hc (Hwf & Hnotin & Hrecv). split; [by apply well_formed_run_cmd|].
  split; [|by destruct c as [[] ?|[] ?]].
  destruct c as [k' h'|k' h']; simpl.
  - rewrite handlers_subscribe by done. case_decide; [|done]. subst k'.
    rewrite not_elem_of_app, list_elem_of_singleton. split; [done|].
    intros ->. done.
  - rewrite handlers_unsubscribe by done. case_decide; [|done].
    rewrite list_elem_of_filter. tauto.
Qed.

Lemma absent_forEach k h calls k' p w :
  ~ resubscribed callback k h -> signal_of p = k' ->
  absent k h calls w -> absent k h calls (forEach callback k' p w).
Proof.
  intros Hre Hp Habs.
  assert (well_formed (forEach callback k' p w) /\
          (h ∉ handlers k (forEach callback k' p w))) as [Hwf Hnotin].
  { apply (forEach_invariant (fun w => well_formed w /\ (h ∉ handlers k w))).
    - done.
    - intros w' h' p' c Hc [Hw1 Hw2].
      destruct (absent_run_cmd k h (received k h w') w' c) as (?&?&?);
        [|done|done].
      intros ->. apply Hre. by exists h', p'.
    - destruct Habs as (?&?&?). done. }
  split; [done|]. split; [done|].
  destruct Habs as (_ & Hout & <-). unfold received.
  rewrite forEach_delivered, filter_app.
  rewrite (filter_none _ (map _ _)), app_nil_r; [done|].
  apply Forall_forall. intros [h' p'] Hin [E1 E2]; simpl in *.
  apply list_elem_of_fmap in Hin as (h'' & [= -> ->] & Hin).
  congruence.
Qed.

(** Callback [h] is out of the array of kind [k]. *)
Lemma out_run_cmd k h w c :
  c <> CSubscribe k h ->
  well_formed w /\ (h ∉ handlers k w) ->
  well_formed (run_cmd w c) /\ (h ∉ handlers k (run_cmd w c)).
Proof.
  intros Hc [Hwf Hout].
  by destruct (absent_run_cmd k h (received k h w) w c) as (?&?&?).
Qed.

Lemma run_cmds_unsubscribe k h cs : forall w,
  well_formed w -> CUnsubscribe k h ∈ cs ->
  Forall (fun c => c <> CSubscribe k h) cs ->
  well_formed (foldl run_cmd w cs) /\ (h ∉ handlers k (foldl run_cmd w cs)).
Proof.
  induction cs as [|c cs IH]; intros w Hwf Hin Hcs; [by inversion Hin|].
  apply Forall_cons in Hcs as [Hc Hcs]. simpl.
  apply elem_of_cons in Hin as [<-|Hin].
  - apply (run_cmds_invariant
             (fun w => well_formed w /\ (h ∉ handlers k w))
             (fun c => c <> CSubscribe k h)); [|done|].
    + intros; by apply out_run_cmd.
    + split; [by apply well_formed_run_cmd|]. simpl.
      rewrite handlers_unsubscribe_same, list_elem_of_filter. tauto.
  - apply IH; [by apply well_formed_run_cmd|done|done].
Qed.

(** A capability invoked by a callback during a pass has taken effect
    when the pass ends. *)
Lemma pass_unsubscribed k h a p snap j h1 n : forall i w,
  ~ resubscribed callback k h ->
  snap !! j = Some h1 -> CUnsubscribe k h ∈ callback h1 p ->
  well_formed w -> starts_with a snap w ->
  i <= j -> i + n = length snap ->
  h ∉ handlers k (foldl (visit callback a p) w (seq i n)).
Proof.
  intros i w Hre Hj Hun. revert i w.
  assert (forall h' p', Forall (fun c => c <> CSubscribe k h) (callback h' p'))
    as Hcs.
  { intros h' p'. apply Forall_forall. intros c Hc ->.
    apply Hre. by exists h', p'. }
  induction n as [|n IH]; intros i w Hwf Hs Hij Hlen.
  { apply lookup_lt_Some in Hj. lia. }
  simpl. destruct (lookup_lt_is_Some_2 snap i) as [hi Hi]; [lia|].
  destruct (visit_snapshot callback a p snap w i hi Hs Hi) as [Hs' _].
  destruct (decide (i = j)) as [->|Hne].
  - assert (hi = h1) as -> by congruence.
    apply (pass_invariant (fun w => well_formed w /\ (h ∉ handlers k w))).
    + done.
    + intros w' h' p' c Hc. apply out_run_cmd. intros ->.
      apply Hre. by exists h', p'.
    + unfold visit. destruct Hs as [later Ha]. rewrite Ha; simpl.
      rewrite (lookup_app_l_Some _ _ _ _ Hi).
      by apply run_cmds_unsubscribe.
  - apply IH; [|done|lia|lia].
    by apply (visit_invariant well_formed);
      [|intros; apply well_formed_run_cmd|].
Qed.

Lemma forEach_unsubscribed k h p h1 w :
  ~ resubscribed callback k h -> well_formed w ->
  h1 ∈ handlers k w -> CUnsubscribe k h ∈ callback h1 p ->
  h ∉ handlers k (forEach callback k p w).
Proof.
  intros Hre Hwf Hin Hun. apply list_elem_of_lookup in Hin as [j Hj].
  unfold forEach. unfold handlers in Hj |- * at 2.
  destruct (arrays w !! handlers_ref k (this w)) as [snap|] eqn:Ha;
    [|done].
  simpl in *. apply (pass_unsubscribed k h _ p snap j h1); try done; try lia.
  exists []. by rewrite app_nil_r.
Qed.

Lemma absent_apply_op k h calls e w o :
  ~ resubscribed callback k h -> ~ registers k h e -> permitted e o ->
  absent k h calls w -> absent k h calls (apply_op callback w o).
Proof.
  intros Hre He Hperm Habs. destruct o; simpl; try done.
  - destruct Hperm as [Hp _]. by apply absent_forEach.
  - apply (absent_run_cmd k h calls w (CSubscribe k0 h0)); [|done].
    intros [= -> ->]. destruct e; simpl in *; intuition congruence.
  - by apply (absent_run_cmd k h calls w (CUnsubscribe k0 h0)).
Qed.

Lemma absent_run k h calls events : forall w,
  ~ resubscribed callback k h -> Forall (fun e => ~ registers k h e) events ->
  absent k h calls w -> absent k h calls (run callback w events).
Proof.
  unfold run. induction events as [|e events IH]; intros w Hre Hev Habs;
    simpl; [done|].
  apply Forall_cons in Hev as [He Hev]. apply IH; [done|done|].
  apply (made_of_invariant (permitted e) (absent k h calls) w);
    [|apply step_made_of|done].
  intros; by apply (absent_apply_op k h calls e).
Qed.
End Registries.

(** ** What the two patterns match *)

Section Patterns.
Context {A : Type}.

Lemma strip_prefix_Some (l s s' : list N) :
  strip_prefix l s = Some s' -> s = l ++ s'.
Proof.
  revert s; induction l as [|a l IH]; intros [|b s]; simpl; try done.
  - by intros [= ->].
  - by intros [= ->].
  - destruct (N.eqb_spec a b) as [->|]; [|done].
    intros H. by rewrite (IH _ H).
Qed.

Lemma star_greedy_Some p (k : list N -> option A) s a :
  star_greedy p k s = Some a -> exists u s1, s = u ++ s1 /\ k s1 = Some a.
Proof.
  induction s as [|c s IH]; simpl.
  - intros H. by exists [], [].
  - destruct (p c); [|intros H; by exists [], (c :: s)].
    destruct (star_greedy p k s) as [a'|] eqn:E; simpl.
    + intros [= ->]. destruct (IH eq_refl) as (u & s1 & -> & Hk).
      by exists (c :: u), s1.
    + intros H. by exists [], (c :: s).
Qed.

Lemma star_lazy_Some p (k : list N -> option A) s a :
  star_lazy p k s = Some a -> exists u s1, s = u ++ s1 /\ k s1 = Some a.
Proof.
  induction s as [|c s IH]; simpl.
  - destruct (k []) eqn:E; simpl; [|done]. intros [= ->]. by exists [], [].
  - destruct (k (c :: s)) eqn:E; simpl.
    + intros [= ->]. by exists [], (c :: s).
    + destruct (p c); [|done]. intros H.
      destruct (IH H) as (u & s1 & -> & Hk). by exists (c :: u), s1.
Qed.
End Patterns.

Lemma js_match_Some r s m :
  js_match r s = Some m -> exists pre s', s = pre ++ s' /\ match_at r s' = Some m.
Proof.
  induction s as [|c s IH]; simpl.
  - destruct (match_at r []) eqn:E; simpl; [|done].
    intros [= ->]. by exists [], [].
  - destruct (match_at r (c :: s)) eqn:E; simpl.
    + intros [= ->]. by exists [], (c :: s).
    + intros H. destruct (IH H) as (pre & s' & -> & Hm).
      by exists (c :: pre), s'.
Qed.

Lemma take_consumed (u rest : list N) :
  take (length (u ++ rest) - length rest) (u ++ rest) = u.
Proof.
  rewrite length_app, Nat.add_sub. by rewrite take_app_length.
Qed.

(** A match of the object pattern runs from an opening brace to a
    closing brace of the subject. *)
Lemma jsonObject_match s m :
  js_match jsonObject_re s = Some m ->
  exists pre mid post,
    s = pre ++ LBRACE :: mid ++ RBRACE :: post /\
    matched m = LBRACE :: mid ++ [RBRACE].
Proof.
  intros H. apply js_match_Some in H as (pre & s' & -> & H).
  unfold match_at, jsonObject_re in H. cbn [exec] in H.
  destruct (strip_prefix [LBRACE] s') as [s1|] eqn:E1; [|done].
  apply strip_prefix_Some in E1 as ->.
  apply star_greedy_Some in H as (mid & s2 & -> & H).
  destruct (strip_prefix [RBRACE] s2) as [post|] eqn:E2; [|done].
  apply strip_prefix_Some in E2 as ->. injection H as <-.
  exists pre, mid, post. split; [done|]. simpl.
  etrans; [|apply (take_consumed (LBRACE :: mid ++ [RBRACE]) post)].
  simpl. by rewrite <- (assoc_L (++)).
Qed.

(** Where the group of a pattern ends up: a piece of what the pattern
    consumed. *)
Lemma exec_sound {A} r : forall s cap (k : list N -> option (list N) -> option A) a,
  exec r s cap k = Some a ->
  exists u s1 cap1,
    s = u ++ s1 /\ k s1 cap1 = Some a /\
    (cap1 = cap \/ exists g a' b', cap1 = Some g /\ u = a' ++ g ++ b') /\
    (captures r = true -> exists g a' b', cap1 = Some g /\ u = a' ++ g ++ b').
Proof.
  induction r as [l|r1 IH1 r2 IH2|r1 IH1|p|p|r1 IH1]; intros s cap k a H;
    cbn [exec captures] in *.
  - destruct (strip_prefix l s) as [s'|] eqn:E; [|done].
    apply strip_prefix_Some in E as ->. exists l, s', cap.
    split; [done|]. split; [done|]. split; [by left|done].
  - apply IH1 in H as (u1 & s1 & cap1 & -> & H & Hc1 & Hg1).
    apply IH2 in H as (u2 & s2 & cap2 & -> & H & Hc2 & Hg2).
    exists (u1 ++ u2), s2, cap2. rewrite <- (assoc_L (++)).
    assert (forall g a' b', u1 = a' ++ g ++ b' ->
              u1 ++ u2 = a' ++ g ++ (b' ++ u2)) as Hleft.
    { intros g a' b' ->. by rewrite <- !(assoc_L (++)). }
    assert (forall g a' b', u2 = a' ++ g ++ b' ->
              u1 ++ u2 = (u1 ++ a') ++ g ++ b') as Hright.
    { intros g a' b' ->. by rewrite <- !(assoc_L (++)). }
    split; [done|]. split; [done|].
    destruct Hc2 as [->|(g & a' & b' & -> & E)].
    + destruct Hc1 as [->|(g & a' & b' & -> & E)].
      * split; [by left|]. intros Hcap. apply orb_true_iff in Hcap.
        destruct Hcap as [Hcap|Hcap].
        -- destruct (Hg1 Hcap) as (g & a' & b' & Hg & E).
           exists g, a', (b' ++ u2). split; [done|]. by apply Hleft.
        -- destruct (Hg2 Hcap) as (g & a' & b' & Hg & E).
           exists g, (u1 ++ a'), b'. split; [done|]. by apply Hright.
      * assert (exists g0 a0 b0, Some g = Some g0 /\ u1 ++ u2 = a0 ++ g0 ++ b0).
        { exists g, a', (b' ++ u2). split; [done|]. by apply Hleft. }
        split; [by right|done].
    + assert (exists g0 a0 b0, Some g = Some g0 /\ u1 ++ u2 = a0 ++ g0 ++ b0).
      { exists g, (u1 ++ a'), b'. split; [done|]. by apply Hright. }
      split; [by right|done].
  - destruct (exec r1 s cap k) as [a'|] eqn:E; simpl in H.
    + injection H as ->.
      apply IH1 in E as (u & s1 & cap1 & -> & H & Hc & _).
      exists u, s1, cap1. split; [done|]. split; [done|]. split; done.
    + exists [], s, cap. split; [done|]. split; [done|]. split; [by left|done].
  - apply star_greedy_Some in H as (u & s1 & -> & H).
    exists u, s1, cap. split; [done|]. split; [done|]. split; [by left|done].
  - apply star_lazy_Some in H as (u & s1 & -> & H).
    exists u, s1, cap. split; [done|]. split; [done|]. split; [by left|done].
  - apply IH1 in H as (u & s1 & cap1 & -> & H & _).
    rewrite take_consumed in H. exists u, s1, (Some u).
    assert (exists g a' b', Some u = Some g /\ u = a' ++ g ++ b') as Hu.
    { exists u, [], []. by rewrite app_nil_r. }
    split; [done|]. split; [done|]. split; [by right|done].
Qed.

(** A match of the fence pattern always has its group, and the group is
    a piece of the subject. *)
Lemma codeBlock_match s m :
  js_match codeBlock_re s = Some m ->
  exists pre g post, s = pre ++ g ++ post /\ group1 m = Some g.
Proof.
  intros H. apply js_match_Some in H as (pre & s' & -> & H).
  unfold match_at in H.
  apply exec_sound in H as (u & s1 & cap1 & -> & H & _ & Hg).
  injection H as <-. destruct (Hg eq_refl) as (g & a' & b' & -> & ->).
  exists (pre ++ a'), g, (b' ++ s1). split; [|done].
  by rewrite <- !(assoc_L (++)).
Qed.

Lemma trimStart_piece s : exists a, s = a ++ trimStart s.
Proof.
  induction s as [|c s [a IH]]; simpl; [by exists []|].
  destruct (is_space c); [|by exists []].
  exists (c :: a). simpl. by f_equal.
Qed.

Lemma trim_piece s : exists a b, s = a ++ trim s ++ b.
Proof.
  unfold trim, trimEnd. destruct (trimStart_piece s) as [a Ha].
  destruct (trimStart_piece (rev (trimStart s))) as [b Hb].
  exists a, (rev b). rewrite <- rev_app_distr, <- Hb, rev_involutive. done.
Qed.

(** [cleanText] never throws, and what it returns is a piece of the
    text. *)
Lemma cleanText_piece text :
  exists clean pre post,
    cleanText text = Some clean /\ text = pre ++ clean ++ post.
Proof.
  unfold cleanText. destruct (js_match codeBlock_re text) as [m|] eqn:E.
  - apply codeBlock_match in E as (pre & g & post & -> & ->). simpl.
    destruct (trim_piece g) as (a & b & Hg).
    exists (trim g), (pre ++ a), (b ++ post). split; [done|].
    rewrite Hg at 1. by rewrite <- !(assoc_L (++)).
  - exists text, [], []. by rewrite app_nil_r.
Qed.

(** ** The fuel of [JSON_parse] *)

Lemma skip_ws_length s : length (skip_ws s) <= length s.
Proof.
  induction s as [|c s IH]; simpl; [done|].
  destruct (is_json_ws c); simpl; lia.
Qed.

Lemma skip_ws_cons s c r : skip_ws s = c :: r -> length r < length s.
Proof. intros H. pose proof (skip_ws_length s) as L. rewrite H in L. simpl in L. lia. Qed.

Lemma strip_prefix_length l s rest :
  strip_prefix l s = Some rest -> length rest + length l = length s.
Proof.
  intros H. apply strip_prefix_Some in H as ->. rewrite length_app. lia.
Qed.

(** Case analysis on the head of the left-hand side of [H]. *)
Ltac head_case H :=
  match type of H with
  | (if ?b then _ else _) = _ => destruct b eqn:?
  | (match ?x with _ => _ end) = _ => destruct x eqn:?
  end.

Ltac head_cases H := repeat (head_case H; try discriminate H).

Lemma parse_chars_length_bounded n : forall s cs rest,
  length s <= n ->
  parse_chars s = Some (cs, rest) -> length rest < length s.
Proof.
  induction n as [|n IH]; intros s cs rest Hn H;
    (destruct s as [|c r]; [simpl in H; discriminate H|]); simpl in Hn; [lia|].
  cbn [parse_chars] in H. head_cases H; injection H as _ <-; subst;
    try (simpl; lia);
    match goal with
    | E : parse_chars _ = Some _ |- _ => apply IH in E; simpl in *; lia
    end.
Qed.

Lemma parse_chars_length s cs rest :
  parse_chars s = Some (cs, rest) -> length rest < length s.
Proof. by apply (parse_chars_length_bounded (length s)). Qed.

Lemma span_digits_length s ds rest :
  span_digits s = (ds, rest) -> length ds + length rest = length s.
Proof.
  revert ds rest; induction s as [|c s IH]; intros ds rest; simpl.
  - by intros [= <- <-].
  - destruct (is_digit c).
    + destruct (span_digits s) as [ds' rest'] eqn:E. intros [= <- <-].
      specialize (IH _ _ eq_refl). simpl. lia.
    + by intros [= <- <-].
Qed.

Lemma span_digits_first c r ds rest :
  is_digit c = true -> span_digits (c :: r) = (ds, rest) ->
  length rest <= length r.
Proof.
  intros Hc. simpl. rewrite Hc.
  destruct (span_digits r) as [ds' rest'] eqn:E. intros [= <- <-].
  apply span_digits_length in E. lia.
Qed.

(** Case analysis on every hypothesis that still has a match at the head
    of its left-hand side. *)
Ltac all_cases :=
  repeat match goal with
         | H : (match ?x with _ => _ end) = _ |- _ =>
             destruct x eqn:?; try discriminate H
         end.

Ltac inject_all :=
  repeat match goal with
         | H : Some _ = Some _ |- _ => apply (inj Some) in H
         | H : (_, _) = (_, _) |- _ => apply pair_equal_spec in H as [? ?]
         | H : _ :: _ = _ :: _ |- _ => apply (inj2 cons) in H as [? ?]
         end;
  subst.

Lemma parse_number_length s n rest :
  parse_number s = Some (n, rest) -> length rest < length s.
Proof.
  unfold parse_number. intros H. all_cases; inject_all.
  all: repeat match goal with
         | E : span_digits (_ :: _) = _, D : is_digit _ = true |- _ =>
             apply (span_digits_first _ _ _ _ D) in E
         | E : span_digits _ = _ |- _ => apply span_digits_length in E
         end.
  all: simpl in *; lia.
Qed.

(** Record a fact once. *)
Ltac note H :=
  let T := type of H in
  lazymatch goal with
  | _ : T |- _ => fail
  | _ => pose proof H
  end.

Ltac length_facts :=
  repeat match goal with
         | E : skip_ws _ = _ :: _ |- _ => note (skip_ws_cons _ _ _ E)
         | E : parse_chars _ = Some _ |- _ => note (parse_chars_length _ _ _ E)
         | E : parse_number _ = Some _ |- _ => note (parse_number_length _ _ _ E)
         | E : strip_prefix _ _ = Some _ |- _ => note (strip_prefix_length _ _ _ E)
         end.

Ltac refuel f0 :=
  repeat first
    [ match goal with
      | E : ?x = _ |- context [match ?x with _ => _ end] => rewrite E
      end
    | match goal with
      | F : forall f, _ -> parse_value f ?s = _
        |- context [parse_value f0 ?s] => rewrite (F f0) by (simpl in *; lia)
      | F : forall f, _ -> parse_elements f ?s = _
        |- context [parse_elements f0 ?s] => rewrite (F f0) by (simpl in *; lia)
      | F : forall f, _ -> parse_members f ?s = _
        |- context [parse_members f0 ?s] => rewrite (F f0) by (simpl in *; lia)
      end ].

(** A successful parse leaves less than it was given, and succeeds the
    same with any fuel above twice the length of the text. *)
Lemma parse_fuel f' :
  (forall s v rest,
     parse_value f' s = Some (v, rest) ->
     length rest < length s /\
     forall f, 2 * length s + 2 <= f -> parse_value f s = Some (v, rest))
  /\
  (forall s vs rest,
     parse_elements f' s = Some (vs, rest) ->
     length rest < length s /\
     forall f, 2 * length s + 3 <= f -> parse_elements f s = Some (vs, rest))
  /\
  (forall s ps rest,
     parse_members f' s = Some (ps, rest) ->
     length rest < length s /\
     forall f, 2 * length s + 3 <= f -> parse_members f s = Some (ps, rest)).
Proof.
  induction f' as [|f' (IHv & IHe & IHm)]; [done|].
  assert (forall s v rest, parse_value f' s = Some (v, rest) ->
            length rest < length s) as Lv by (intros; by eapply IHv).
  assert (forall s v rest, parse_elements f' s = Some (v, rest) ->
            length rest < length s) as Le by (intros; by eapply IHe).
  assert (forall s v rest, parse_members f' s = Some (v, rest) ->
            length rest < length s) as Lm by (intros; by eapply IHm).
  split; [|split]; intros s v rest H;
    cbn [parse_value parse_elements parse_members] in H;
    all_cases; inject_all; length_facts;
    repeat match goal with
           | E : parse_value f' _ = Some _ |- _ =>
               note (Lv _ _ _ E); apply IHv in E as [_ E]
           | E : parse_elements f' _ = Some _ |- _ =>
               note (Le _ _ _ E); apply IHe in E as [_ E]
           | E : parse_members f' _ = Some _ |- _ =>
               note (Lm _ _ _ E); apply IHm in E as [_ E]
           end;
    (split; [simpl in *; lia|]);
    intros f Hf; (destruct f as [|f0]; [lia|]);
    cbn [parse_value parse_elements parse_members]; refuel f0; done.
Qed.

(** Whatever some amount of fuel parses, [JSON_parse] parses: a text it
    rejects is rejected by the grammar, not for want of fuel. *)
Lemma JSON_parse_complete fuel text v rest :
  parse_value fuel text = Some (v, rest) -> skip_ws rest = [] ->
  JSON_parse text = Some v.
Proof.
  intros H Hrest. unfold JSON_parse.
  destruct (parse_fuel fuel) as (Hv & _). destruct (Hv _ _ _ H) as [_ F].
  by rewrite (F (2 * length text + 2)), Hrest by lia.
Qed.

(** A text that starts with a brace parses to an object, if it parses. *)
Lemma JSON_parse_object t v :
  JSON_parse (LBRACE :: t) = Some v -> exists ps, v = JObj ps.
Proof.
  unfold JSON_parse.
  replace (2 * length (LBRACE :: t) + 2) with (S (2 * length t + 3))
    by (simpl; lia).
  simpl. destruct (skip_ws t) as [|c r]; [done|].
  match goal with |- context [if ?b then _ else _] => destruct b end.
  - destruct (skip_ws r); [|done]. intros [= <-]. by eexists.
  - destruct (parse_members _ t) as [[ps rest]|]; [|done].
    destruct (skip_ws rest); [|done]. intros [= <-]. by eexists.
Qed.

Lemma fill_timestamp_object now ps :
  exists ps', fill_timestamp now (JObj ps) = Some (JObj ps').
Proof. simpl. destruct (truthy _); by eexists. Qed.

(** ** The report extractor *)

Section Extractor.
Variable callback : nat -> Payload -> list Cmd.

Lemma no_braces_no_match text clean :
  no_braces text -> cleanText text = Some clean ->
  js_match jsonObject_re clean = None.
Proof.
  intros Hno Hclean.
  destruct (cleanText_piece text) as (clean' & pre & post & E & Htext).
  rewrite Hclean in E. injection E as <-.
  destruct (js_match jsonObject_re clean) as [m|] eqn:Hm; [|done].
  apply jsonObject_match in Hm as (a & mid & b & -> & _).
  exfalso. apply (Hno (pre ++ a) mid (b ++ post)).
  rewrite Htext. rewrite <- !(assoc_L (++)). simpl.
  by rewrite <- !(assoc_L (++)).
Qed.

Lemma no_brace_char text : LBRACE ∉ text -> no_braces text.
Proof.
  intros Hnotin pre mid post ->. apply Hnotin.
  apply elem_of_app. right. by left.
Qed.

(** What the extractor does with a candidate that [JSON.parse]
    accepts. *)
Lemma parseDefectReport_parsed now text w clean jsonMatch parsed :
  cleanText text = Some clean ->
  js_match jsonObject_re clean = Some jsonMatch ->
  JSON_parse (matched jsonMatch) = Some parsed ->
  exists report,
    fill_timestamp now parsed = Some report /\
    parseDefectReport callback now text w
    = forEach callback DefectSignal (PReport report)
        (console_out LOG "Successfully parsed report:"
           (console_out LOG "Parsing complete response:" w)).
Proof.
  intros Hclean Hmatch Hparse.
  destruct (jsonObject_match _ _ Hmatch) as (pre & mid & post & _ & Hm).
  rewrite Hm in Hparse.
  destruct (JSON_parse_object _ _ Hparse) as [ps ->].
  destruct (fill_timestamp_object now ps) as [ps' Hfill].
  exists (JObj ps'). split; [done|].
  unfold parseDefectReport, parseDefectReport_try.
  by rewrite Hclean, Hmatch, Hm, Hparse, Hfill.
Qed.

Lemma toISOString_nonempty now : toISOString now <> [].
Proof. unfold toISOString. by destruct (year now <=? 9999)%N. Qed.

Lemma parseDefectReport_delivered now text w clean jsonMatch parsed :
  cleanText text = Some clean ->
  js_match jsonObject_re clean = Some jsonMatch ->
  JSON_parse (matched jsonMatch) = Some parsed ->
  exists report,
    fill_timestamp now parsed = Some report /\
    delivered (parseDefectReport callback now text w)
    = delivered w
      ++ map (fun h => (h, PReport report)) (handlers DefectSignal w).
Proof.
  intros Hclean Hmatch Hparse.
  destruct (parseDefectReport_parsed now text w _ _ _ Hclean Hmatch Hparse)
    as (report & Hfill & ->).
  exists report. split; [done|]. by rewrite forEach_delivered.
Qed.
End Extractor.

(** C1, as the specification states it, does not hold: the candidate of
    [misshapen_text] parses, has not the Defect Report shape (no device
    type, defects or recommendations, a score of 11, a category outside
    the set), and is handed to the report subscriber all the same. *)
Lemma misshapen_report_is_emitted :
  ~ (forall callback now text w clean jsonMatch parsed,
       cleanText text = Some clean ->
       js_match jsonObject_re clean = Some jsonMatch ->
       JSON_parse (matched jsonMatch) = Some parsed ->
       DefectReport_shape parsed = false ->
       delivered (parseDefectReport callback now text w) = delivered w).
Proof.
  intros H.
  assert (cleanText misshapen_text = Some misshapen_text) as H1
    by (vm_compute; reflexivity).
  assert (js_match jsonObject_re misshapen_text
          = Some (MatchResult misshapen_text None)) as H2
    by (vm_compute; reflexivity).
  assert (JSON_parse misshapen_text = Some misshapen_parsed) as H3
    by (vm_compute; reflexivity).
  pose proof (H quiet demo_date misshapen_text demo_world _ _ _ H1 H2 H3
                eq_refl) as E.
  vm_compute in E. discriminate E.
Qed.

(** C1, amended. For every completed turn whose brace-delimited candidate
    parses as JSON, whatever the shape of the parsed value, the extractor
    emits it: the parsed value is an object, and every report subscriber
    is called once, in registration order, with that object, its
    timestamp set to the current time when it had none or a falsy one.
    No check of the Defect Report shape stands between [JSON.parse] and
    the subscribers. *)
Theorem parsed_candidate_is_emitted callback now text w clean jsonMatch parsed :
  cleanText text = Some clean ->
  js_match jsonObject_re clean = Some jsonMatch ->
  JSON_parse (matched jsonMatch) = Some parsed ->
  exists ps,
    parsed = JObj ps /\
    let report :=
      if truthy (obj_get (lit "timestamp") ps) then parsed
      else JObj (obj_set (lit "timestamp") (JStr (toISOString now)) ps) in
    delivered (parseDefectReport callback now text w)
    = delivered w ++ map (fun h => (h, PReport report)) (handlers DefectSignal w).
Proof.
  intros Hclean Hmatch Hparse.
  destruct (parseDefectReport_delivered callback now text w _ _ _
              Hclean Hmatch Hparse) as (report & Hfill & ->).
  destruct (jsonObject_match _ _ Hmatch) as (pre & mid & post & _ & Hm).
  rewrite Hm in Hparse. destruct (JSON_parse_object _ _ Hparse) as [ps ->].
  exists ps. split; [done|]. cbv zeta. cbn [fill_timestamp] in Hfill.
  destruct (truthy (obj_get (lit "timestamp") ps)); by injection Hfill as <-.
Qed.

Lemma parsed_candidate_is_emitted_witness :
  cleanText misshapen_text = Some misshapen_text /\
  js_match jsonObject_re misshapen_text = Some (MatchResult misshapen_text None) /\
  JSON_parse misshapen_text = Some misshapen_parsed /\
  DefectReport_shape misshapen_parsed = false /\
  delivered (parseDefectReport quiet demo_date misshapen_text demo_world)
  = delivered demo_world ++ [(7, PReport (misshapen demo_date))].
Proof.
  assert (cleanText misshapen_text = Some misshapen_text) as H1
    by (vm_compute; reflexivity).
  assert (js_match jsonObject_re misshapen_text
          = Some (MatchResult misshapen_text None)) as H2
    by (vm_compute; reflexivity).
  assert (JSON_parse misshapen_text = Some misshapen_parsed) as H3
    by (vm_compute; reflexivity).
  split; [exact H1|]. split; [exact H2|]. split; [exact H3|].
  split; [vm_compute; reflexivity|].
  destruct (parsed_candidate_is_emitted quiet demo_date misshapen_text demo_world
              misshapen_text (MatchResult misshapen_text None) misshapen_parsed
              H1 H2 H3) as (ps & Hps & ->).
  injection Hps as <-. vm_compute. reflexivity.
Defined.

(** C7. On the fenced text of the example the extractor emits one report:
    each report subscriber is called once with an object whose device
    type is iPhone 12, score 8, category Good, defects and
    recommendations empty, and whose empty timestamp has been replaced by
    the current time in ISO form, which is never empty. With the one
    subscriber of [demo_world] that is exactly one call. *)
Theorem iphone_report_is_emitted callback now w :
  delivered (parseDefectReport callback now iphone_report_text w)
  = delivered w
    ++ map (fun h => (h, PReport (iphone_report now))) (handlers DefectSignal w)
  /\ toISOString now <> []
  /\ delivered (parseDefectReport quiet now iphone_report_text demo_world)
     = delivered demo_world ++ [(7, PReport (iphone_report now))].
Proof.
  assert (cleanText iphone_report_text = Some iphone_candidate) as H1
    by (vm_compute; reflexivity).
  assert (js_match jsonObject_re iphone_candidate
          = Some (MatchResult iphone_candidate None)) as H2
    by (vm_compute; reflexivity).
  assert (JSON_parse iphone_candidate = Some iphone_parsed) as H3
    by (vm_compute; reflexivity).
  assert (fill_timestamp now iphone_parsed = Some (iphone_report now)) as H4
    by reflexivity.
  assert (forall cb w',
    delivered (parseDefectReport cb now iphone_report_text w')
    = delivered w'
      ++ map (fun h => (h, PReport (iphone_report now)))
           (handlers DefectSignal w')) as Hall.
  { intros cb w'.
    destruct (parseDefectReport_delivered cb now _ w' _ _ _ H1 H2 H3)
      as (report & Hfill & ->).
    rewrite H4 in Hfill. by injection Hfill as <-. }
  split; [apply Hall|]. split; [apply toISOString_nonempty|].
  by rewrite Hall.
Qed.

(** C8. A completed turn whose text has no opening brace with a closing
    brace after it, and a completed turn whose candidate is not
    well-formed JSON, both end without a call of any subscriber and
    without an exception: the SyntaxError of [JSON.parse] is caught inside
    [parseDefectReport], and all that is left of either turn is lines on
    the console. *)
Theorem unparsable_output_is_dropped callback now text w :
  (no_braces text ->
   parseDefectReport callback now text w
   = console_out LOG "No JSON object found in response"
       (console_out LOG "Parsing complete response:" w)
   /\ delivered (parseDefectReport callback now text w) = delivered w)
  /\
  (forall clean jsonMatch,
     cleanText text = Some clean ->
     js_match jsonObject_re clean = Some jsonMatch ->
     JSON_parse (matched jsonMatch) = None ->
     parseDefectReport_try callback now text w
     = Throw SyntaxError (console_out LOG "Parsing complete response:" w)
     /\ parseDefectReport callback now text w
        = console_out ERROR "Failed to parse JSON:"
            (console_out LOG "Parsing complete response:" w)
     /\ delivered (parseDefectReport callback now text w) = delivered w).
Proof.
  split.
  - intros Hno.
    destruct (cleanText_piece text) as (clean & pre & post & Hclean & _).
    pose proof (no_braces_no_match text clean Hno Hclean) as Hnone.
    unfold parseDefectReport, parseDefectReport_try.
    by rewrite Hclean, Hnone.
  - intros clean jsonMatch Hclean Hmatch Hparse.
    unfold parseDefectReport, parseDefectReport_try.
    by rewrite Hclean, Hmatch, Hparse.
Qed.

Lemma unparsable_output_is_dropped_witness :
  (no_braces prose_text /\
   delivered (parseDefectReport quiet demo_date prose_text demo_world)
   = delivered demo_world)
  /\
  (cleanText trailing_comma_text = Some trailing_comma_candidate /\
   js_match jsonObject_re trailing_comma_candidate
   = Some (MatchResult trailing_comma_candidate None) /\
   JSON_parse trailing_comma_candidate = None /\
   delivered (parseDefectReport quiet demo_date trailing_comma_text demo_world)
   = delivered demo_world).
Proof.
  assert (no_braces prose_text) as Hprose.
  { apply no_brace_char. vm_compute.
    intros H. repeat (apply elem_of_cons in H as [H|H]; [discriminate H|]).
    by apply elem_of_nil in H. }
  assert (cleanText trailing_comma_text = Some trailing_comma_candidate) as H1
    by (vm_compute; reflexivity).
  assert (js_match jsonObject_re trailing_comma_candidate
          = Some (MatchResult trailing_comma_candidate None)) as H2
    by (vm_compute; reflexivity).
  assert (JSON_parse trailing_comma_candidate = None) as H3
    by (vm_compute; reflexivity).
  split.
  - split; [exact Hprose|].
    apply (unparsable_output_is_dropped quiet demo_date prose_text demo_world).
    exact Hprose.
  - split; [exact H1|]. split; [exact H2|]. split; [exact H3|].
    apply (unparsable_output_is_dropped quiet demo_date trailing_comma_text
             demo_world) with (jsonMatch := MatchResult trailing_comma_candidate None)
                              (clean := trailing_comma_candidate);
      assumption.
Defined.

(** ** The transport *)

Section Transport.
Variable callback : nat -> Payload -> list Cmd.

Lemma onclose_effect w :
  let n := reconnectAttempts (this w) in
  timers (onclose callback w)
  = (if (n <? maxReconnectAttempts)%N
     then timers w ++ [2000 * (n + 1)]%N else timers w)
  /\ reconnectAttempts (this (onclose callback w))
     = (if (n <? maxReconnectAttempts)%N then (n + 1)%N else n)
  /\ currentStatus (this (onclose callback w)) = disconnected
  /\ delivered (onclose callback w)
     = delivered w
       ++ map (fun h => (h, PStatus disconnected)) (handlers StatusSignal w).
Proof.
  unfold onclose, setStatus. cbv zeta. autorewrite with fanout.
  cbn -[N.mul N.add N.ltb].
  destruct (reconnectAttempts (this w) <? maxReconnectAttempts)%N;
    cbn -[N.mul N.add N.ltb]; autorewrite with fanout; done.
Qed.

Lemma onopen_attempts w : reconnectAttempts (this (onopen callback w)) = 0%N.
Proof.
  unfold onopen, setStatus, sendSetupMessage. cbv zeta.
  autorewrite with fanout. simpl. by destruct (ws_open _).
Qed.

Lemma apply_op_attempts w o :
  (forall n, o <> OpAttempts n) ->
  reconnectAttempts (this (apply_op callback w o)) = reconnectAttempts (this w).
Proof.
  intros Ho. destruct o; simpl; try done.
  - by destruct (Ho n).
  - by autorewrite with fanout.
Qed.

(** Only the open and the close of a socket touch the attempt
    counter. *)
Lemma step_attempts w e :
  ~ is_open e -> ~ is_close e ->
  reconnectAttempts (this (step callback w e)) = reconnectAttempts (this w).
Proof.
  intros Hopen Hclose.
  apply (made_of_invariant callback (permitted e)
           (fun w' => reconnectAttempts (this w') = reconnectAttempts (this w))
           w); [|apply step_made_of|done].
  intros w' o Hperm <-. apply apply_op_attempts. intros n ->.
  destruct e; simpl in *; done.
Qed.

Lemma step_attempts_zero w e :
  ~ is_close e -> reconnectAttempts (this w) = 0%N ->
  reconnectAttempts (this (step callback w e)) = 0%N.
Proof.
  intros Hclose Hw.
  apply (made_of_invariant callback (permitted e)
           (fun w' => reconnectAttempts (this w') = 0%N) w);
    [|apply step_made_of|done].
  intros w' o Hperm Hw'.
  assert ((exists n, o = OpAttempts n) \/ forall n, o <> OpAttempts n)
    as [[n ->]|Hne] by (destruct o; eauto).
  - destruct e; simpl in *; done.
  - by rewrite apply_op_attempts.
Qed.

Lemma run_attempts_zero events : forall w,
  Forall (fun e => ~ is_close e) events -> reconnectAttempts (this w) = 0%N ->
  reconnectAttempts (this (run callback w events)) = 0%N.
Proof.
  unfold run. induction events as [|e events IH]; intros w Hev Hw; simpl;
    [done|].
  apply Forall_cons in Hev as [He Hev]. by apply IH, step_attempts_zero.
Qed.

(** Without an open in between, every closure below the ceiling adds
    one to the counter and nothing takes anything off it. *)
Lemma run_attempts_closures events : forall w,
  Forall (fun e => ~ is_open e) events ->
  (maxReconnectAttempts
   <= reconnectAttempts (this w) + N.of_nat (closures events))%N ->
  (maxReconnectAttempts <= reconnectAttempts (this (run callback w events)))%N.
Proof.
  unfold run, closures.
  induction events as [|e events IH]; intros w Hev Hle.
  { rewrite filter_nil in Hle. simpl in *. lia. }
  apply Forall_cons in Hev as [He Hev]. cbn [foldl]. apply IH; [done|].
  destruct (decide (is_close e)) as [Hclose|Hclose].
  - rewrite filter_cons, decide_True in Hle by done. cbn [length] in Hle.
    destruct e as [| | | | | | | | | | | |socket]; try done.
    destruct (onclose_effect
      (with_sockets (<[socket:=CLOSED]>) w)) as (_ & Ha & _).
    cbn [step]. rewrite Ha. cbn [with_sockets this].
    destruct (N.ltb_spec (reconnectAttempts (this w)) maxReconnectAttempts);
      lia.
  - rewrite filter_cons, decide_False in Hle by done.
    by rewrite step_attempts.
Qed.

Lemma disconnect_effect w :
  ws (this (disconnect callback w)) = None
  /\ sockets (disconnect callback w)
     = match ws (this w) with
       | Some socket => sockets (close socket w)
       | None => sockets w
       end
  /\ currentStatus (this (disconnect callback w)) = disconnected
  /\ delivered (disconnect callback w)
     = delivered w
       ++ map (fun h => (h, PStatus disconnected)) (handlers StatusSignal w)
  /\ timers (disconnect callback w) = timers w
  /\ reconnectAttempts (this (disconnect callback w))
     = reconnectAttempts (this w).
Proof.
  unfold disconnect, setStatus. autorewrite with fanout.
  destruct (ws (this w)) eqn:E; simpl; rewrite ?E; done.
Qed.
End Transport.

(** C2, as the specification states it, does not hold. In [demo_world]
    the service is connected on socket 0; [disconnect] closes it and
    sets the status, and the close event of that socket then schedules a
    reconnect after 2000 ms. *)
Lemma disconnect_is_followed_by_a_reconnect :
  ~ (forall callback w socket,
       ws (this w) = Some socket -> sockets w !! socket = Some OPEN ->
       let w1 := disconnect callback w in
       sockets w1 !! socket = Some CLOSING /\
       currentStatus (this w1) = disconnected /\
       timers (step callback w1 (SocketClose socket)) = timers w1).
Proof.
  intros H.
  destruct (H quiet demo_world 0 eq_refl eq_refl) as (_ & _ & E).
  vm_compute in E. discriminate E.
Qed.

(** C2, amended. After [disconnect], [close] has been called on the
    socket the service held (an open socket is closing), the reference to
    it is dropped, the status is disconnected and every status subscriber
    has been told so; [disconnect] itself schedules no reconnect and does
    not touch the attempt counter. Nothing marks the closure as explicit:
    when the close event of a socket arrives afterwards, a reconnect is
    scheduled exactly when the counter is below 3, after 2000 ms times the
    incremented counter. *)
Theorem disconnect_then_close callback w :
  let w1 := disconnect callback w in
  (forall socket,
     ws (this w) = Some socket -> sockets w !! socket = Some OPEN ->
     sockets w1 !! socket = Some CLOSING)
  /\ ws (this w1) = None
  /\ currentStatus (this w1) = disconnected
  /\ delivered w1
     = delivered w
       ++ map (fun h => (h, PStatus disconnected)) (handlers StatusSignal w)
  /\ timers w1 = timers w
  /\ reconnectAttempts (this w1) = reconnectAttempts (this w)
  /\ forall socket,
       timers (step callback w1 (SocketClose socket))
       = if (reconnectAttempts (this w) <? 3)%N
         then timers w ++ [2000 * (reconnectAttempts (this w) + 1)]%N
         else timers w.
Proof.
  destruct (disconnect_effect callback w) as (Hws & Hs & Hst & Hd & Ht & Ha).
  cbv zeta. repeat split; try done.
  - intros socket E Hopen. rewrite Hs, E. unfold close.
    cbn [with_sockets sockets].
    by rewrite list_lookup_alter, decide_True, Hopen.
  - intros socket. cbn [step].
    destruct (onclose_effect callback
                (with_sockets (<[socket:=CLOSED]>) (disconnect callback w)))
      as (-> & _). cbn [with_sockets this timers]. by rewrite Ha, Ht.
Qed.

Lemma disconnect_then_close_witness :
  ws (this demo_world) = Some 0 /\ sockets demo_world !! 0 = Some OPEN /\
  sockets (disconnect quiet demo_world) !! 0 = Some CLOSING /\
  timers (step quiet (disconnect quiet demo_world) (SocketClose 0)) = [2000%N].
Proof.
  destruct (disconnect_then_close quiet demo_world) as (H1 & _ & _ & _ & _ & _ & H2).
  split; [reflexivity|]. split; [reflexivity|]. split.
  - apply H1; reflexivity.
  - rewrite H2. reflexivity.
Defined.

(** C3. The image request, when it is issued (the socket is open),
    leaves an empty turn buffer; the text request never touches the
    buffer. After the fragment of [partial_frame], whose turn never
    completes, a text prompt goes out on the socket and the buffer still
    holds the stale fragment, where the image request in the same state
    leaves it empty. *)
Theorem text_prompt_keeps_stale_buffer :
  (forall data prompt mimeType w,
     accumulatedResponse (this (sendImageWithPrompt data prompt mimeType w))
     = match ws_open w with
       | Some _ => []
       | None => accumulatedResponse (this w)
       end)
  /\
  (forall text w,
     accumulatedResponse (this (sendTextPrompt text w))
     = accumulatedResponse (this w))
  /\
  (let stale := step quiet demo_world (SocketMessage 0 partial_frame demo_date) in
   let after_text := step quiet stale (SendTextPrompt (lit "hello")) in
   let after_image :=
     step quiet stale (SendImageWithPrompt (lit "AAAA") (lit "hello") None) in
   accumulatedResponse (this stale) = lit "partial" /\
   outbox after_text = outbox stale ++ [(0, ClientContentText (lit "hello"))] /\
   accumulatedResponse (this after_text) = lit "partial" /\
   accumulatedResponse (this after_image) = []).
Proof.
  split; [|split].
  - intros data prompt mimeType w. unfold sendImageWithPrompt.
    by destruct (ws_open w).
  - intros text w. unfold sendTextPrompt. by destruct (ws_open w).
  - vm_compute. done.
Qed.

(** C4. A closure with the attempt counter below 3 schedules one
    reconnect, after 2000 ms times the attempt number, and adds one to
    the counter; the status is disconnected. After three closures with
    no open of a socket among the events (whatever else happens, a
    disconnect included), a further closure schedules nothing and leaves
    the status disconnected and the counter as it is. *)
Theorem reconnect_policy callback :
  (forall w socket,
     (reconnectAttempts (this w) < maxReconnectAttempts)%N ->
     let attempt := (reconnectAttempts (this w) + 1)%N in
     let w' := step callback w (SocketClose socket) in
     timers w' = timers w ++ [attempt * 2000]%N /\
     reconnectAttempts (this w') = attempt /\
     currentStatus (this w') = disconnected)
  /\
  (forall w events socket,
     Forall (fun e => ~ is_open e) events -> 3 <= closures events ->
     let w3 := run callback w events in
     let w' := step callback w3 (SocketClose socket) in
     timers w' = timers w3 /\
     reconnectAttempts (this w') = reconnectAttempts (this w3) /\
     currentStatus (this w') = disconnected).
Proof.
  split.
  - intros w socket Hlt. cbv zeta. cbn [step].
    destruct (onclose_effect callback (with_sockets (<[socket:=CLOSED]>) w))
      as (-> & -> & -> & _). cbn [with_sockets this timers].
    apply N.ltb_lt in Hlt as ->. by rewrite N.mul_comm.
  - intros w events socket Hev Hcl. cbv zeta. cbn [step].
    assert (maxReconnectAttempts
            <= reconnectAttempts (this (run callback w events)))%N as Hmin.
    { apply run_attempts_closures; [done|]. unfold maxReconnectAttempts. lia. }
    destruct (onclose_effect callback
                (with_sockets (<[socket:=CLOSED]>) (run callback w events)))
      as (-> & -> & -> & _). cbn [with_sockets this timers].
    destruct (N.ltb_spec (reconnectAttempts (this (run callback w events)))
                maxReconnectAttempts) as [Hlt|Hge]; [lia|done].
Qed.

Lemma reconnect_policy_witness :
  ((reconnectAttempts (this demo_world) < maxReconnectAttempts)%N /\
   timers (step quiet demo_world (SocketClose 0)) = [2000%N])
  /\
  (let events :=
     [SocketClose 0; Connect false; SocketClose 1; Connect false;
      SocketClose 2; Connect false] in
   Forall (fun e => ~ is_open e) events /\ 3 <= closures events /\
   timers (run quiet demo_world events) = [2000; 4000; 6000]%N /\
   timers (step quiet (run quiet demo_world events) (SocketClose 3))
   = [2000; 4000; 6000]%N).
Proof.
  destruct (reconnect_policy quiet) as [H1 H2].
  assert (reconnectAttempts (this demo_world) < maxReconnectAttempts)%N as Hlt
    by (vm_compute; reflexivity).
  split.
  - split; [exact Hlt|].
    destruct (H1 demo_world 0 Hlt) as (-> & _). reflexivity.
  - cbv zeta.
    assert (Forall (fun e => ~ is_open e)
              [SocketClose 0; Connect false; SocketClose 1; Connect false;
               SocketClose 2; Connect false]) as Hev
      by (repeat constructor; simpl; tauto).
    assert (3 <= closures
              [SocketClose 0; Connect false; SocketClose 1; Connect false;
               SocketClose 2; Connect false]) as Hcl
      by (vm_compute; lia).
    split; [exact Hev|]. split; [exact Hcl|]. split; [reflexivity|].
    destruct (H2 demo_world _ 3 Hev Hcl) as (-> & _). reflexivity.
Defined.

(** C5. The open of a socket sets the attempt counter to 0, and the
    counter stays 0 until a socket closes; the closure that comes next
    schedules retry number 1, after 2000 ms, whatever the counter was
    before the open. *)
Theorem open_resets_attempts callback w socket events socket' :
  Forall (fun e => ~ is_close e) events ->
  let opened := step callback w (SocketOpen socket) in
  let w1 := run callback opened events in
  let w2 := step callback w1 (SocketClose socket') in
  reconnectAttempts (this opened) = 0%N /\
  reconnectAttempts (this w1) = 0%N /\
  timers w2 = timers w1 ++ [1 * 2000]%N /\
  reconnectAttempts (this w2) = 1%N.
Proof.
  intros Hev. cbv zeta.
  assert (reconnectAttempts (this (step callback w (SocketOpen socket))) = 0%N)
    as H0 by apply onopen_attempts.
  pose proof (run_attempts_zero callback events _ Hev H0) as H1.
  split; [done|]. split; [done|]. cbn [step] in *.
  destruct (onclose_effect callback
              (with_sockets (<[socket':=CLOSED]>)
                 (run callback (onopen callback
                    (with_sockets (<[socket:=OPEN]>) w)) events)))
    as (-> & -> & _). cbn [with_sockets this timers]. by rewrite H1.
Qed.

Lemma open_resets_attempts_witness :
  let exhausted :=
    run quiet demo_world
      [SocketClose 0; Connect false; SocketClose 1; Connect false;
       SocketClose 2; Connect false] in
  let events := [SendTextPrompt (lit "hello")] in
  reconnectAttempts (this exhausted) = 3%N /\
  Forall (fun e => ~ is_close e) events /\
  timers (step quiet (run quiet (step quiet exhausted (SocketOpen 3)) events)
            (SocketClose 3))
  = [2000; 4000; 6000; 2000]%N.
Proof.
  cbv zeta. split; [reflexivity|].
  assert (Forall (fun e => ~ is_close e) [SendTextPrompt (lit "hello")]) as Hev
    by (repeat constructor; simpl; tauto).
  split; [exact Hev|].
  destruct (open_resets_attempts quiet
              (run quiet demo_world
                 [SocketClose 0; Connect false; SocketClose 1; Connect false;
                  SocketClose 2; Connect false])
              3 [SendTextPrompt (lit "hello")] 3 Hev) as (_ & _ & -> & _).
  reflexivity.
Defined.

(** ** The turn accumulator *)

Section Accumulator.
Variable callback : nat -> Payload -> list Cmd.

Lemma for_parts_fragment fragment part rest w :
  text_part fragment part -> fragment <> [] ->
  for_parts callback (part :: rest) w
  = for_parts callback rest
      (forEach callback MessageSignal (PChunk fragment)
         (with_this
            (set_accumulatedResponse (accumulatedResponse (this w) ++ fragment))
            (console_out LOG "Received text chunk:" w))).
Proof.
  intros (ps & -> & Htext) Hne. simpl. rewrite Htext. simpl.
  by destruct fragment.
Qed.

Lemma for_parts_empty part rest w :
  text_part [] part ->
  for_parts callback (part :: rest) w = for_parts callback rest w.
Proof. intros (ps & -> & Htext). simpl. by rewrite Htext. Qed.

Lemma for_parts_fragments fragments : forall parts w,
  Forall2 text_part fragments parts ->
  exists w',
    for_parts callback parts w = Normal w' /\
    accumulatedResponse (this w')
    = accumulatedResponse (this w) ++ concat fragments.
Proof.
  induction fragments as [|f fragments IH]; intros parts w H.
  - apply Forall2_nil_inv_l in H as ->. exists w. by rewrite app_nil_r.
  - apply Forall2_cons_inv_l in H as (part & rest & Hpart & Hrest & ->).
    destruct (decide (f = [])) as [->|Hne].
    + rewrite (for_parts_empty _ _ _ Hpart). by apply IH.
    + rewrite (for_parts_fragment f _ _ _ Hpart Hne).
      destruct (IH rest
        (forEach callback MessageSignal (PChunk f)
           (with_this
              (set_accumulatedResponse (accumulatedResponse (this w) ++ f))
              (console_out LOG "Received text chunk:" w))) Hrest)
        as (w' & -> & Hacc).
      exists w'. split; [done|]. rewrite Hacc.
      autorewrite with fanout. simpl. by rewrite <- (assoc_L (++)).
Qed.

(** What [handleMessage] does with a content frame: the loop over its
    parts, then, when the frame completes the turn, the extraction
    from the buffer and its reset. *)
Lemma handleMessage_content now data w message fragments complete :
  JSON_parse data = Some message ->
  content_frame message fragments complete ->
  exists parts,
    Forall2 text_part fragments parts /\
    handleMessage_try callback now data w
    = bind (for_parts callback parts (console_out LOG "Received message:" w))
        (fun w =>
           if complete then
             Normal
               (with_this (set_accumulatedResponse [])
                  (parseDefectReport callback now
                     (accumulatedResponse (this w))
                     (console_out LOG
                        "Model turn complete, parsing accumulated response"
                        w)))
           else Normal w).
Proof.
  intros Hparse (sc & mt & parts & Hsetup & Hsc & Hmt & Hparts & Hfr & Hc & Htool & Herr).
  exists parts. split; [done|].
  unfold handleMessage_try. rewrite Hparse.
  destruct message as [| | | | |mps]; try done.
  rewrite Hsetup, Hsc. destruct sc as [| | | | |sps]; try done.
  cbn [truthy]. unfold handle_serverContent. rewrite Hmt.
  destruct mt as [| | | | |tps]; try done.
  unfold handle_modelTurn. rewrite Hparts. cbn [truthy]. rewrite Hc.
  destruct (for_parts callback parts _) as [w'|err w']; [|done].
  cbn [bind]. rewrite Htool.
  destruct (prop (JObj mps) "error") as [e|]; [|by destruct complete].
  cbn [truthy] in Herr. destruct complete; cbn [bind]; by rewrite Herr.
Qed.

Lemma handleMessage_fragments now data w message fragments :
  JSON_parse data = Some message ->
  content_frame message fragments false ->
  accumulatedResponse (this (handleMessage callback now data w))
  = accumulatedResponse (this w) ++ concat fragments.
Proof.
  intros Hparse Hframe.
  destruct (handleMessage_content now data w _ _ _ Hparse Hframe)
    as (parts & Hparts & Htry).
  destruct (for_parts_fragments fragments parts
              (console_out LOG "Received message:" w) Hparts)
    as (w' & Hloop & Hacc).
  unfold handleMessage. rewrite Htry, Hloop. done.
Qed.

Lemma run_fragments events : forall fragments w,
  Forall2 carries events fragments ->
  accumulatedResponse (this (run callback w events))
  = accumulatedResponse (this w) ++ concat (concat fragments).
Proof.
  unfold run. induction events as [|e events IH]; intros fragments w H.
  - apply Forall2_nil_inv_l in H as ->. simpl. by rewrite app_nil_r.
  - apply Forall2_cons_inv_l in H as (frs & rest & He & Hrest & ->).
    destruct He as (socket & data & now & message & -> & Hparse & Hframe).
    cbn [foldl step]. rewrite (IH rest _ Hrest).
    rewrite (handleMessage_fragments _ _ _ _ _ Hparse Hframe).
    cbn [concat]. by rewrite concat_app, (assoc_L (++)).
Qed.

Lemma handleMessage_one_fragment now data w message fragment :
  JSON_parse data = Some message ->
  content_frame message [fragment] false ->
  fragment <> [] ->
  delivered (handleMessage callback now data w)
  = delivered w
    ++ map (fun h => (h, PChunk fragment)) (handlers MessageSignal w).
Proof.
  intros Hparse Hframe Hne.
  destruct (handleMessage_content now data w _ _ _ Hparse Hframe)
    as (parts & Hparts & Htry).
  apply Forall2_cons_inv_l in Hparts as (part & rest & Hpart & Hrest & ->).
  apply Forall2_nil_inv_l in Hrest as ->.
  unfold handleMessage. rewrite Htry.
  rewrite (for_parts_fragment fragment _ _ _ Hpart Hne). simpl.
  by autorewrite with fanout.
Qed.
End Accumulator.

(** C6, as the specification states it, does not hold for an empty
    fragment: the frame of [empty_fragment_frame] carries the fragment
    [""], the service has the raw-text subscriber 3, and the subscriber
    is not called. *)
Lemma empty_fragment_is_not_forwarded :
  ~ (forall callback w socket data now message fragment,
       JSON_parse data = Some message ->
       content_frame message [fragment] false ->
       let w' := step callback w (SocketMessage socket data now) in
       accumulatedResponse (this w') = accumulatedResponse (this w) ++ fragment /\
       delivered w'
       = delivered w
         ++ map (fun h => (h, PChunk fragment)) (handlers MessageSignal w)).
Proof.
  intros H.
  assert (JSON_parse empty_fragment_frame = Some (frame_of [])) as Hparse
    by (vm_compute; reflexivity).
  assert (content_frame (frame_of []) [[]] false) as Hframe.
  { eexists _, _, _. repeat split; try reflexivity.
    constructor; [|constructor]. eexists. split; reflexivity. }
  destruct (H quiet demo_world 0 _ demo_date _ _ Hparse Hframe) as [_ E].
  vm_compute in E. discriminate E.
Qed.

(** C6, amended. For every sequence of content frames that arrive before
    a turn-complete signal, the turn buffer ends as what it held before
    followed by the fragments concatenated in delivery order, which is
    the fragments alone when the turn began with an empty buffer. Each
    fragment that is not empty is forwarded at the moment it arrives to
    every raw-text subscriber registered at that moment, in registration
    order: as an event for a frame with one fragment, and inside the
    loop over the parts, before the next part is looked at, for a frame
    with several. An empty fragment is not forwarded. *)
Theorem fragments_are_assembled_and_forwarded callback w :
  (forall events fragments,
     Forall2 carries events fragments ->
     accumulatedResponse (this (run callback w events))
     = accumulatedResponse (this w) ++ concat (concat fragments))
  /\
  (forall e fragment,
     carries e [fragment] -> fragment <> [] ->
     delivered (step callback w e)
     = delivered w
       ++ map (fun h => (h, PChunk fragment)) (handlers MessageSignal w))
  /\
  (forall fragment part rest,
     text_part fragment part -> fragment <> [] ->
     exists w',
       for_parts callback (part :: rest) w = for_parts callback rest w' /\
       delivered w'
       = delivered w
         ++ map (fun h => (h, PChunk fragment)) (handlers MessageSignal w) /\
       accumulatedResponse (this w') = accumulatedResponse (this w) ++ fragment)
  /\
  (forall e, carries e [[]] -> delivered (step callback w e) = delivered w).
Proof.
  split; [|split; [|split]].
  - intros events fragments H. by apply run_fragments.
  - intros e fragment (socket & data & now & message & -> & Hparse & Hframe) Hne.
    by apply (handleMessage_one_fragment callback now data w message).
  - intros fragment part rest Hpart Hne. eexists. split.
    + by apply for_parts_fragment.
    + by autorewrite with fanout.
  - intros e (socket & data & now & message & -> & Hparse & Hframe).
    destruct (handleMessage_content callback now data w _ _ _ Hparse Hframe)
      as (parts & Hparts & Htry).
    apply Forall2_cons_inv_l in Hparts as (part & rest & Hpart & Hrest & ->).
    apply Forall2_nil_inv_l in Hrest as ->.
    cbn [step]. unfold handleMessage. rewrite Htry.
    by rewrite (for_parts_empty callback _ _ _ Hpart).
Qed.

Lemma fragments_are_assembled_and_forwarded_witness :
  let e := SocketMessage 0 partial_frame demo_date in
  carries e [lit "partial"] /\ lit "partial" <> [] /\
  accumulatedResponse (this (run quiet demo_world [e; e]))
  = lit "partial" ++ lit "partial" /\
  delivered (step quiet demo_world e)
  = delivered demo_world ++ [(3, PChunk (lit "partial"))].
Proof.
  cbv zeta.
  assert (carries (SocketMessage 0 partial_frame demo_date) [lit "partial"])
    as Hcarries.
  { exists 0, partial_frame, demo_date, (frame_of (lit "partial")).
    split; [reflexivity|]. split; [vm_compute; reflexivity|].
    eexists _, _, _. repeat split; try reflexivity.
    constructor; [|constructor]. eexists. split; reflexivity. }
  assert (lit "partial" <> []) as Hne by (vm_compute; discriminate).
  destruct (fragments_are_assembled_and_forwarded quiet demo_world)
    as (H1 & H2 & _).
  split; [exact Hcarries|]. split; [exact Hne|]. split.
  - rewrite (H1 _ [[lit "partial"]; [lit "partial"]]).
    + reflexivity.
    + repeat constructor; exact Hcarries.
  - rewrite (H2 _ _ Hcarries Hne). reflexivity.
Defined.

(** ** Subscriptions *)

Lemma reachable_well_formed callback config history :
  well_formed (run callback (new_GeminiLiveService config) history).
Proof. apply well_formed_run, well_formed_new. Qed.

(** C9. In a well-formed world (every world a service can reach is one),
    for a subscription of any kind: the capability takes the callback out
    of the array of its kind, and no event after that calls it, as long as
    nothing registers it again; a pass of the fan-out calls every callback
    of the array it started on, whatever the callbacks do to the registry
    during the pass, so a capability invoked during a pass does not cut
    that pass short, and it has taken effect for everything after the
    pass; invoking a capability a second time changes nothing that can be
    observed. *)
Theorem unregister_stops_delivery callback k h w :
  well_formed w ->
  handlers k (unsubscribe k h w) = filter (fun h' => h' <> h) (handlers k w)
  /\
  (~ resubscribed callback k h ->
   forall later,
     Forall (fun e => ~ registers k h e) later ->
     received k h (run callback (unsubscribe k h w) later) = received k h w)
  /\
  (forall p,
     delivered (forEach callback k p w)
     = delivered w ++ map (fun h' => (h', p)) (handlers k w))
  /\
  (~ resubscribed callback k h ->
   forall p h1 later,
     h1 ∈ handlers k w ->
     CUnsubscribe k h ∈ callback h1 p ->
     Forall (fun e => ~ registers k h e) later ->
     received k h (run callback (forEach callback k p w) later)
     = received k h (forEach callback k p w))
  /\
  (forall k',
     handlers k' (unsubscribe k h (unsubscribe k h w))
     = handlers k' (unsubscribe k h w))
  /\ frame (unsubscribe k h (unsubscribe k h w)) = frame (unsubscribe k h w)
  /\ delivered (unsubscribe k h (unsubscribe k h w))
     = delivered (unsubscribe k h w).
Proof.
  intros Hwf.
  pose proof (well_formed_run_cmd w (CUnsubscribe k h) Hwf) as Hwf'.
  simpl in Hwf'.
  split; [apply handlers_unsubscribe_same|]. split.
  { intros Hre later Hlater.
    apply (absent_run callback k h (received k h w) later); [done|done|].
    split; [done|]. split; [|done].
    rewrite handlers_unsubscribe_same, list_elem_of_filter. tauto. }
  split; [intros p; apply forEach_delivered|]. split.
  { intros Hre p h1 later Hin Hun Hlater.
    apply (absent_run callback k h _ later); [done|done|].
    split; [by apply well_formed_forEach|]. split; [|done].
    by apply (forEach_unsubscribed callback k h p h1). }
  split; [|done].
  intros k'. rewrite !handlers_unsubscribe by done.
  case_decide; [|done]. rewrite list_filter_filter.
  apply list_filter_iff. tauto.
Qed.

Lemma unregister_stops_delivery_witness :
  well_formed two_subscribers /\
  ~ resubscribed remover StatusSignal 6 /\
  handlers StatusSignal two_subscribers = [5; 6] /\
  (let pass := forEach remover StatusSignal (PStatus error) two_subscribers in
   delivered pass = [(5, PStatus error); (6, PStatus error)] /\
   handlers StatusSignal pass = [5] /\
   received StatusSignal 6
     (run remover pass [Connect false; SocketOpen 0; SocketClose 0])
   = [(6, PStatus error)]).
Proof.
  assert (well_formed two_subscribers) as Hwf
    by apply reachable_well_formed.
  assert (~ resubscribed remover StatusSignal 6) as Hre.
  { intros (h' & p & Hin). unfold remover in Hin.
    destruct (decide (h' = 5)).
    - apply list_elem_of_singleton in Hin. discriminate Hin.
    - by apply elem_of_nil in Hin. }
  destruct (unregister_stops_delivery remover StatusSignal 6 two_subscribers Hwf)
    as (_ & _ & H3 & H4 & _).
  split; [exact Hwf|]. split; [exact Hre|]. split; [reflexivity|].
  cbv zeta. split; [|split].
  - rewrite H3. reflexivity.
  - reflexivity.
  - rewrite (H4 Hre (PStatus error) 5).
    + reflexivity.
    + change (5 ∈ [5; 6]). by left.
    + change (CUnsubscribe StatusSignal 6 ∈ [CUnsubscribe StatusSignal 6]).
      by left.
    + repeat constructor; simpl; tauto.
Defined.

(** ** The singleton *)

Section Singleton.
Variable callback : nat -> Payload -> list Cmd.

Lemma apply_op_config w o :
  config (this (apply_op callback w o)) = config (this w).
Proof. destruct o; simpl; try done. by autorewrite with fanout. Qed.

(** No event changes the configuration of a service. *)
Lemma step_config w e : config (this (step callback w e)) = config (this w).
Proof.
  apply (made_of_invariant callback (permitted e)
           (fun w' => config (this w') = config (this w)) w);
    [|apply step_made_of|done].
  intros w' o _ <-. apply apply_op_config.
Qed.

Lemma act_holds m r c a :
  a <> Reset -> holds m r c ->
  holds (act callback m a) r c /\
  length (instances (act callback m a)) = length (instances m).
Proof.
  intros Ha (Hr & w & Hw & Hc). destruct a as [config| |i e]; [| done |].
  - simpl. unfold getGeminiLiveService. rewrite Hr. simpl.
    split; [|done]. split; [done|]. by exists w.
  - simpl. split; [|by rewrite length_alter]. split; [done|].
    simpl. rewrite list_lookup_alter. case_decide as Hi.
    + subst i. rewrite Hw. simpl. eexists. split; [done|].
      by rewrite step_config.
    + by exists w.
Qed.

Lemma acts_hold actions : forall m r c,
  Forall (fun a => a <> Reset) actions -> holds m r c ->
  holds (foldl (act callback) m actions) r c /\
  length (instances (foldl (act callback) m actions)) = length (instances m).
Proof.
  induction actions as [|a actions IH]; intros m r c Hall Hm; simpl; [done|].
  apply Forall_cons in Hall as [Ha Hall].
  destruct (act_holds m r c a Ha Hm) as [Hm' Hlen].
  destruct (IH _ r c Hall Hm') as [Hfin Hlen']. split; [done|]. congruence.
Qed.
End Singleton.

(** C10. Once the accessor has made the instance with the first
    configuration, the accessor called with any second configuration
    returns that same instance and changes nothing, and the instance still
    has the configuration made from the first one, whatever happened to it
    in between short of a reset. After the reset the accessor makes
    another instance, with the configuration it is given then. *)
Theorem singleton_keeps_first_config callback m c1 c2 actions :
  serviceInstance m = None ->
  Forall (fun a => a <> Reset) actions ->
  let first := getGeminiLiveService c1 m in
  let m2 := foldl (act callback) first.2 actions in
  let second := getGeminiLiveService c2 m2 in
  let third :=
    getGeminiLiveService c2 (resetGeminiLiveService callback second.2) in
  second.1 = first.1 /\
  second.2 = m2 /\
  (exists w,
     instances second.2 !! first.1 = Some w /\
     config (this w) = config (this (new_GeminiLiveService c1))) /\
  third.1 <> first.1 /\
  (exists w,
     instances third.2 !! third.1 = Some w /\
     config (this w) = config (this (new_GeminiLiveService c2))).
Proof.
  intros Hnone Hall. cbv zeta.
  set (m1 := {| instances := instances m ++ [new_GeminiLiveService c1];
                serviceInstance := Some (length (instances m)) |}).
  assert (getGeminiLiveService c1 m = (length (instances m), m1)) as ->
    by (unfold getGeminiLiveService; by rewrite Hnone).
  cbn [fst snd].
  assert (holds m1 (length (instances m))
            (config (this (new_GeminiLiveService c1)))) as Hm1.
  { split; [done|]. exists (new_GeminiLiveService c1). split; [|done].
    unfold m1; simpl. by rewrite lookup_app_r, Nat.sub_diag. }
  destruct (acts_hold callback actions m1 _ _ Hall Hm1)
    as [(Hr & w & Hw & Hc) Hlen].
  set (m2 := foldl (act callback) m1 actions) in *.
  assert (getGeminiLiveService c2 m2 = (length (instances m), m2)) as ->
    by (unfold getGeminiLiveService; by rewrite Hr).
  cbn [fst snd].
  split; [done|]. split; [done|]. split; [by exists w|].
  unfold resetGeminiLiveService. rewrite Hr.
  unfold getGeminiLiveService. cbn [serviceInstance instances fst snd].
  assert (length (alter (disconnect callback) (length (instances m))
                    (instances m2)) = S (length (instances m))) as Hlen'.
  { rewrite length_alter, Hlen. unfold m1. cbn [instances].
    rewrite length_app. simpl. lia. }
  rewrite Hlen'. split; [lia|].
  exists (new_GeminiLiveService c2). split; [|done].
  by rewrite lookup_app_r, Hlen', Nat.sub_diag by lia.
Qed.

Lemma singleton_keeps_first_config_witness :
  let actions :=
    [On 0 (Connect false); On 0 (SocketOpen 0); Get other_config;
     On 0 (SendTextPrompt (lit "hello"))] in
  let m2 :=
    foldl (act quiet) (getGeminiLiveService demo_config fresh_module).2 actions in
  serviceInstance fresh_module = None /\
  Forall (fun a => a <> Reset) actions /\
  (getGeminiLiveService demo_config fresh_module).1 = 0 /\
  (getGeminiLiveService other_config m2).1 = 0 /\
  (exists w,
     instances m2 !! 0 = Some w /\
     apiKey (config (this w)) = lit "key" /\
     model (config (this w)) = Given (lit "gemini-2.0-flash-exp")).
Proof.
  cbv zeta.
  assert (Forall (fun a => a <> Reset)
            [On 0 (Connect false); On 0 (SocketOpen 0); Get other_config;
             On 0 (SendTextPrompt (lit "hello"))]) as Hall
    by (repeat constructor; discriminate).
  destruct (singleton_keeps_first_config quiet fresh_module demo_config
              other_config _ eq_refl Hall) as (H1 & H2 & (w & Hw & Hc) & _).
  split; [reflexivity|]. split; [exact Hall|]. split; [reflexivity|].
  split; [exact H1|].
  exists w. rewrite H2 in Hw. split; [exact Hw|]. rewrite Hc. split; reflexivity.
Defined.

(** * Further properties

    Properties of the parts of the service that the statements above
    leave aside: what is sent and when, what the other kinds of inbound
    frame do, what the two patterns of the extractor find, and how the
    components use the registries. *)

(** ** The effect of an event on the transport *)

Section Effects.
Variable callback : nat -> Payload -> list Cmd.

Lemma apply_op_outbox w o :
  (forall s f, o <> OpSend s f) ->
  outbox (apply_op callback w o) = outbox w.
Proof.
  intros H. destruct o as [| | | | | |s f| | | |]; simpl; try done.
  - by destruct (H s f).
  - by autorewrite with fanout.
Qed.

Lemma apply_op_timers w o :
  (forall ms, o <> OpTimer ms) ->
  timers (apply_op callback w o) = timers w.
Proof.
  intros H. destruct o; simpl; try done.
  - by destruct (H ms).
  - by autorewrite with fanout.
Qed.

(** Only the close of a socket schedules anything. *)
Lemma step_timers w e :
  ~ is_close e -> timers (step callback w e) = timers w.
Proof.
  intros Hclose.
  apply (made_of_invariant callback (permitted e)
           (fun w' => timers w' = timers w) w); [|apply step_made_of|done].
  intros w' o Hperm <-. apply apply_op_timers. intros ms ->.
  destruct e; simpl in *; done.
Qed.

Lemma step_ws w e :
  ws (this (step callback w e))
  = match e with
    | Connect ctor_throws =>
        match ws_open w with
        | Some _ => ws (this w)
        | None => if ctor_throws then ws (this w) else Some (length (sockets w))
        end
    | Disconnect => None
    | _ => ws (this w)
    end.
Proof.
  assert (forall e', (forall o, permitted e' o -> (forall x, o <> OpWs x)) ->
            ws (this (step callback w e')) = ws (this w)) as Hother.
  { intros e' He'.
    apply (made_of_invariant callback (permitted e')
             (fun w' => ws (this w') = ws (this w)) w);
      [|apply step_made_of|done].
    intros w' o Hperm <-. destruct o; simpl; try done.
    - by destruct (He' _ Hperm x).
    - by autorewrite with fanout. }
  destruct e; try (apply Hother; intros o Hperm x ->; simpl in *; done).
  - simpl. unfold connect. destruct (ws_open w); [done|].
    unfold setStatus. destruct ctor_throws; autorewrite with fanout; simpl.
    + by autorewrite with fanout.
    + by autorewrite with fanout.
  - simpl. by destruct (disconnect_effect callback w) as (-> & _).
  - simpl. unfold onopen, setStatus, sendSetupMessage. cbv zeta.
    autorewrite with fanout. simpl. by destruct (ws_open _).
  - simpl. unfold onclose, setStatus. cbv zeta. autorewrite with fanout.
    cbn -[N.mul N.add N.ltb].
    destruct (_ <? _)%N; cbn -[N.mul N.add N.ltb]; by autorewrite with fanout.
Qed.

Lemma step_sockets w e :
  sockets (step callback w e)
  = match e with
    | Connect ctor_throws =>
        match ws_open w with
        | Some _ => sockets w
        | None => if ctor_throws then sockets w else sockets w ++ [CONNECTING]
        end
    | Disconnect =>
        match ws (this w) with
        | Some socket => alter to_closing socket (sockets w)
        | None => sockets w
        end
    | SocketOpen socket => <[socket := OPEN]> (sockets w)
    | SocketClose socket => <[socket := CLOSED]> (sockets w)
    | _ => sockets w
    end.
Proof.
  assert (forall e', (forall o, permitted e' o -> (forall f, o <> OpSockets f)) ->
            sockets (step callback w e') = sockets w) as Hother.
  { intros e' He'.
    apply (made_of_invariant callback (permitted e')
             (fun w' => sockets w' = sockets w) w);
      [|apply step_made_of|done].
    intros w' o Hperm <-. destruct o; simpl; try done.
    - by destruct (He' _ Hperm f).
    - by autorewrite with fanout. }
  destruct e; try (apply Hother; intros o Hperm x ->; simpl in *; done).
  - simpl. unfold connect. destruct (ws_open w); [done|].
    unfold setStatus. destruct ctor_throws; autorewrite with fanout; simpl.
    + by autorewrite with fanout.
    + by autorewrite with fanout.
  - simpl. destruct (disconnect_effect callback w) as (_ & -> & _).
    by destruct (ws (this w)).
  - simpl. unfold onopen, setStatus, sendSetupMessage. cbv zeta.
    autorewrite with fanout. simpl. by destruct (ws_open _).
  - simpl. unfold onclose, setStatus. cbv zeta. autorewrite with fanout.
    cbn -[N.mul N.add N.ltb].
    destruct (_ <? _)%N; cbn -[N.mul N.add N.ltb]; by autorewrite with fanout.
Qed.

(** What an event sends: the setup message when a socket opens and is
    the socket of the service, the frame of a request when the socket of
    the service is open, and nothing otherwise. *)
Lemma step_outbox w e :
  outbox (step callback w e)
  = outbox w ++
    match e with
    | SocketOpen socket =>
        match ws_open (with_sockets (<[socket := OPEN]>) w) with
        | Some s =>
            [(s, SetupMessage (model (config (this w)))
                   (systemInstruction (config (this w))))]
        | None => []
        end
    | _ =>
        match request_frame e, ws_open w with
        | Some f, Some s => [(s, f)]
        | _, _ => []
        end
    end.
Proof.
  assert (forall e', (forall o, permitted e' o -> (forall s f, o <> OpSend s f)) ->
            outbox (step callback w e') = outbox w) as Hother.
  { intros e' He'.
    apply (made_of_invariant callback (permitted e')
             (fun w' => outbox w' = outbox w) w);
      [|apply step_made_of|done].
    intros w' o Hperm <-. apply apply_op_outbox. by apply He'. }
  destruct e; simpl request_frame; cbv iota;
    try (rewrite app_nil_r; apply Hother; intros o Hperm s f ->; simpl in *; done).
  - simpl. unfold sendVideoFrame. by destruct (ws_open w); [|rewrite app_nil_r].
  - simpl. unfold sendImageWithPrompt. by destruct (ws_open w); [|rewrite app_nil_r].
  - simpl. unfold sendTextPrompt. by destruct (ws_open w); [|rewrite app_nil_r].
  - simpl. unfold onopen, setStatus, sendSetupMessage. cbv zeta.
    autorewrite with fanout.
    change (ws_open (with_this (set_reconnectAttempts 0%N)
              (console_out LOG "WebSocket connected to Gemini Live API"
                 (with_sockets (<[socket:=OPEN]>) w))))
      with (ws_open (with_sockets (<[socket:=OPEN]>) w)).
    destruct (ws_open (with_sockets (<[socket:=OPEN]>) w)); simpl;
      by rewrite ?app_nil_r.
Qed.

Lemma ws_open_Some w s :
  ws_open w = Some s <->
  ws (this w) = Some s /\ sockets w !! s = Some OPEN.
Proof.
  unfold ws_open. split.
  - destruct (ws (this w)) as [s'|]; [|done].
    destruct (sockets w !! s') as [[]|] eqn:E; try done. by intros [= <-].
  - by intros [-> ->].
Qed.

(** A socket is open after an event only if it was open before or the
    event is its open. *)
Lemma sockets_step_OPEN w e s :
  sockets (step callback w e) !! s = Some OPEN ->
  sockets w !! s = Some OPEN \/ e = SocketOpen s.
Proof.
  rewrite step_sockets. destruct e; auto.
  - destruct (ws_open w); [auto|]. destruct ctor_throws; [auto|].
    intros [H|[_ H]]%lookup_app_Some; [auto|].
    by destruct (s - length (sockets w)).
  - destruct (ws (this w)) as [socket|]; [|auto].
    rewrite list_lookup_alter. case_decide; [|auto]. subst.
    by destruct (sockets w !! s) as [[]|].
  - intros [(-> & _ & _)|[_ H]]%list_lookup_insert_Some; auto.
  - intros [(_ & ? & _)|[_ H]]%list_lookup_insert_Some; [done|auto].
Qed.

(** A frame that an event adds goes to the socket of the service, which
    is open; a setup message carries the configuration, and a request
    was sent with the socket open before the event. *)
Lemma request_needs_open w e s f :
  (s, f) ∈ outbox (step callback w e) ->
  (s, f) ∈ outbox w \/
  (sockets (step callback w e) !! s = Some OPEN /\
   ws (this (step callback w e)) = Some s /\
   match f with
   | SetupMessage m ins =>
       m = model (config (this w)) /\ ins = systemInstruction (config (this w))
   | _ => ws_open w = Some s
   end).
Proof.
  rewrite step_outbox. intros [H|H]%elem_of_app; [by left|]. right.
  rewrite step_sockets, step_ws. destruct e; simpl in H;
    try (by apply elem_of_nil in H);
    try (destruct (ws_open w) as [s0|] eqn:E; [|by apply elem_of_nil in H];
         apply list_elem_of_singleton in H as [= -> ->];
         by apply ws_open_Some in E as [? ?]).
  destruct (ws_open (with_sockets _ w)) as [s0|] eqn:E;
    [|by apply elem_of_nil in H].
  apply list_elem_of_singleton in H as [= -> ->].
  by apply ws_open_Some in E as [? ?].
Qed.

Lemma ws_open_step w e s :
  ws_open (step callback w e) = Some s ->
  ws_open w = Some s \/ exists socket, e = SocketOpen socket.
Proof.
  intros [Hws Hs]%ws_open_Some. rewrite step_ws in Hws.
  apply sockets_step_OPEN in Hs as [Hs | ->]; [|by eauto]. left.
  apply ws_open_Some. split; [|done]. destruct e; try done.
  destruct (ws_open w) as [s0|] eqn:E; [done|].
  destruct ctor_throws; [done|].
  injection Hws as <-. apply lookup_lt_Some in Hs. lia.
Qed.
End Effects.

(** ** The reconnect budget *)

Section Reconnect.
Variable callback : nat -> Payload -> list Cmd.

Lemma bounded_step w e : bounded w -> bounded (step callback w e).
Proof.
  intros [Ha Ht]. destruct (decide (is_close e)) as [Hclose|Hclose].
  - destruct e as [| | | | | | | | | | | |socket]; try done. cbn [step].
    destruct (onclose_effect callback (with_sockets (<[socket:=CLOSED]>) w))
      as (Ht' & Ha' & _).
    cbn [with_sockets this timers] in Ht', Ha'. unfold bounded.
    rewrite Ht', Ha'. unfold maxReconnectAttempts in *.
    destruct (N.ltb_spec (reconnectAttempts (this w)) 3) as [Hlt|Hge];
      [|done].
    split; [lia|]. apply Forall_app. split; [done|].
    apply Forall_singleton.
    assert (reconnectAttempts (this w) = 0 \/ reconnectAttempts (this w) = 1
            \/ reconnectAttempts (this w) = 2)%N as [-> | [-> | ->] ] by lia.
    + by left.
    + right. by left.
    + right. right. by left.
  - split; [|by rewrite step_timers].
    destruct (decide (is_open e)) as [Hopen|Hopen].
    + destruct e; try done. cbn [step]. rewrite onopen_attempts.
      unfold maxReconnectAttempts. lia.
    + by rewrite step_attempts.
Qed.

Lemma bounded_run events : forall w,
  bounded w ->
  bounded (run callback w events) /\
  length (timers (run callback w events))
  <= length (timers w) + closures events.
Proof.
  unfold run, closures.
  induction events as [|e events IH]; intros w Hw; cbn [foldl].
  { split; [done|]. lia. }
  destruct (IH _ (bounded_step w e Hw)) as [Hb Hlen]. split; [done|].
  etrans; [exact Hlen|].
  destruct (decide (is_close e)) as [Hclose|Hclose].
  - rewrite filter_cons, decide_True by done. cbn [length].
    destruct e as [| | | | | | | | | | | |socket]; try done. cbn [step].
    destruct (onclose_effect callback (with_sockets (<[socket:=CLOSED]>) w))
      as (-> & _).
    cbn [with_sockets this timers].
    destruct (_ <? _)%N; rewrite ?length_app; simpl; lia.
  - rewrite filter_cons, decide_False by done.
    rewrite step_timers by done. lia.
Qed.
End Reconnect.

(** X1. Whatever happens to a service, its attempt counter never passes
    the ceiling of 3, every reconnect it has scheduled has a delay of
    2000, 4000 or 6000 ms, and it has scheduled at most one reconnect for
    each closure of a socket. *)
Theorem reconnects_are_bounded callback config events :
  let w := run callback (new_GeminiLiveService config) events in
  (reconnectAttempts (this w) <= maxReconnectAttempts)%N /\
  Forall (fun ms => ms ∈ [2000; 4000; 6000]%N) (timers w) /\
  length (timers w) <= closures events.
Proof.
  cbv zeta.
  destruct (bounded_run callback events (new_GeminiLiveService config))
    as [[Ha Ht] Hlen].
  - split; [|by apply Forall_nil]. simpl. unfold maxReconnectAttempts. lia.
  - done.
Qed.

(** ** Outbound frames *)

Section Outbox.
Variable callback : nat -> Payload -> list Cmd.

Lemma opened_step events w e :
  opened events w -> opened (events ++ [e]) (step callback w e).
Proof.
  intros [Hs Ho]. split.
  - intros s [H | ->]%sockets_step_OPEN; apply elem_of_app.
    + left. by apply Hs.
    + right. by left.
  - intros s f [H|(H & _)]%request_needs_open; apply elem_of_app.
    + left. by apply (Ho s f).
    + apply sockets_step_OPEN in H as [H | ->].
      * left. by apply Hs.
      * right. by left.
Qed.

Lemma opened_run c events :
  opened events (run callback (new_GeminiLiveService c) events).
Proof.
  induction events as [|e events IH] using rev_ind.
  - split; [done|]. intros s f H. by apply elem_of_nil in H.
  - unfold run. rewrite foldl_app. by apply opened_step.
Qed.

Lemma in_order_snoc l s f :
  in_order l ->
  is_setup f \/ (exists m ins, (s, SetupMessage m ins) ∈ l) ->
  in_order (l ++ [(s, f)]).
Proof.
  intros Hl Hf i s' f' Hi Hns.
  apply lookup_app_Some in Hi as [Hi|[Hge Hi]].
  - destruct (Hl i s' f' Hi Hns) as (j & m & ins & Hj & E).
    exists j, m, ins. split; [done|]. by apply lookup_app_l_Some.
  - destruct (i - length l) as [|n] eqn:En; [|by destruct n].
    injection Hi as <- <-. destruct Hf as [Hf|(m & ins & Hin)]; [done|].
    apply list_elem_of_lookup in Hin as [j Hj].
    exists j, m, ins. split.
    + apply lookup_lt_Some in Hj. lia.
    + by apply lookup_app_l_Some.
Qed.

Lemma handshaken_step w e : handshaken w -> handshaken (step callback w e).
Proof.
  intros [Hcur Hord]. split.
  - intros s Hopen.
    assert (forall m ins, (s, SetupMessage m ins) ∈ outbox w ->
              (s, SetupMessage m ins) ∈ outbox (step callback w e)) as Hkeep.
    { intros m ins H. rewrite step_outbox. apply elem_of_app. by left. }
    destruct (ws_open_step callback w e s Hopen) as [Hw|[socket ->]].
    + destruct (Hcur s Hw) as (m & ins & H). exists m, ins. by apply Hkeep.
    + apply ws_open_Some in Hopen as [Hws Hs]. rewrite step_ws in Hws.
      rewrite step_sockets in Hs. rewrite step_outbox.
      assert (ws_open (with_sockets (<[socket:=OPEN]>) w) = Some s) as ->
        by (by apply ws_open_Some).
      eexists _, _. apply elem_of_app. right. by left.
  - rewrite step_outbox.
    assert (forall s f,
      is_setup f \/ ws_open w = Some s -> in_order (outbox w ++ [(s, f)]))
      as Hsnoc.
    { intros s f [Hf|Hs]; apply in_order_snoc; auto. }
    destruct e; simpl; rewrite ?app_nil_r; try done;
      try (destruct (ws_open w) eqn:E; rewrite ?app_nil_r; [|done];
           apply Hsnoc; by right).
    destruct (ws_open (with_sockets _ w)); rewrite ?app_nil_r; [|done].
    apply Hsnoc. by left.
Qed.

Lemma handshaken_run c events :
  handshaken (run callback (new_GeminiLiveService c) events).
Proof.
  induction events as [|e events IH] using rev_ind.
  - split; [done|]. intros i s f H. done.
  - unfold run. rewrite foldl_app. by apply handshaken_step.
Qed.

Lemma configured_step c w e :
  configured c w -> configured c (step callback w e).
Proof.
  intros [Hc Hall]. split; [by rewrite step_config|].
  intros s m ins [H|(_ & _ & H)]%request_needs_open.
  - by apply (Hall s).
  - by rewrite Hc in H.
Qed.

Lemma configured_run c events :
  configured (config (this (new_GeminiLiveService c)))
    (run callback (new_GeminiLiveService c) events).
Proof.
  induction events as [|e events IH] using rev_ind.
  - split; [done|]. intros s m ins H. by apply elem_of_nil in H.
  - unfold run. rewrite foldl_app. by apply configured_step.
Qed.
End Outbox.

(** X2. A service sends nothing on a socket that has not opened: for
    every frame it has handed to a socket, setup message or request, the
    open event of that socket is among the events that came before. In
    particular nothing is sent before the first open. *)
Theorem frames_go_to_opened_sockets callback config events socket sent :
  (socket, sent) ∈ outbox (run callback (new_GeminiLiveService config) events) ->
  SocketOpen socket ∈ events.
Proof.
  destruct (opened_run callback config events) as [_ H]. apply H.
Qed.

Lemma frames_go_to_opened_sockets_witness :
  (0, RealtimeInput (lit "image/jpeg") (lit "AAAA"))
    ∈ outbox (run quiet (new_GeminiLiveService demo_config) streaming_history)
  /\ SocketOpen 0 ∈ streaming_history.
Proof.
  assert ((0, RealtimeInput (lit "image/jpeg") (lit "AAAA"))
            ∈ outbox (run quiet (new_GeminiLiveService demo_config)
                        streaming_history)) as Hin.
  { right. left. }
  split; [exact Hin|].
  exact (frames_go_to_opened_sockets quiet demo_config streaming_history 0 _ Hin).
Defined.

(** X3. Every request that a service has sent (a video frame, an image
    with a prompt, a text prompt) comes after a setup message sent to the
    same socket. *)
Theorem setup_precedes_requests callback config events before socket request after :
  outbox (run callback (new_GeminiLiveService config) events)
  = before ++ (socket, request) :: after ->
  ~ is_setup request ->
  exists m ins, (socket, SetupMessage m ins) ∈ before.
Proof.
  intros Hout Hreq.
  destruct (handshaken_run callback config events) as [_ Hord].
  rewrite Hout in Hord.
  destruct (Hord (length before) socket request) as (j & m & ins & Hj & E);
    [by apply list_lookup_middle|done|].
  exists m, ins. rewrite lookup_app_l in E by done.
  by apply list_elem_of_lookup_2 in E.
Qed.

Lemma setup_precedes_requests_witness :
  outbox (run quiet (new_GeminiLiveService demo_config) streaming_history)
  = [(0, default_setup)]
    ++ (0, RealtimeInput (lit "image/jpeg") (lit "AAAA")) :: []
  /\ ~ is_setup (RealtimeInput (lit "image/jpeg") (lit "AAAA"))
  /\ exists m ins, (0, SetupMessage m ins) ∈ [(0, default_setup)].
Proof.
  assert (outbox (run quiet (new_GeminiLiveService demo_config) streaming_history)
          = [(0, default_setup)]
            ++ (0, RealtimeInput (lit "image/jpeg") (lit "AAAA")) :: [])
    as Hout by reflexivity.
  assert (~ is_setup (RealtimeInput (lit "image/jpeg") (lit "AAAA"))) as Hreq
    by (simpl; tauto).
  split; [exact Hout|]. split; [exact Hreq|].
  exact (setup_precedes_requests quiet demo_config streaming_history _ _ _ _
           Hout Hreq).
Defined.

(** X4. Every setup message that a service sends names the model and
    the system instruction of the configuration the service was
    constructed with: the property of the configuration when it has one
    (also one whose value is undefined), and otherwise the default, the
    model gemini-2.0-flash-exp and the inspection prompt. *)
Theorem setup_message_carries_the_configuration callback config events socket m ins :
  (socket, SetupMessage m ins)
    ∈ outbox (run callback (new_GeminiLiveService config) events) ->
  m = match model config with
      | Absent => Given (lit "gemini-2.0-flash-exp")
      | given => given
      end /\
  ins = match systemInstruction config with
        | Absent => Given DEVICE_INSPECTION_PROMPT
        | given => given
        end.
Proof.
  intros H. destruct (configured_run callback config events) as [_ Hall].
  destruct (Hall _ _ _ H) as [-> ->]. simpl. unfold spread.
  by destruct (model config), (systemInstruction config).
Qed.

Lemma setup_message_carries_the_configuration_witness :
  (0, default_setup)
    ∈ outbox (run quiet (new_GeminiLiveService demo_config) streaming_history)
  /\ Given (lit "gemini-2.0-flash-exp")
     = match model demo_config with
       | Absent => Given (lit "gemini-2.0-flash-exp")
       | given => given
       end
  /\ Given DEVICE_INSPECTION_PROMPT
     = match systemInstruction demo_config with
       | Absent => Given DEVICE_INSPECTION_PROMPT
       | given => given
       end.
Proof.
  assert ((0, default_setup)
            ∈ outbox (run quiet (new_GeminiLiveService demo_config)
                        streaming_history)) as Hin by left.
  split; [exact Hin|].
  exact (setup_message_carries_the_configuration quiet demo_config
           streaming_history 0 _ _ Hin).
Defined.

(** ** Inbound frames *)

Section Inbound.
Variable callback : nat -> Payload -> list Cmd.


Lemma turn_end_effect now data w message :
  JSON_parse data = Some message -> turn_end message ->
  handleMessage callback now data w
  = (let w :=
       with_this (set_accumulatedResponse [])
         (parseDefectReport callback now (accumulatedResponse (this w))
            (console_out LOG "Model turn complete, parsing accumulated response"
               (console_out LOG "Received message:" w))) in
     if truthy (prop message "toolCall")
     then console_out LOG "Tool call received:" w else w).
Proof.
  intros Hparse (sc & Hsetup & Hsc & Hparts & Hcomplete & Herr).
  unfold handleMessage, handleMessage_try. rewrite Hparse.
  destruct message as [| | | | |ps]; try done. cbn [prop] in *.
  rewrite Hsetup, Hsc.
  assert (truthy (Some sc) = true) as ->.
  { destruct sc; try done. }
  unfold handle_serverContent, handle_modelTurn.
  fold (parts_of sc). rewrite Hparts, Hcomplete. cbn [bind].
  destruct (obj_get (lit "error") ps) as [err|]; rewrite ?Herr;
    by destruct (truthy (obj_get (lit "toolCall") ps)).
Qed.

Lemma for_parts_app good : forall rest w w',
  for_parts callback good w = Normal w' ->
  for_parts callback (good ++ rest) w = for_parts callback rest w'.
Proof.
  induction good as [|part good IH]; intros rest w w' H.
  - by injection H as ->.
  - cbn [app for_parts] in *. destruct part; try done;
      (destruct (truthy _); [|by apply IH]);
      (destruct (prop _ _) as [[]|]; try done); by apply IH.
Qed.

Lemma for_parts_bad part rest w :
  bad_part part -> exists e, for_parts callback (part :: rest) w = Throw e w.
Proof.
  intros [->|(v & Hv & Htrue & Hstr)]; [by eexists|].
  cbn [for_parts]. rewrite Hv, Htrue.
  destruct part; try done; destruct v; try done; try (by eexists).
  all: by destruct (Hstr s).
Qed.

(** The console has no part in what the extractor delivers. *)
Lemma parseDefectReport_console now text level line w :
  delivered (parseDefectReport callback now text (console_out level line w))
  = delivered (parseDefectReport callback now text w).
Proof.
  unfold parseDefectReport, parseDefectReport_try.
  destruct (cleanText text) as [clean|]; [|done].
  destruct (js_match jsonObject_re clean) as [m|]; [|done].
  destruct (JSON_parse (matched m)) as [parsed|]; [|done].
  destruct (fill_timestamp now parsed) as [report|]; [|done].
  cbn [try_catch]. by autorewrite with fanout.
Qed.

Lemma bad_part_effect now data w message serverContent good bad rest w2 :
  JSON_parse data = Some message ->
  truthy (prop message "setupComplete") = false ->
  prop message "serverContent" = Some serverContent ->
  parts_of serverContent = Some (JArr (good ++ bad :: rest)) ->
  bad_part bad ->
  for_parts callback good (console_out LOG "Received message:" w) = Normal w2 ->
  handleMessage callback now data w
  = console_out ERROR "Error parsing message:" w2.
Proof.
  intros Hparse Hsetup Hsc Hparts Hbad Hgood.
  unfold handleMessage, handleMessage_try. rewrite Hparse.
  destruct message as [| | | | |ps]; try done. cbn [prop] in *.
  rewrite Hsetup, Hsc.
  assert (truthy (Some serverContent) = true) as ->.
  { unfold parts_of in Hparts. by destruct serverContent. }
  unfold handle_serverContent, handle_modelTurn.
  fold (parts_of serverContent). rewrite Hparts. cbn [truthy].
  rewrite (for_parts_app good _ _ _ Hgood).
  destruct (for_parts_bad bad rest w2 Hbad) as [e ->]. done.
Qed.

Lemma received_forEach k h k' p w :
  signal_of p <> k ->
  received k h (forEach callback k' p w) = received k h w.
Proof.
  intros Hp. unfold received. rewrite forEach_delivered, filter_app.
  rewrite (filter_none _ (map _ _)), app_nil_r; [done|].
  apply Forall_forall. intros [h' p'] Hin [E1 E2]; simpl in *.
  apply list_elem_of_fmap in Hin as (h'' & [= -> ->] & Hin). done.
Qed.

Lemma received_apply_op k h w o :
  (forall k' p, o = OpForEach k' p -> signal_of p <> k) ->
  received k h (apply_op callback w o) = received k h w.
Proof.
  intros H. destruct o as [| | | | | | | |k0 p| |]; simpl; try done.
  by apply received_forEach, (H k0).
Qed.

Lemma for_parts_received k h parts : forall w,
  k <> MessageSignal ->
  match for_parts callback parts w with
  | Normal w' | Throw _ w' => received k h w' = received k h w
  end.
Proof.
  induction parts as [|part rest IH]; intros w Hk; cbn [for_parts]; [done|].
  destruct part; try done;
    (destruct (truthy _); [|by apply IH]);
    (destruct (prop _ _) as [[]|]; try done).
  all: match goal with
       | |- context [for_parts _ ?r ?x] =>
           specialize (IH x Hk); destruct (for_parts callback r x);
           rewrite IH; by rewrite received_forEach by (simpl; congruence)
       end.
Qed.

Lemma handleMessage_received now data w h :
  completes_turn data = false ->
  received DefectSignal h (handleMessage callback now data w)
  = received DefectSignal h w.
Proof.
  unfold completes_turn, handleMessage, handleMessage_try.
  destruct (JSON_parse data) as [message|]; [|done].
  destruct message as [| | | | |ps]; try done. cbn [prop].
  intros Hc. destruct (truthy (obj_get (lit "setupComplete") ps)); [done|].
  set (c := match obj_get (lit "serverContent") ps with
            | Some serverContent =>
                if truthy (Some serverContent)
                then handle_serverContent callback now serverContent
                       (console_out LOG "Received message:" w)
                else Normal (console_out LOG "Received message:" w)
            | None => Normal (console_out LOG "Received message:" w)
            end).
  assert (match c with
          | Normal w' | Throw _ w' =>
              received DefectSignal h w' = received DefectSignal h w
          end) as Hsc.
  { unfold c. destruct (obj_get (lit "serverContent") ps) as [sc|]; [|done].
    destruct (truthy (Some sc)); [|done].
    unfold handle_serverContent. rewrite Hc. clear Hc.
    unfold handle_modelTurn.
    destruct (truthy _); [|reflexivity].
    destruct (match prop sc "modelTurn" with
              | Some JNull | None => None
              | Some turn => prop turn "parts"
              end) as [[]|]; try reflexivity.
    pose proof (for_parts_received DefectSignal h items
                  (console_out LOG "Received message:" w)) as H.
    destruct (for_parts callback items _); cbn [bind]; by apply H. }
  destruct c as [w'|err w']; cbn [bind try_catch].
  - rewrite <- Hsc.
    destruct (obj_get (lit "error") ps) as [err|].
    + destruct (truthy (Some err));
        destruct (truthy (obj_get (lit "toolCall") ps)); cbn [try_catch];
        try reflexivity; by rewrite received_forEach.
    + by destruct (truthy (obj_get (lit "toolCall") ps)).
  - by rewrite <- Hsc.
Qed.
End Inbound.

(** X5. A frame whose text is no JSON, or decodes to something that is
    no object, or is a setup acknowledgement (whatever else it carries),
    or is an object with neither server content nor an error, changes
    nothing but the console: no subscriber is called, and the buffer, the
    status, the socket and the timers stay as they are. *)
Theorem inert_frame_changes_nothing callback now data w :
  inert (JSON_parse data) = true ->
  but_console (handleMessage callback now data w) = but_console w.
Proof.
  unfold handleMessage, handleMessage_try.
  destruct (JSON_parse data) as [[| | | | |ps]|]; try done.
  cbn [inert prop]. intros H.
  destruct (truthy (obj_get (lit "setupComplete") ps)); [done|].
  cbn [orb] in H. apply andb_true_iff in H as [Hsc Herr].
  apply negb_true_iff in Hsc, Herr.
  assert (match obj_get (lit "serverContent") ps with
          | Some serverContent =>
              if truthy (Some serverContent)
              then handle_serverContent callback now serverContent
                     (console_out LOG "Received message:" w)
              else Normal (console_out LOG "Received message:" w)
          | None => Normal (console_out LOG "Received message:" w)
          end = Normal (console_out LOG "Received message:" w)) as ->.
  { destruct (obj_get (lit "serverContent") ps); [|done]. by rewrite Hsc. }
  cbn [bind].
  destruct (obj_get (lit "error") ps) as [err|];
    rewrite ?Herr; by destruct (truthy (obj_get (lit "toolCall") ps)).
Qed.

Lemma inert_frame_changes_nothing_witness :
  inert (JSON_parse acknowledgement_frame) = true /\
  but_console (handleMessage quiet demo_date acknowledgement_frame demo_world)
  = but_console demo_world.
Proof.
  assert (inert (JSON_parse acknowledgement_frame) = true) as H
    by (vm_compute; reflexivity).
  split; [exact H|].
  exact (inert_frame_changes_nothing quiet demo_date acknowledgement_frame
           demo_world H).
Defined.



(** X7. When the text of a turn arrives in any number of content frames
    and fragments and a frame then signals the end of the turn, the
    subscribers are called as the extractor calls them on what the
    buffer held before followed by all the fragments in order of
    arrival: how the text was split makes no difference. After that
    frame the buffer is empty. *)
Theorem turn_is_extracted_from_all_fragments callback w events fragments
    socket data now message :
  Forall2 carries events fragments ->
  JSON_parse data = Some message -> turn_end message ->
  let text := accumulatedResponse (this w) ++ concat (concat fragments) in
  let w1 := run callback w events in
  let w' := step callback w1 (SocketMessage socket data now) in
  delivered w' = delivered (parseDefectReport callback now text w1) /\
  accumulatedResponse (this w') = [].
Proof.
  intros Hev Hparse Hend. cbv zeta. cbn [step].
  rewrite (turn_end_effect callback now data _ message Hparse Hend).
  rewrite (run_fragments callback events fragments w Hev).
  cbv zeta. split.
  - destruct (truthy (prop message "toolCall")); cbn [console_out delivered with_this];
      by rewrite !parseDefectReport_console.
  - by destruct (truthy (prop message "toolCall")).
Qed.

Lemma turn_is_extracted_from_all_fragments_witness :
  let events :=
    [SocketMessage 0 (fragment_frame "{") demo_date;
     SocketMessage 0 (fragment_frame "}") demo_date] in
  Forall2 carries events [[lit "{"]; [lit "}"]] /\
  turn_end (JObj [(lit "serverContent", JObj [(lit "turnComplete", JBool true)])]) /\
  delivered
    (step quiet (run quiet demo_world events)
       (SocketMessage 0 turn_end_frame demo_date))
  = delivered demo_world
    ++ [(3, PChunk (lit "{")); (3, PChunk (lit "}"));
        (7, PReport (JObj [(lit "timestamp", JStr (toISOString demo_date))]))].
Proof.
  cbv zeta.
  assert (forall text : string,
    JSON_parse (fragment_frame text) = Some (frame_of (lit text)) ->
    carries (SocketMessage 0 (fragment_frame text) demo_date) [lit text])
    as Hcarries.
  { intros text Hparse.
    exists 0, (fragment_frame text), demo_date, (frame_of (lit text)).
    split; [reflexivity|]. split; [exact Hparse|].
    eexists _, _, _. repeat split; try reflexivity.
    constructor; [|constructor]. eexists. split; reflexivity. }
  assert (Forall2 carries
            [SocketMessage 0 (fragment_frame "{") demo_date;
             SocketMessage 0 (fragment_frame "}") demo_date]
            [[lit "{"]; [lit "}"]]) as Hev.
  { repeat constructor; apply Hcarries; vm_compute; reflexivity. }
  assert (JSON_parse turn_end_frame
          = Some (JObj [(lit "serverContent",
                         JObj [(lit "turnComplete", JBool true)])])) as Hparse
    by (vm_compute; reflexivity).
  assert (turn_end (JObj [(lit "serverContent",
                           JObj [(lit "turnComplete", JBool true)])])) as Hend.
  { eexists. repeat split; reflexivity. }
  split; [exact Hev|]. split; [exact Hend|].
  destruct (turn_is_extracted_from_all_fragments quiet demo_world _ _ 0
              turn_end_frame demo_date _ Hev Hparse Hend) as [-> _].
  vm_compute. reflexivity.
Defined.

(** X8. A part that is [null], or whose text is truthy and no string,
    ends the handling of its frame with an exception that [handleMessage]
    catches: what the parts before it did stays (their fragments are in
    the buffer and were forwarded), and nothing after it happens, so the
    remaining parts are skipped and a turn completion or an error in the
    same frame is not acted on. *)
Theorem bad_part_ends_the_frame callback now data w message serverContent
    good fragments bad rest :
  JSON_parse data = Some message ->
  truthy (prop message "setupComplete") = false ->
  prop message "serverContent" = Some serverContent ->
  parts_of serverContent = Some (JArr (good ++ bad :: rest)) ->
  Forall2 text_part fragments good -> bad_part bad ->
  exists w2,
    for_parts callback good (console_out LOG "Received message:" w) = Normal w2 /\
    handleMessage callback now data w
    = console_out ERROR "Error parsing message:" w2 /\
    accumulatedResponse (this (handleMessage callback now data w))
    = accumulatedResponse (this w) ++ concat fragments.
Proof.
  intros Hparse Hsetup Hsc Hparts Hgood Hbad.
  destruct (for_parts_fragments callback fragments good
              (console_out LOG "Received message:" w) Hgood)
    as (w2 & Hloop & Hacc).
  exists w2. split; [done|].
  rewrite (bad_part_effect callback now data w message serverContent good bad
             rest w2); done.
Qed.

Lemma bad_part_ends_the_frame_witness :
  JSON_parse broken_frame = Some (JObj [(lit "serverContent", broken_content)]) /\
  bad_part JNull /\
  accumulatedResponse
    (this (handleMessage quiet demo_date broken_frame demo_world))
  = lit "a" /\
  delivered (handleMessage quiet demo_date broken_frame demo_world)
  = delivered demo_world ++ [(3, PChunk (lit "a"))].
Proof.
  assert (JSON_parse broken_frame
          = Some (JObj [(lit "serverContent", broken_content)])) as Hparse
    by (vm_compute; reflexivity).
  assert (bad_part JNull) as Hbad by (by left).
  assert (Forall2 text_part [lit "a"] [JObj [(lit "text", JStr (lit "a"))]])
    as Hgood.
  { constructor; [|constructor]. eexists. split; reflexivity. }
  destruct (bad_part_ends_the_frame quiet demo_date broken_frame demo_world
              (JObj [(lit "serverContent", broken_content)]) broken_content
              [JObj [(lit "text", JStr (lit "a"))]] [lit "a"] JNull
              [JObj [(lit "text", JStr (lit "b"))]]
              Hparse eq_refl eq_refl eq_refl Hgood Hbad)
    as (w2 & Hloop & Hw & Hacc).
  split; [exact Hparse|]. split; [exact Hbad|]. split.
  - rewrite Hacc. reflexivity.
  - rewrite Hw. injection Hloop as <-. reflexivity.
Defined.

(** X9. A report subscriber is called only while a frame that signals
    the end of a turn is handled: no other event, and no frame whose
    server content does not signal the end of the turn, hands anything to
    a report subscriber. *)
Theorem reports_come_only_at_turn_completion callback w e h :
  (forall socket data now,
     e = SocketMessage socket data now -> completes_turn data = false) ->
  received DefectSignal h (step callback w e) = received DefectSignal h w.
Proof.
  intros He.
  assert ((exists socket data now, e = SocketMessage socket data now) \/
          forall socket data now, e <> SocketMessage socket data now)
    as [(socket & data & now & ->)|Hne] by (destruct e; eauto).
  - cbn [step]. apply handleMessage_received. by apply (He socket data now).
  - apply (made_of_invariant callback (permitted e)
             (fun w' => received DefectSignal h w' = received DefectSignal h w)
             w); [|apply step_made_of|done].
    intros w' o Hperm <-. apply received_apply_op.
    intros k' p -> Hp. destruct Hperm as [_ Hperm].
    destruct p; try done. destruct e; try done.
    by destruct (Hne socket data now).
Qed.

Lemma reports_come_only_at_turn_completion_witness :
  completes_turn partial_frame = false /\
  received DefectSignal 7
    (step quiet demo_world (SocketMessage 0 partial_frame demo_date))
  = received DefectSignal 7 demo_world.
Proof.
  assert (completes_turn partial_frame = false) as H by (vm_compute; reflexivity).
  split; [exact H|].
  apply reports_come_only_at_turn_completion.
  intros socket data now [= _ <- _]. exact H.
Defined.

(** X10. Nothing but an inbound frame and the image request touches the
    turn buffer. In particular the fragments of a turn that never
    completed stay in the buffer through a closure, a reconnect and a new
    open of a socket, and through [disconnect]. *)
Theorem buffer_survives_everything_else callback w e :
  (forall socket data now, e <> SocketMessage socket data now) ->
  (forall data prompt mimeType, e <> SendImageWithPrompt data prompt mimeType) ->
  accumulatedResponse (this (step callback w e)) = accumulatedResponse (this w).
Proof.
  intros Hmsg Himg.
  apply (made_of_invariant callback (permitted e)
           (fun w' => accumulatedResponse (this w') = accumulatedResponse (this w))
           w); [|apply step_made_of|done].
  intros w' o Hperm <-. destruct o; simpl; try done.
  - destruct e; simpl in Hperm; try done.
    + by destruct (Himg base64ImageData prompt mimeType).
    + by destruct (Hmsg socket data now).
  - by autorewrite with fanout.
Qed.

Lemma buffer_survives_everything_else_witness :
  let stale := step quiet demo_world (SocketMessage 0 partial_frame demo_date) in
  accumulatedResponse (this stale) = lit "partial" /\
  accumulatedResponse
    (this (run quiet stale [SocketClose 0; Connect false; SocketOpen 1]))
  = lit "partial".
Proof.
  cbv zeta. split; [reflexivity|].
  unfold run. cbn [foldl].
  rewrite !buffer_survives_everything_else by discriminate.
  reflexivity.
Defined.

(** ** What the two patterns find *)

Section Completeness.
Context {A : Type}.

Lemma strip_prefix_app (l s : list N) : strip_prefix l (l ++ s) = Some s.
Proof. induction l as [|a l IH]; simpl; [done|]. by rewrite N.eqb_refl. Qed.

Lemma strip_prefix_head (a b : N) (l s : list N) :
  a <> b -> strip_prefix (a :: l) (b :: s) = None.
Proof. intros H. simpl. by destruct (N.eqb_spec a b). Qed.

Lemma any_char_true c : any_char c = true.
Proof. unfold any_char. by destruct (is_space c). Qed.

(** A greedy star hands over at the last place where the rest of the
    pattern succeeds. *)
Lemma star_greedy_none p (k : list N -> option A) s :
  (forall t, suffix t s -> k t = None) -> star_greedy p k s = None.
Proof.
  induction s as [|c s IH]; intros H; simpl.
  - by apply H.
  - rewrite IH.
    + simpl. destruct (p c); by apply H.
    + intros t Ht. apply H. by apply suffix_cons_r.
Qed.

Lemma star_greedy_deep p (k : list N -> option A) u s a :
  Forall (fun c => p c = true) u ->
  star_greedy p k s = Some a ->
  star_greedy p k (u ++ s) = Some a.
Proof.
  induction 1 as [|c u Hc _ IH]; intros Hs; simpl; [done|].
  by rewrite Hc, IH.
Qed.

Lemma star_greedy_stop p (k : list N -> option A) c s :
  p c = false -> star_greedy p k (c :: s) = k (c :: s).
Proof. intros H. simpl. by rewrite H. Qed.

(** A lazy star hands over at the first place where the rest of the
    pattern succeeds. *)
Lemma star_lazy_first p (k : list N -> option A) u s a :
  Forall (fun c => p c = true) u ->
  (forall c t, c ∈ u -> k (c :: t) = None) ->
  k s = Some a ->
  star_lazy p k (u ++ s) = Some a.
Proof.
  induction 1 as [|c u Hc _ IH]; intros Hk Hs.
  - simpl. destruct s; simpl; by rewrite Hs.
  - simpl. rewrite (Hk c) by by left. simpl. rewrite Hc.
    apply IH; [|done]. intros c' t Hin. apply Hk. by right.
Qed.
End Completeness.

Lemma js_match_here r s m : match_at r s = Some m -> js_match r s = Some m.
Proof. intros H. destruct s; simpl; by rewrite H. Qed.

Lemma js_match_skip r pre s :
  (forall c t, c ∈ pre -> match_at r (c :: t) = None) ->
  js_match r (pre ++ s) = js_match r s.
Proof.
  induction pre as [|c pre IH]; intros H; [done|].
  simpl. rewrite (H c) by by left. simpl. apply IH.
  intros c' t Hin. apply H. by right.
Qed.

Lemma js_match_none r s :
  (forall c t, c ∈ s -> match_at r (c :: t) = None) ->
  match_at r [] = None ->
  js_match r s = None.
Proof.
  intros H Hnil. rewrite <- (app_nil_r s), js_match_skip by done.
  simpl. by rewrite Hnil.
Qed.

Lemma jsonObject_head c t : c <> LBRACE -> match_at jsonObject_re (c :: t) = None.
Proof.
  intros H. unfold match_at, jsonObject_re. cbn [exec].
  rewrite strip_prefix_head; [done|]. congruence.
Qed.

Lemma codeBlock_head c t : c <> BACKTICK -> match_at codeBlock_re (c :: t) = None.
Proof.
  intros H. unfold match_at, codeBlock_re. cbn [exec].
  change FENCE with [BACKTICK; BACKTICK; BACKTICK].
  rewrite strip_prefix_head; [done|]. congruence.
Qed.

(** A text without a backtick has no fenced block. *)
Lemma no_backtick_no_block text :
  BACKTICK ∉ text -> js_match codeBlock_re text = None.
Proof.
  intros H. apply js_match_none; [|done].
  intros c t Hin. apply codeBlock_head. by intros ->.
Qed.

Lemma jsonObject_span pre mid post :
  LBRACE ∉ pre -> RBRACE ∉ post ->
  js_match jsonObject_re (pre ++ LBRACE :: mid ++ RBRACE :: post)
  = Some (MatchResult (LBRACE :: mid ++ [RBRACE]) None).
Proof.
  intros Hpre Hpost. rewrite js_match_skip.
  2:{ intros c t Hin. apply jsonObject_head. by intros ->. }
  apply js_match_here. unfold match_at, jsonObject_re. cbn [exec].
  rewrite (strip_prefix_app [LBRACE] (mid ++ RBRACE :: post)
           : strip_prefix [LBRACE] (LBRACE :: mid ++ RBRACE :: post) = _).
  set (k := fun s1 : list N =>
              match strip_prefix [RBRACE] s1 with
              | Some s' =>
                  Some (MatchResult
                          (take (length (LBRACE :: mid ++ RBRACE :: post)
                                 - length s')
                             (LBRACE :: mid ++ RBRACE :: post)) None)
              | None => None
              end).
  apply star_greedy_deep; [apply Forall_forall; intros; apply any_char_true|].
  cbn [star_greedy]. rewrite any_char_true.
  rewrite (star_greedy_none any_char k post).
  - cbn [or_else]. unfold k.
    rewrite (strip_prefix_app [RBRACE] post
             : strip_prefix [RBRACE] (RBRACE :: post) = _).
    f_equal. f_equal.
    etrans; [|apply (take_consumed (LBRACE :: mid ++ [RBRACE]) post)].
    simpl. by rewrite <- (assoc_L (++)).
  - intros t [u ->]. unfold k. destruct t as [|c t]; [done|].
    rewrite strip_prefix_head; [done|]. intros <-. apply Hpost.
    apply elem_of_app. right. by left.
Qed.

(** What the fence pattern finds in a text with a fenced block: the
    block that opens at the first backtick, its tag and the whitespace
    after the tag left out of the group. *)
Lemma codeBlock_fenced pre (tagged : bool) sp c body post :
  BACKTICK ∉ pre ->
  Forall (fun x => is_space x = true) sp ->
  is_space c = false -> c <> ch "j" -> BACKTICK ∉ c :: body ->
  js_match codeBlock_re
    (pre ++ FENCE ++ (if tagged then lit "json" else []) ++ sp
     ++ (c :: body) ++ FENCE ++ post)
  = Some (MatchResult
            (FENCE ++ (if tagged then lit "json" else []) ++ sp
             ++ (c :: body) ++ FENCE)
            (Some (c :: body))).
Proof.
  intros Hpre Hsp Hc Hj Hbody. rewrite js_match_skip.
  2:{ intros x t Hin. apply codeBlock_head. by intros ->. }
  apply js_match_here. unfold match_at, codeBlock_re.
  set (tag := if tagged then lit "json" else []).
  set (s := FENCE ++ tag ++ sp ++ (c :: body) ++ FENCE ++ post).
  set (k0 := fun (rest : list N) (cap : option (list N)) =>
               Some (MatchResult (take (length s - length rest) s) cap)).
  cbn [exec]. unfold s at 1. rewrite strip_prefix_app.
  set (k3 := fun s1 : list N =>
               match strip_prefix FENCE s1 with
               | Some s' =>
                   k0 s' (Some (take (length ((c :: body) ++ FENCE ++ post)
                                      - length s1)
                                  ((c :: body) ++ FENCE ++ post)))
               | None => None
               end).
  assert (star_lazy any_char k3 ((c :: body) ++ FENCE ++ post)
          = Some (MatchResult (FENCE ++ tag ++ sp ++ (c :: body) ++ FENCE)
                    (Some (c :: body)))) as Hlazy.
  { apply star_lazy_first.
    - apply Forall_forall. intros; apply any_char_true.
    - intros x t Hin. unfold k3. change FENCE with [BACKTICK; BACKTICK; BACKTICK].
      rewrite strip_prefix_head; [done|]. by intros <-.
    - unfold k3. rewrite strip_prefix_app. unfold k0. f_equal. f_equal.
      + unfold s.
        replace (FENCE ++ tag ++ sp ++ (c :: body) ++ FENCE ++ post)
          with ((FENCE ++ tag ++ sp ++ (c :: body) ++ FENCE) ++ post)
          by (by rewrite <- !(assoc_L (++))).
        apply take_consumed.
      + f_equal.
        replace (length ((c :: body) ++ FENCE ++ post) - length (FENCE ++ post))
          with (length (c :: body)) by (rewrite !length_app; lia).
        by rewrite take_app_length. }
  set (k2 := fun s1 : list N =>
               star_lazy any_char
                 (fun s2 : list N =>
                    match strip_prefix FENCE s2 with
                    | Some s' =>
                        k0 s' (Some (take (length s1 - length s2) s1))
                    | None => None
                    end) s1).
  assert (star_greedy is_space k2 (sp ++ (c :: body) ++ FENCE ++ post)
          = Some (MatchResult (FENCE ++ tag ++ sp ++ (c :: body) ++ FENCE)
                    (Some (c :: body)))) as Hgreedy.
  { apply star_greedy_deep; [done|].
    change ((c :: body) ++ FENCE ++ post) with (c :: body ++ FENCE ++ post).
    rewrite star_greedy_stop by done. exact Hlazy. }
  destruct tagged; subst tag.
  - rewrite strip_prefix_app. cbn [or_else]. by rewrite Hgreedy.
  - cbn [app].
    assert (strip_prefix (lit "json") (sp ++ c :: body ++ FENCE ++ post)
            = None) as ->.
    { change (lit "json") with [ch "j"; ch "s"; ch "o"; ch "n"].
      destruct Hsp as [|x sp Hx Hsp]; cbn [app].
      - rewrite strip_prefix_head; [done|]. congruence.
      - rewrite strip_prefix_head; [done|]. intros <-. done. }
    cbn [or_else]. exact Hgreedy.
Qed.

Lemma trimStart_stop c s : is_space c = false -> trimStart (c :: s) = c :: s.
Proof. intros H. simpl. by rewrite H. Qed.

Lemma trimStart_spaces sp s :
  Forall (fun x => is_space x = true) sp -> trimStart (sp ++ s) = trimStart s.
Proof. induction 1 as [|x sp Hx _ IH]; simpl; [done|]. by rewrite Hx. Qed.

(** Trimming takes the whitespace around a text that starts and ends
    with something else. *)
Lemma trim_spaces sp c mid d sp' :
  Forall (fun x => is_space x = true) sp ->
  Forall (fun x => is_space x = true) sp' ->
  is_space c = false -> is_space d = false ->
  trim (sp ++ (c :: mid ++ [d]) ++ sp') = c :: mid ++ [d].
Proof.
  intros Hsp Hsp' Hc Hd. unfold trim, trimEnd.
  rewrite trimStart_spaces by done.
  change ((c :: mid ++ [d]) ++ sp') with (c :: (mid ++ [d]) ++ sp').
  rewrite trimStart_stop by done.
  change (c :: (mid ++ [d]) ++ sp') with ((c :: mid ++ [d]) ++ sp').
  rewrite rev_app_distr, trimStart_spaces.
  - change (c :: mid ++ [d]) with ((c :: mid) ++ [d]).
    rewrite rev_app_distr. cbn [rev app]. rewrite trimStart_stop by done.
    change (d :: rev mid ++ [c]) with ((rev [d]) ++ rev (c :: mid)).
    by rewrite <- rev_app_distr, rev_involutive.
  - by apply List.Forall_rev.
Qed.

Section Wrapping.
Variable callback : nat -> Payload -> list Cmd.

(** The extractor on a text whose brace-delimited candidate is known. *)
Lemma parseDefectReport_candidate now text w clean candidate :
  cleanText text = Some clean ->
  js_match jsonObject_re clean = Some (MatchResult candidate None) ->
  parseDefectReport callback now text w
  = try_catch
      (let w := console_out LOG "Parsing complete response:" w in
       match JSON_parse candidate with
       | None => Throw SyntaxError w
       | Some parsed =>
           match fill_timestamp now parsed with
           | None => Throw TypeError w
           | Some report =>
               Normal (forEach callback DefectSignal (PReport report)
                         (console_out LOG "Successfully parsed report:" w))
           end
       end)
      (console_out ERROR "Failed to parse JSON:").
Proof.
  intros Hclean Hmatch. unfold parseDefectReport, parseDefectReport_try.
  by rewrite Hclean, Hmatch.
Qed.

(** A text that is a candidate and nothing else. *)
Lemma bare_candidate mid :
  BACKTICK ∉ mid ->
  cleanText (LBRACE :: mid ++ [RBRACE]) = Some (LBRACE :: mid ++ [RBRACE]) /\
  js_match jsonObject_re (LBRACE :: mid ++ [RBRACE])
  = Some (MatchResult (LBRACE :: mid ++ [RBRACE]) None).
Proof.
  intros Hmid. split.
  - unfold cleanText. rewrite no_backtick_no_block; [done|].
    rewrite not_elem_of_cons, not_elem_of_app, list_elem_of_singleton.
    done.
  - apply (jsonObject_span [] mid []); apply not_elem_of_nil.
Qed.
End Wrapping.

(** X11. In a text with an opening brace and a closing brace after it,
    the candidate that the object pattern finds runs from the first
    opening brace to the last closing brace, whatever lies between
    them. *)
Theorem candidate_runs_from_first_to_last_brace pre mid post :
  LBRACE ∉ pre -> RBRACE ∉ post ->
  js_match jsonObject_re (pre ++ LBRACE :: mid ++ RBRACE :: post)
  = Some (MatchResult (LBRACE :: mid ++ [RBRACE]) None).
Proof. apply jsonObject_span. Qed.

Lemma candidate_runs_from_first_to_last_brace_witness :
  (LBRACE ∉ lit "see ") /\ (RBRACE ∉ lit " ok") /\
  matched <$> js_match jsonObject_re (lit "see {a} and {b} ok")
  = Some (lit "{a} and {b}").
Proof.
  assert (LBRACE ∉ lit "see ") as Hpre by compute_done.
  assert (RBRACE ∉ lit " ok") as Hpost by compute_done.
  split; [exact Hpre|]. split; [exact Hpost|].
  change (lit "see {a} and {b} ok")
    with (lit "see " ++ LBRACE :: lit "a} and {b" ++ RBRACE :: lit " ok").
  rewrite (candidate_runs_from_first_to_last_brace (lit "see ")
             (lit "a} and {b") (lit " ok") Hpre Hpost).
  reflexivity.
Defined.

(** X12. An answer that gives its object in a fenced block, with or
    without the json tag, with whitespace around the object inside the
    fence and any text before the fence (without a backtick) and after
    it, is handled exactly as the object alone: the fence, the tag, the
    whitespace and the surrounding text make no difference to what the
    extractor does. *)
Theorem fence_around_the_object_is_ignored callback now w pre (tagged : bool)
    sp mid sp' post :
  BACKTICK ∉ pre -> BACKTICK ∉ mid ->
  Forall (fun c => is_space c = true) sp ->
  Forall (fun c => is_space c = true) sp' ->
  parseDefectReport callback now
    (pre ++ FENCE ++ (if tagged then lit "json" else []) ++ sp
     ++ (LBRACE :: mid ++ [RBRACE]) ++ sp' ++ FENCE ++ post) w
  = parseDefectReport callback now (LBRACE :: mid ++ [RBRACE]) w.
Proof.
  intros Hpre Hmid Hsp Hsp'.
  destruct (bare_candidate mid Hmid) as [H1 H2].
  rewrite (parseDefectReport_candidate callback now (LBRACE :: mid ++ [RBRACE])
             w _ _ H1 H2).
  apply parseDefectReport_candidate with (clean := LBRACE :: mid ++ [RBRACE]);
    [|done].
  unfold cleanText.
  replace (pre ++ FENCE ++ (if tagged then lit "json" else []) ++ sp
           ++ (LBRACE :: mid ++ [RBRACE]) ++ sp' ++ FENCE ++ post)
    with (pre ++ FENCE ++ (if tagged then lit "json" else []) ++ sp
          ++ (LBRACE :: (mid ++ [RBRACE]) ++ sp') ++ FENCE ++ post)
    by (simpl; by rewrite <- !(assoc_L (++))).
  rewrite codeBlock_fenced; try done.
  - simpl. f_equal.
    apply (trim_spaces [] LBRACE mid RBRACE sp'); done.
  - rewrite !not_elem_of_cons, !not_elem_of_app, list_elem_of_singleton.
    split; [done|]. split; [split; [done|done]|].
    intros Hin. rewrite Forall_forall in Hsp'. by apply Hsp' in Hin.
Qed.

Lemma fence_around_the_object_is_ignored_witness :
  (BACKTICK ∉ lit "Here you are: ") /\ (BACKTICK ∉ iphone_members) /\
  Forall (fun c => is_space c = true) [NEWLINE] /\
  parseDefectReport quiet demo_date
    (lit "Here you are: " ++ iphone_report_text ++ lit " Anything {else}?")
    demo_world
  = parseDefectReport quiet demo_date iphone_candidate demo_world.
Proof.
  assert (BACKTICK ∉ lit "Here you are: ") as Hpre by compute_done.
  assert (BACKTICK ∉ iphone_members) as Hmid by compute_done.
  assert (Forall (fun c => is_space c = true) [NEWLINE]) as Hsp
    by (repeat constructor).
  split; [exact Hpre|]. split; [exact Hmid|]. split; [exact Hsp|].
  exact (fence_around_the_object_is_ignored quiet demo_date demo_world
           (lit "Here you are: ") true [NEWLINE] iphone_members [NEWLINE]
           (lit " Anything {else}?") Hpre Hmid Hsp Hsp).
Defined.

(** X13. An answer without a backtick that gives its object in running
    text, with no opening brace before the object and no closing brace
    after it, is handled exactly as the object alone. *)
Theorem prose_around_the_object_is_ignored callback now w pre mid post :
  BACKTICK ∉ pre ++ LBRACE :: mid ++ RBRACE :: post ->
  LBRACE ∉ pre -> RBRACE ∉ post ->
  parseDefectReport callback now (pre ++ LBRACE :: mid ++ RBRACE :: post) w
  = parseDefectReport callback now (LBRACE :: mid ++ [RBRACE]) w.
Proof.
  intros Hno Hpre Hpost.
  assert (BACKTICK ∉ mid) as Hmid.
  { intros Hin. apply Hno. apply elem_of_app. right. right.
    apply elem_of_app. by left. }
  destruct (bare_candidate mid Hmid) as [H1 H2].
  rewrite (parseDefectReport_candidate callback now _ w _ _ H1 H2).
  apply parseDefectReport_candidate
    with (clean := pre ++ LBRACE :: mid ++ RBRACE :: post).
  - unfold cleanText. by rewrite no_backtick_no_block.
  - by apply jsonObject_span.
Qed.

Lemma prose_around_the_object_is_ignored_witness :
  (BACKTICK
     ∉ lit "Report: " ++ LBRACE :: iphone_members ++ RBRACE :: lit " Done.") /\
  (LBRACE ∉ lit "Report: ") /\ (RBRACE ∉ lit " Done.") /\
  parseDefectReport quiet demo_date
    (lit "Report: " ++ iphone_candidate ++ lit " Done.") demo_world
  = parseDefectReport quiet demo_date iphone_candidate demo_world.
Proof.
  assert (BACKTICK ∉ lit "Report: " ++ LBRACE :: iphone_members
                     ++ RBRACE :: lit " Done.") as Hno by compute_done.
  assert (LBRACE ∉ lit "Report: ") as Hpre by compute_done.
  assert (RBRACE ∉ lit " Done.") as Hpost by compute_done.
  split; [exact Hno|]. split; [exact Hpre|]. split; [exact Hpost|].
  exact (prose_around_the_object_is_ignored quiet demo_date demo_world
           (lit "Report: ") iphone_members (lit " Done.") Hno Hpre Hpost).
Defined.

(** ** Text after a complete object *)

Local Open Scope N_scope.















Local Close Scope N_scope.




(** ** Registrations and status *)

Section Repeated.
Variable callback : nat -> Payload -> list Cmd.

Lemma subscribe_times k h n : forall w,
  well_formed w ->
  well_formed (Nat.iter n (subscribe k h) w) /\
  handlers k (Nat.iter n (subscribe k h) w) = handlers k w ++ replicate n h /\
  delivered (Nat.iter n (subscribe k h) w) = delivered w.
Proof.
  induction n as [|n IH]; intros w Hwf.
  - simpl. by rewrite app_nil_r.
  - rewrite !Nat.iter_succ. destruct (IH w Hwf) as (Hwf' & Hh & Hd).
    split; [|split].
    + apply (well_formed_run_cmd _ (CSubscribe k h) Hwf').
    + rewrite handlers_subscribe, decide_True, Hh by done.
      rewrite <- (assoc_L (++)). f_equal.
      by rewrite <- replicate_cons_app.
    + done.
Qed.
End Repeated.

(** X15. The registration methods do not look for duplicates: a callback
    registered [n] times on a signal stands [n] more times in its array
    and is called [n] more times at each emission, after the callbacks
    that were there before. One call of the function that a
    registration returned takes all [n] entries out at once, since it
    filters by identity, so the other functions returned for the same
    callback have nothing left to remove. *)
Theorem repeated_registration callback k h p n w :
  well_formed w ->
  let w' := Nat.iter n (subscribe k h) w in
  handlers k w' = handlers k w ++ replicate n h /\
  delivered (forEach callback k p w')
  = delivered w ++ map (fun h' => (h', p)) (handlers k w) ++ replicate n (h, p) /\
  handlers k (unsubscribe k h w') = filter (fun h' => h' <> h) (handlers k w).
Proof.
  intros Hwf. cbv zeta.
  destruct (subscribe_times k h n w Hwf) as (Hwf' & Hh & Hd).
  split; [done|]. split.
  - rewrite forEach_delivered, Hh, Hd, map_app. do 2 f_equal.
    clear. induction n as [|n IH]; simpl; [done|]. by f_equal.
  - rewrite handlers_unsubscribe_same, Hh, filter_app.
    rewrite (filter_none _ (replicate n h)), app_nil_r; [done|].
    apply Forall_forall. intros x Hx%elem_of_replicate. tauto.
Qed.

Lemma repeated_registration_witness :
  well_formed demo_world /\
  handlers MessageSignal (Nat.iter 2 (subscribe MessageSignal 4) demo_world)
  = [3; 4; 4] /\
  handlers MessageSignal
    (unsubscribe MessageSignal 4
       (Nat.iter 2 (subscribe MessageSignal 4) demo_world))
  = [3].
Proof.
  assert (well_formed demo_world) as Hwf by apply reachable_well_formed.
  destruct (repeated_registration quiet MessageSignal 4 (PChunk []) 2
              demo_world Hwf) as (H1 & _ & H3).
  split; [exact Hwf|]. split.
  - rewrite H1. reflexivity.
  - rewrite H3. reflexivity.
Defined.

(** X16. [disconnect] on a service that is already disconnected closes
    nothing and changes no field, and yet tells every status subscriber
    once more that the status is disconnected: [setStatus] does not
    compare the new status with the old one. *)
Theorem disconnect_twice callback w :
  let w1 := disconnect callback w in
  let w2 := disconnect callback w1 in
  frame w2 = frame w1 /\
  delivered w2
  = delivered w1
    ++ map (fun h => (h, PStatus disconnected)) (handlers StatusSignal w1).
Proof.
  cbv zeta.
  destruct (disconnect_effect callback w) as (Hws & _ & Hst & _).
  split.
  - unfold disconnect at 1. rewrite Hws. unfold setStatus.
    rewrite forEach_frame. unfold frame. cbn. by rewrite Hst.
  - unfold disconnect at 1. rewrite Hws. unfold setStatus.
    by rewrite forEach_delivered.
Qed.

Section Status.
Variable callback : nat -> Payload -> list Cmd.

Lemma apply_op_status w o :
  (forall s, o <> OpStatus s) ->
  currentStatus (this (apply_op callback w o)) = currentStatus (this w).
Proof.
  intros H. destruct o; simpl; try done.
  - by destruct (H status).
  - by autorewrite with fanout.
Qed.

(** Only the transport and [disconnect] change the status. *)
Lemma step_status w e :
  ~ transport_event e ->
  currentStatus (this (step callback w e)) = currentStatus (this w).
Proof.
  intros He.
  apply (made_of_invariant callback (permitted e)
           (fun w' => currentStatus (this w') = currentStatus (this w)) w);
    [|apply step_made_of|done].
  intros w' o Hperm <-. apply apply_op_status. intros s ->. done.
Qed.

Lemma setStatus_status status w :
  currentStatus (this (setStatus callback status w)) = status.
Proof. unfold setStatus. by autorewrite with fanout. Qed.

Lemma setStatus_delivered status w :
  delivered (setStatus callback status w)
  = delivered w ++ map (fun h => (h, PStatus status)) (handlers StatusSignal w).
Proof. unfold setStatus. by autorewrite with fanout. Qed.
End Status.

(** X17. Whenever an event changes the value that [getStatus] returns,
    the status subscribers registered before the event are each called
    once, in registration order, with the new value, and nobody else is
    called. The one exception is a [connect] in which the construction of
    the socket throws: it sets connecting and then error, and makes two
    rounds of calls. *)
Theorem status_changes_are_broadcast callback w e :
  getStatus (step callback w e) <> getStatus w ->
  e <> Connect true ->
  delivered (step callback w e)
  = delivered w
    ++ map (fun h => (h, PStatus (getStatus (step callback w e))))
         (handlers StatusSignal w).
Proof.
  unfold getStatus. intros Hchange Hne.
  destruct e as [[]| | | | | | | | |socket| |socket|socket]; try done;
    try (by rewrite step_status in Hchange by (simpl; tauto));
    cbn [step] in *.
  - unfold connect in *. destruct (ws_open w); [done|].
    unfold setStatus. cbn. by autorewrite with fanout.
  - destruct (disconnect_effect callback w) as (_ & _ & -> & -> & _). done.
  - unfold onopen, sendSetupMessage. cbv zeta.
    rewrite setStatus_status, setStatus_delivered. by destruct (ws_open _).
  - unfold onerror. rewrite setStatus_status, setStatus_delivered. done.
  - destruct (onclose_effect callback (with_sockets (<[socket:=CLOSED]>) w))
      as (_ & _ & -> & ->). done.
Qed.

Lemma status_changes_are_broadcast_witness :
  getStatus (step quiet demo_world (SocketError 0)) <> getStatus demo_world /\
  delivered (step quiet demo_world (SocketError 0))
  = delivered demo_world ++ [(5, PStatus error)].
Proof.
  assert (getStatus (step quiet demo_world (SocketError 0))
          <> getStatus demo_world) as Hchange by discriminate.
  split; [exact Hchange|].
  rewrite (status_changes_are_broadcast quiet demo_world (SocketError 0)
             Hchange); [reflexivity|discriminate].
Defined.

(** ** The components that use the service *)

Section Lifecycle.

Lemma forEach_quiet k p w k' :
  handlers k' (forEach quiet k p w) = handlers k' w.
Proof.
  apply (forEach_invariant quiet (fun w' => handlers k' w' = handlers k' w));
    [done| |done].
  intros w' h p' c Hc. by apply elem_of_nil in Hc.
Qed.

Lemma apply_op_handlers w o k :
  (forall k' h, o <> OpSubscribe k' h) ->
  (forall k' h, o <> OpUnsubscribe k' h) ->
  handlers k (apply_op quiet w o) = handlers k w.
Proof.
  intros H1 H2. destruct o; simpl; try done.
  - apply forEach_quiet.
  - by destruct (H1 k0 h).
  - by destruct (H2 k0 h).
Qed.

(** With callbacks that leave the service alone, the arrays only change
    by a registration or by a call of what a registration returned. *)
Lemma step_handlers w e k :
  ~ registry_event e -> handlers k (step quiet w e) = handlers k w.
Proof.
  intros He.
  apply (made_of_invariant quiet (permitted e)
           (fun w' => handlers k w' = handlers k w) w);
    [|apply step_made_of|done].
  intros w' o Hperm <-. apply apply_op_handlers.
  - intros k' h ->. destruct e; simpl in *; tauto.
  - intros k' h ->. destruct e; simpl in *; tauto.
Qed.

Lemma run_handlers events : forall w k,
  Forall (fun e => ~ registry_event e) events ->
  handlers k (run quiet w events) = handlers k w.
Proof.
  unfold run. induction events as [|e events IH]; intros w k Hev; simpl;
    [done|].
  apply Forall_cons in Hev as [He Hev]. by rewrite IH, step_handlers.
Qed.

Lemma forEach_deaf callback k p w :
  handlers k w = [] -> forEach callback k p w = w.
Proof. unfold forEach. by intros ->. Qed.

Lemma deaf_apply_op callback calls w o :
  (forall k h, o <> OpSubscribe k h) ->
  deaf w /\ delivered w = calls ->
  deaf (apply_op callback w o) /\ delivered (apply_op callback w o) = calls.
Proof.
  intros Ho [[Hwf Hnone] Hd]. destruct o; simpl; try done.
  - by rewrite forEach_deaf.
  - by destruct (Ho k h).
  - split; [|done]. split.
    + apply (well_formed_run_cmd w (CUnsubscribe k h) Hwf).
    + intros k'. rewrite handlers_unsubscribe by done.
      case_decide; by rewrite Hnone.
Qed.

(** A service without subscribers stays without them, and calls nobody,
    until somebody registers. *)
Lemma deaf_run callback calls events : forall w,
  Forall (fun e => forall k h, ~ registers k h e) events ->
  deaf w /\ delivered w = calls ->
  deaf (run callback w events) /\ delivered (run callback w events) = calls.
Proof.
  unfold run. induction events as [|e events IH]; intros w Hev Hw; simpl;
    [done|].
  apply Forall_cons in Hev as [He Hev]. apply IH; [done|].
  apply (made_of_invariant callback (permitted e)
           (fun w' => deaf w' /\ delivered w' = calls) w);
    [|apply step_made_of|done].
  intros w' o Hperm. apply deaf_apply_op. intros k h ->.
  destruct e; simpl in *; try done.
  - apply (He MessageSignal handler). tauto.
  - apply (He StatusSignal handler). tauto.
  - apply (He DefectSignal handler). tauto.
Qed.
End Lifecycle.

(** X18. The inspector components make their own service with only the
    API key, register one callback on each signal and, on cleanup, call
    the three functions they got back and then [disconnect]. Whatever the
    component did with the service in between (anything but further
    registrations), the cleanup leaves the service with no subscriber on
    any signal, no socket and the status disconnected; and whatever
    happens to that service afterwards (a late close of its socket, the
    reconnect that this schedules, frames on the new socket), none of the
    component's callbacks is called again, as long as nobody
    registers. *)
Theorem inspector_cleanup_leaves_no_subscriber key hM hS hD session later :
  Forall (fun e => ~ registry_event e) session ->
  Forall (fun e => forall k h, ~ registers k h e) later ->
  let w :=
    run quiet (new_GeminiLiveService (inspector_config key))
      (inspector_effect hM hS hD ++ session ++ inspector_cleanup hM hS hD) in
  (forall k, handlers k w = []) /\
  ws (this w) = None /\ getStatus w = disconnected /\
  delivered (run quiet w later) = delivered w.
Proof.
  intros Hsession Hlater. cbv zeta. unfold run. rewrite !foldl_app.
  set (w0 := foldl (step quiet) (new_GeminiLiveService (inspector_config key))
               (inspector_effect hM hS hD)).
  set (w1 := foldl (step quiet) w0 session).
  assert (well_formed w1) as Hwf.
  { apply (well_formed_run quiet session),
      (well_formed_run quiet (inspector_effect hM hS hD)).
    apply well_formed_new. }
  assert (handlers MessageSignal w1 = [hM] /\ handlers StatusSignal w1 = [hS]
          /\ handlers DefectSignal w1 = [hD]) as (HM & HS & HD).
  { unfold w1. fold (run quiet w0 session). by rewrite !run_handlers. }
  set (u1 := unsubscribe MessageSignal hM w1).
  set (u2 := unsubscribe StatusSignal hS u1).
  set (u3 := unsubscribe DefectSignal hD u2).
  change (foldl (step quiet) w1 (inspector_cleanup hM hS hD))
    with (disconnect quiet u3).
  assert (well_formed u1) as Hwf1
    by apply (well_formed_run_cmd w1 (CUnsubscribe MessageSignal hM) Hwf).
  assert (well_formed u2) as Hwf2
    by apply (well_formed_run_cmd u1 (CUnsubscribe StatusSignal hS) Hwf1).
  assert (well_formed u3) as Hwf3
    by apply (well_formed_run_cmd u2 (CUnsubscribe DefectSignal hD) Hwf2).
  assert (forall k, handlers k u3 = []) as Hnone.
  { intros k. unfold u3, u2, u1.
    rewrite !handlers_unsubscribe by done.
    destruct k; repeat case_decide; try done;
      rewrite ?HM, ?HS, ?HD, filter_cons, decide_False; tauto. }
  assert (disconnect quiet u3 = step quiet u3 Disconnect) as Hstep by done.
  assert (deaf (disconnect quiet u3)) as Hdeaf.
  { rewrite Hstep.
    apply (deaf_run quiet (delivered u3) [Disconnect] u3); [|done].
    repeat constructor. simpl. tauto. }
  destruct (disconnect_effect quiet u3) as (Hws & _ & Hst & _).
  split; [apply Hdeaf|]. split; [done|]. split; [done|].
  by apply (deaf_run quiet (delivered (disconnect quiet u3)) later).
Qed.

Lemma inspector_cleanup_leaves_no_subscriber_witness :
  let session :=
    [Connect false; SocketOpen 0;
     SendImageWithPrompt (lit "AAAA") (lit "Analyze") None] in
  let later := [SocketClose 0; Connect false; SocketOpen 1] in
  Forall (fun e => ~ registry_event e) session /\
  Forall (fun e => forall k h, ~ registers k h e) later /\
  let w :=
    run quiet (new_GeminiLiveService (inspector_config (lit "key")))
      (inspector_effect 3 5 7 ++ session ++ inspector_cleanup 3 5 7) in
  delivered (run quiet w later) = delivered w /\
  timers (run quiet w later) = [2000%N].
Proof.
  cbv zeta.
  assert (Forall (fun e => ~ registry_event e)
            [Connect false; SocketOpen 0;
             SendImageWithPrompt (lit "AAAA") (lit "Analyze") None]) as Hs
    by (repeat constructor; simpl; tauto).
  assert (Forall (fun e => forall k h, ~ registers k h e)
            [SocketClose 0; Connect false; SocketOpen 1]) as Hl
    by (repeat constructor; simpl; tauto).
  split; [exact Hs|]. split; [exact Hl|].
  destruct (inspector_cleanup_leaves_no_subscriber (lit "key") 3 5 7 _ _ Hs Hl)
    as (_ & _ & _ & H).
  split; [exact H|reflexivity].
Defined.
